(** * Sampling from a spectrahedron: the experiment driver [opti_exp]

    Shallow embedding of
    [R-proj/src/temp_folder/optimization_experiment.cpp] and of the
    sampling core it drives (boundary oracle, preprocessing, walkers).

    The driver is translated statement by statement.  Everything it calls
    lives in headers ([vars.h], [samplers.h], [spectrahedron.h], ...) that
    are not part of the translated sources: those collaborators are the
    fields of the record [Extern], and each use of one is a call through
    that record. *)

From Stdlib Require Import ZArith NArith QArith Reals Lra Lia Bool String List.
From Stdlib Require Import Classical FunctionalExtensionality.
Import ListNotations.

Set Implicit Arguments.

(** ** Scalars

    [typedef double NT;] -- the driver is written against the number type
    [NT] and touches it only through decimal literals and one product
    ([2.0 * var.diameter]). *)

Class Scalar (NT : Type) : Type := {
  dec : Z -> nat -> NT;          (* [dec m e] is the literal m * 10^-e *)
  NT_mul : NT -> NT -> NT
}.

#[global] Instance Scalar_Q : Scalar Q :=
  {| dec m e := Qmake m (Z.to_pos (10 ^ Z.of_nat e));
     NT_mul := Qmult |}.

#[global] Instance Scalar_R : Scalar R :=
  {| dec m e := (IZR m / 10 ^ e)%R;
     NT_mul := Rmult |}.

(** A local of scalar type declared without an initialiser
    ([NT nballs2, diam_spec, vol_spec, rad, round_value = 1.0;]) holds an
    indeterminate value until something is stored into it.  Copies of an
    indeterminate value and arithmetic on it stay indeterminate. *)

Inductive slot (A : Type) : Type :=
| Indet : slot A
| Val (a : A) : slot A.
Arguments Indet {A}.

Definition is_defined {A} (s : slot A) : bool :=
  match s with Indet => false | Val _ => true end.

Definition slot_mul {NT} `{Scalar NT} (a b : slot NT) : slot NT :=
  match a, b with
  | Val x, Val y => Val (NT_mul x y)
  | _, _ => Indet
  end.

(** [Rcpp::Nullable<T>]: either R's NULL or a value. *)
Definition Nullable (A : Type) : Type := option A.
Definition R_NilValue {A} : Nullable A := None.

(** [unsigned int n = Rcpp::as<int>(nn);] -- conversion of an [int] to
    [unsigned int] is reduction modulo 2^32. *)
Definition to_unsigned (z : Z) : Z := z mod 2 ^ 32.

(** ** Failures

    The error taxonomy of the sampling core, and the exception thrown by
    [Rcpp::as] on a NULL argument.  The driver contains no handler, so any
    of them ends the call. *)

Inductive exception : Type :=
| Rcpp_null                 (* Rcpp::as applied to R_NilValue *)
| DimensionMismatch
| Infeasible
| UnboundedDirection.

(** ** The types the driver names but does not define

    [typedef]s at the top of [opti_exp]: the number type [NT], the
    spectrahedron [spectaedro],
    its [lmi], Eigen matrices [MT], kernel points [Point], the Mersenne
    twister [RNGType]; further the type of the identifier [Ratios], the
    [Rcpp::NumericMatrix] handed back to R, and the members of the two
    oracle-settings classes the driver does not touch.  [World] is the
    state of everything outside the function: the clock, the generators the
    collaborators seed for themselves, the file [sdp_prob.txt], the
    console. *)

Record Carriers : Type := {
  NT : Type;
  World : Type;
  spectaedro : Type;
  lmi : Type;
  MT : Type;
  Point : Type;
  RNGType : Type;
  RatiosT : Type;
  NumericMatrix : Type;
  BilliardAux : Type;
  HMCAux : Type
}.

Section Driver.

Context (C : Carriers).

Local Abbreviation NT := (NT C).

(** [boost::random::uniform_real_distribution<>]: its two bounds. *)
Record uniform_real_distribution : Type := {
  dist_min : NT;
  dist_max : NT
}.

(** [vars<NT, RNGType>], the walk configuration.  Its declaration is in
    [vars.h]; the fields below are the 24 constructor arguments of line 67
    in their order.  The driver itself names one of them,
    [var.diameter] (line 88), the eleventh; the tenth receives
    [InnerB.second], the inner-ball radius.  The generator is held by
    reference: the object [rng] of the driver is reachable only through
    this field. *)
Record vars : Type := {
  m : Z;
  n : Z;
  walk_steps : Z;
  n_threads : Z;
  err : NT;
  error : NT;
  lw : Z;
  up : NT;
  L : Z;
  che_rad : slot NT;
  diameter : slot NT;
  rng : RNGType C;
  urdist : uniform_real_distribution;
  urdist1 : uniform_real_distribution;
  delta : NT;
  verbose : bool;
  rand_only : bool;
  round : bool;
  NN : bool;
  birk : bool;
  ball_walk : bool;
  cdhr_walk : bool;
  rdhr_walk : bool;
  bill_walk : bool
}.

(** [spectaedro::BoundaryOracleBilliardSettings]: the driver writes its
    member [LMIatP]. *)
Record BoundaryOracleBilliardSettings : Type := {
  LMIatP : MT C;
  billiard_aux : BilliardAux C
}.

(** [spectaedro::BoundaryOracleBoltzmannHMCSettings]: the driver writes
    its members [first] and [epsilon]. *)
Record BoundaryOracleBoltzmannHMCSettings : Type := {
  first : bool;
  epsilon : NT;
  hmc_aux : HMCAux C
}.

(** The eight arguments of [preproccess_spectrahedron] (line 73).  The
    call is a statement whose value is not used, so whatever preprocessing
    computes reaches the driver through these arguments: all eight are
    taken as passed by reference. *)
Record preprocess_refs : Type := {
  pre_SP : spectaedro C;
  pre_p : Point C;
  pre_var : vars;
  pre_settings : BoundaryOracleBilliardSettings;
  pre_round_value : slot NT;
  pre_diam_spec : slot NT;
  pre_rad : slot NT;
  pre_round : bool
}.

(** The arguments of one call of [HMC_boltzmann_reflections] (line 94)
    and what the call leaves in the objects it may write to. *)
Record hmc_refs : Type := {
  hmc_p : Point C;
  hmc_var : vars;
  hmc_settings : BoundaryOracleBoltzmannHMCSettings
}.

Record hmc_call : Type := {
  call_SP : spectaedro C;
  call_diam : slot NT;
  call_c : Point C;
  call_T : slot NT;
  call_in : hmc_refs;
  call_out : exception + hmc_refs
}.

(** A collaborator runs against the outside world and either throws or
    returns. *)
Definition Ext (A : Type) : Type := World C -> (exception + A) * World C.

(** ** Collaborators

    Modelled from the spec: the signatures of the functions the driver
    calls, none of which is declared in the translated file.  The walker
    receives the spectrahedron (read-only during sampling), the diameter,
    the direction [c] and the time [T] as inputs, and works on the current
    point, the configuration (which carries the generator) and the
    settings object "passed by mutable reference".  [N2] and [Ratios] are
    identifiers the function reads without declaring them. *)
Record Extern : Type := {
  generateSDP2 : Z -> Z -> Ext (spectaedro C);
  time_since_epoch : Ext Z;
  mt19937 : Z -> RNGType C;
  Point_default : Point C;
  Point_dim : Z -> Point C;
  get_coefficients : Point C -> list NT;
  getLMI : spectaedro C -> lmi C;
  getMatricesDim : lmi C -> Z;
  getA0 : lmi C -> MT C;
  BilliardSettings_dim : Z -> BoundaryOracleBilliardSettings;
  HMCSettings_default : BoundaryOracleBoltzmannHMCSettings;
  preproccess_spectrahedron : preprocess_refs -> Ext preprocess_refs;
  get_direction : Z -> Ext (Point C);
  writeSDPAFormatFile : lmi C -> list NT -> Ext unit;
  HMC_boltzmann_reflections :
    spectaedro C -> slot NT -> Point C -> slot NT -> hmc_refs -> Ext hmc_refs;
  hit_and_run_Boltzmann_spec :
    Point C -> spectaedro C -> vars -> Point C -> slot NT -> Ext (Point C * vars);
  cout : string -> Ext unit;
  N2 : Nullable N;
  Ratios : RatiosT C;
  wrap : RatiosT C -> NumericMatrix C
}.

(** ** The monad of the driver

    State: the outside world and the record of what has been called so
    far.  A thrown exception keeps the state reached. *)

Inductive Event : Type :=
| Ev_preprocess (args : preprocess_refs) (res : exception + preprocess_refs)
| Ev_HMC (call : hmc_call)
| Ev_hit_and_run.

Record MState : Type := {
  world : World C;
  trace : list Event
}.

Definition Run (A : Type) : Type := MState -> (exception + A) * MState.

Definition ret {A} (a : A) : Run A := fun s => (inr a, s).

Definition bind {A B} (c : Run A) (k : A -> Run B) : Run B :=
  fun s => match c s with
           | (inl e, s') => (inl e, s')
           | (inr a, s') => k a s'
           end.

Definition throw {A} (e : exception) : Run A := fun s => (inl e, s).

Definition lift {A} (f : Ext A) : Run A :=
  fun s => let (r, w) := f (world s) in
           (r, {| world := w; trace := trace s |}).

(** A call that is recorded together with its outcome. *)
Definition logged {A} (f : Ext A) (ev : exception + A -> Event) : Run A :=
  fun s => let (r, w) := f (world s) in
           (r, {| world := w; trace := trace s ++ [ev r] |}).

End Driver.

Declare Scope drv_scope.
Delimit Scope drv_scope with drv.
Notation "x <- c ;; k" := (bind c (fun x => k))
  (at level 61, c at next level, right associativity) : drv_scope.
Notation "c ;;; k" := (bind c (fun _ => k))
  (at level 61, right associativity) : drv_scope.

Section OptiExp.

Context (C : Carriers) {SNT : Scalar (NT C)} (E : Extern C).

Local Abbreviation NT := (NT C).

Local Open Scope drv_scope.

(** [Rcpp::as<T>(x)] throws when [x] is NULL.  A [Nullable<T>] that is
    not NULL is taken to hold one number of type [T]: [Rcpp::as] also throws
    on an R value that is not a single number, and such arguments are
    outside this model. *)
Definition Rcpp_as {A} (x : Nullable A) : Run C A :=
  match x with
  | None => throw Rcpp_null
  | Some a => ret a
  end.

(** [for (int i = 0; i < count; ++i) body] over the objects [s] the body
    updates.  The counters are [int]s compared against [unsigned] bounds;
    bounds above [INT_MAX] would overflow the counter and are outside this
    model. *)
Fixpoint for_loop {S} (count : nat) (body : S -> Run C S) (s : S) : Run C S :=
  match count with
  | O => ret s
  | Datatypes.S k => s' <- body s ;; for_loop k body s'
  end.

(** The objects the sampling loops (lines 90-102) update. *)
Record loop_state : Type := {
  ls_p : Point C;
  ls_var : vars C;
  ls_settings2 : BoundaryOracleBoltzmannHMCSettings C;
  randPoints : list (Point C)
}.

(** Line 94: one walker call on the current [p], [var] and [settings2]. *)
Definition walk_once (SP : spectaedro C) (diam_spec : slot NT) (c : Point C)
    (T : slot NT) (s : loop_state) : Run C loop_state :=
  let args := {| hmc_p := ls_p s; hmc_var := ls_var s;
                 hmc_settings := ls_settings2 s |} in
  r <- logged (HMC_boltzmann_reflections E SP diam_spec c T args)
         (fun res => Ev_HMC {| call_SP := SP; call_diam := diam_spec;
                               call_c := c; call_T := T;
                               call_in := args; call_out := res |}) ;;
  ret {| ls_p := hmc_p r; ls_var := hmc_var r;
         ls_settings2 := hmc_settings r; randPoints := randPoints s |}.

(** Lines 92-97: [walk_length] walker calls, then [randPoints.push_back(p)].
    Both loop conditions convert their bound with [Rcpp::as] each time they
    are tested; [walk_length] was already converted on line 46. *)
Definition sample_one (SP : spectaedro C) (diam_spec : slot NT) (c : Point C)
    (T : slot NT) (walk_length : Nullable N) (s : loop_state) : Run C loop_state :=
  wl <- Rcpp_as walk_length ;;
  s' <- for_loop (N.to_nat wl) (walk_once SP diam_spec c T) s ;;
  ret {| ls_p := ls_p s'; ls_var := ls_var s';
         ls_settings2 := ls_settings2 s';
         randPoints := randPoints s' ++ [ls_p s'] |}.

(** Lines 90-102: one round of the outer loop. *)
Definition round_k (SP : spectaedro C) (diam_spec : slot NT) (c : Point C)
    (T : slot NT) (walk_length : Nullable N) (s : loop_state) : Run C loop_state :=
  n2 <- Rcpp_as (N2 E) ;;
  s' <- for_loop (N.to_nat n2) (sample_one SP diam_spec c T walk_length) s ;;
  lift (cout E "HMC points sampled..") ;;;
  ret s'.

(** Line 67: the configuration as constructed, from [InnerB.second] and
    [diam_spec]. *)
Definition make_var (nn : Z) (InnerB_second diam_spec : slot NT)
    (rng0 : RNGType C) (round0 : bool) : vars C :=
  {| m := to_unsigned 0; n := to_unsigned nn;
     walk_steps := 1; n_threads := 1;
     err := dec 0 0; error := dec 1 1; lw := 0; up := dec 0 0; L := 0;
     che_rad := InnerB_second; diameter := diam_spec;
     rng := rng0;
     urdist := {| dist_min := dec 0 0; dist_max := dec 1 0 |};
     urdist1 := {| dist_min := dec (-1) 0; dist_max := dec 1 0 |};
     delta := dec (-1) 0;
     verbose := true; rand_only := false; round := round0;
     NN := false; birk := false; ball_walk := false; cdhr_walk := false;
     rdhr_walk := false; bill_walk := true |}.

(** What the function has in hand when it reaches [return]. *)
Record at_return : Type := {
  ret_randPoints : list (Point C);
  ret_T : slot NT;
  ret_var_after_preprocess : vars C;
  ret_value : NumericMatrix C
}.

Definition opti_exp_body (nn mm : Nullable Z)
    (N M walk_length walk_type : Nullable BinNums.N) : Run C at_return :=
  (* 45 *) nn0 <- Rcpp_as nn ;;
           let n := to_unsigned nn0 in
  (* 46 *) W <- Rcpp_as walk_length ;;
  (* 49 *) nn1 <- Rcpp_as nn ;;
           mm1 <- Rcpp_as mm ;;
           SP <- lift (generateSDP2 E nn1 mm1) ;;
  (* 53 *) seed <- lift (time_since_epoch E) ;;
  (* 56 *) let rng := mt19937 E (to_unsigned seed) in
  (* 61 *) let round := false in
  (* 62 *) let InnerB := (Point_default E, Val (dec 0 0)) in
  (* 63 *) nn2 <- Rcpp_as nn ;;
           let p := Point_dim E (to_unsigned nn2) in
  (* 64 *) let diam_spec : slot NT := Indet in
           let rad : slot NT := Indet in
           let round_value : slot NT := Val (dec 1 0) in
  (* 65 *) let InnerB := (p, snd InnerB) in
  (* 67 *) nn3 <- Rcpp_as nn ;;
           let var := make_var nn3 (snd InnerB) diam_spec rng round in
  (* 71 *) let settings := BilliardSettings_dim E (getMatricesDim E (getLMI E SP)) in
  (* 72 *) let settings := {| LMIatP := getA0 E (getLMI E SP);
                              billiard_aux := billiard_aux settings |} in
  (* 73 *) let args := {| pre_SP := SP; pre_p := p; pre_var := var;
                          pre_settings := settings;
                          pre_round_value := round_value;
                          pre_diam_spec := diam_spec; pre_rad := rad;
                          pre_round := round |} in
           pre <- logged (preproccess_spectrahedron E args) (Ev_preprocess args) ;;
           let SP := pre_SP pre in
           let var := pre_var pre in
           let diam_spec := pre_diam_spec pre in
  (* 74 *) let settings := {| LMIatP := getA0 E (getLMI E SP);
                              billiard_aux := billiard_aux (pre_settings pre) |} in
  (* 75 *) let p := Point_dim E n in
  (* 77 *) let settings2 := HMCSettings_default E in
  (* 78 *) let settings2 := {| first := true; epsilon := epsilon settings2;
                               hmc_aux := hmc_aux settings2 |} in
  (* 79 *) let settings2 := {| first := first settings2; epsilon := dec 1 4;
                               hmc_aux := hmc_aux settings2 |} in
  (* 81 *) c <- lift (get_direction E n) ;;
  (* 86 *) lift (writeSDPAFormatFile E (getLMI E SP) (get_coefficients E c)) ;;;
  (* 88 *) let T := slot_mul (Val (dec 2 0)) (diameter var) in
  (* 89 *) lift (cout E "Starting sampling..") ;;;
  (* 90 *) s <- for_loop 5 (round_k SP diam_spec c T walk_length)
                  {| ls_p := p; ls_var := var; ls_settings2 := settings2;
                     randPoints := [] |} ;;
  (* 105 *) logged (hit_and_run_Boltzmann_spec E (ls_p s) SP (ls_var s) c T)
                   (fun _ => Ev_hit_and_run C) ;;;
  (* 107 *) ret {| ret_randPoints := randPoints s; ret_T := T;
                   ret_var_after_preprocess := var;
                   ret_value := wrap E (Ratios E) |}.

(** The exported function: what R receives, or the exception. *)
Definition opti_exp (nn mm : Nullable Z)
    (N M walk_length walk_type : Nullable BinNums.N) (w : World C)
  : (exception + NumericMatrix C) * MState C :=
  match opti_exp_body nn mm N M walk_length walk_type
          {| world := w; trace := [] |} with
  | (inl e, s) => (inl e, s)
  | (inr r, s) => (inr (ret_value r), s)
  end.

(** The walker calls recorded in a trace, oldest first. *)
Definition hmc_calls (tr : list (Event C)) : list (hmc_call C) :=
  flat_map (fun ev => match ev with Ev_HMC c => [c] | _ => [] end) tr.

End OptiExp.

(** ** Reading a trace *)

Section Chains.

Context (C : Carriers).

(** The calls [cs] were made one after the other on the same three
    objects: the first found them as [r]; each later one found them as the
    previous one left them.  The last may have thrown ([inl e]); otherwise
    the objects end as [inr r']. *)
Inductive chain : hmc_refs C -> list (hmc_call C) -> exception + hmc_refs C -> Prop :=
| chain_nil r : chain r [] (inr r)
| chain_ok r c r' rest o :
    call_in c = r -> call_out c = inr r' -> chain r' rest o ->
    chain r (c :: rest) o
| chain_fail r c e :
    call_in c = r -> call_out c = inl e -> chain r [c] (inl e).

(** Every call got the same spectrahedron, diameter, direction and time. *)
Definition uniform (SP : spectaedro C) (diam : slot (NT C)) (c : Point C)
    (T : slot (NT C)) (k : hmc_call C) : Prop :=
  call_SP k = SP /\ call_diam k = diam /\ call_c k = c /\ call_T k = T.

Definition refs_of (s : loop_state C) : hmc_refs C :=
  {| hmc_p := ls_p s; hmc_var := ls_var s; hmc_settings := ls_settings2 s |}.

(** What a piece of the sampling loops does to the trace: it appends
    walker calls only, chained from the objects it started with, all with
    the same fixed arguments; if a call throws, the piece throws the same
    exception. *)
Definition loop_spec (SP : spectaedro C) (diam : slot (NT C)) (cdir : Point C)
    (T : slot (NT C)) (body : loop_state C -> Run C (loop_state C)) : Prop :=
  forall s st,
  exists cs o,
    trace (snd (body s st)) = trace st ++ map (@Ev_HMC C) cs /\
    chain (refs_of s) cs o /\
    Forall (uniform SP diam cdir T) cs /\
    (forall e, o = inl e -> fst (body s st) = inl e) /\
    (forall s', fst (body s st) = inr s' -> o = inr (refs_of s')).

End Chains.

Section Shapes.

Context (C : Carriers) {SNT : Scalar (NT C)} (E : Extern C).

(** Lines 62-67: what [var] and the scalar arguments of preprocessing hold
    when preprocessing is entered.  [InnerB] is a default-constructed pair
    (its scalar member value-initialised); the inner-ball computation that
    would have stored into it is commented out on line 65. *)
Definition built_unassigned (args : preprocess_refs C) : Prop :=
  diameter (pre_var args) = Indet /\
  pre_diam_spec args = Indet /\
  pre_rad args = Indet /\
  che_rad (pre_var args) = Val (dec 0 0).

(** Lines 77-79. *)
Definition settings2_initial : BoundaryOracleBoltzmannHMCSettings C :=
  {| first := true; epsilon := dec 1 4;
     hmc_aux := hmc_aux (HMCSettings_default E) |}.

(** Line 88 on the configuration preprocessing left. *)
Definition T_of (pre : preprocess_refs C) : slot (NT C) :=
  slot_mul (Val (dec 2 0)) (diameter (pre_var pre)).

(** The three ways a call of [opti_exp] can go. *)
Inductive run_shape (nn : Nullable Z) (res : exception + at_return C)
    (st : MState C) : Prop :=
| shape_early e :
    res = inl e -> trace st = [] -> run_shape nn res st
| shape_preprocess_threw args e :
    res = inl e -> trace st = [Ev_preprocess args (inl e)] ->
    built_unassigned args ->
    (exists w0, fst (preproccess_spectrahedron E args w0) = inl e) ->
    run_shape nn res st
| shape_sampling args pre nn0 cdir cs o tail :
    trace st = Ev_preprocess args (inr pre) :: map (@Ev_HMC C) cs ++ tail ->
    built_unassigned args ->
    nn = Some nn0 ->
    chain {| hmc_p := Point_dim E (to_unsigned nn0); hmc_var := pre_var pre;
             hmc_settings := settings2_initial |} cs o ->
    Forall (uniform (pre_SP pre) (pre_diam_spec pre) cdir (T_of pre)) cs ->
    (forall e, o = inl e -> res = inl e) ->
    (forall r, res = inr r ->
       ret_value r = wrap E (Ratios E) /\ ret_T r = T_of pre /\
       ret_var_after_preprocess r = pre_var pre) ->
    tail = [] \/ tail = [Ev_hit_and_run C] ->
    (exists w0, fst (preproccess_spectrahedron E args w0) = inr pre) ->
    run_shape nn res st.

End Shapes.

(** ** Reading the samples off a trace *)

Section Replay.

Context (C : Carriers).

Definition succeeded (c : hmc_call C) : Prop := exists r, call_out c = inr r.

(** The points the walker calls [cs] left in [p], oldest first; a call
    that threw left none. *)
Definition points_left (cs : list (hmc_call C)) : list (Point C) :=
  flat_map (fun c => match call_out c with
                     | inr r => [hmc_p r]
                     | inl _ => []
                     end) cs.

(** Lines 92-97 on the points the walker leaves: [groups] times, the
    next [wl] walker calls run and the point the last of them left -- the
    point held before, if [wl] is 0 -- is pushed. *)
Fixpoint sample_points (groups wl : nat) (p : Point C) (pts : list (Point C))
  : list (Point C) :=
  match groups with
  | O => []
  | S g => let p' := last (firstn wl pts) p in
           p' :: sample_points g wl p' (skipn wl pts)
  end.

(** A piece of the loops that, when it does not throw, makes [k] walker
    calls, none of which threw, leaves in [p] what the last of them left,
    and pushes nothing. *)
Definition walks_spec (k : nat) (body : loop_state C -> Run C (loop_state C)) : Prop :=
  forall s st s' st', body s st = (inr s', st') ->
  exists cs,
    trace st' = trace st ++ map (@Ev_HMC C) cs /\
    length cs = k /\ Forall succeeded cs /\
    ls_p s' = last (points_left cs) (ls_p s) /\
    randPoints s' = randPoints s.

(** A piece of the loops that, when it does not throw, takes [g] samples
    of [wl] walker calls each. *)
Definition samples_spec (wl g : nat) (body : loop_state C -> Run C (loop_state C))
  : Prop :=
  forall s st s' st', body s st = (inr s', st') ->
  exists cs,
    trace st' = trace st ++ map (@Ev_HMC C) cs /\
    length cs = (g * wl)%nat /\ Forall succeeded cs /\
    ls_p s' = last (points_left cs) (ls_p s) /\
    randPoints s' = randPoints s ++ sample_points g wl (ls_p s) (points_left cs).

End Replay.

Arguments sample_points {C} groups wl p pts.

Section Outcomes.

Context (C : Carriers) {SNT : Scalar (NT C)} (E : Extern C).

(** Lines 61-73: the arguments [preproccess_spectrahedron] is called on,
    for the spectrahedron [SP] of line 49 and the generator of line 56. *)
Definition entry_args (nn0 : Z) (SP : spectaedro C) (rng0 : RNGType C)
  : preprocess_refs C :=
  {| pre_SP := SP;
     pre_p := Point_dim E (to_unsigned nn0);
     pre_var := @make_var C _ nn0 (Val (dec 0 0)) Indet rng0 false;
     pre_settings :=
       {| LMIatP := getA0 E (getLMI E SP);
          billiard_aux :=
            billiard_aux (BilliardSettings_dim E (getMatricesDim E (getLMI E SP))) |};
     pre_round_value := Val (dec 1 0);
     pre_diam_spec := Indet;
     pre_rad := Indet;
     pre_round := false |}.

(** Lines 75-79: the objects the sampling loops start from. *)
Definition loop_start (nn0 : Z) (pre : preprocess_refs C) : loop_state C :=
  {| ls_p := Point_dim E (to_unsigned nn0);
     ls_var := pre_var pre;
     ls_settings2 := settings2_initial E;
     randPoints := [] |}.

(** Lines 90-102. *)
Definition sampling (nn0 : Z) (pre : preprocess_refs C) (cdir : Point C)
    (wl : N) : Run C (loop_state C) :=
  for_loop 5 (round_k E (pre_SP pre) (pre_diam_spec pre) cdir (T_of pre) (Some wl))
    (loop_start nn0 pre).

(** How far a call of [opti_exp] got. *)
Inductive run_outcome (nn : Nullable Z) (walk_length : Nullable N)
    (res : exception + at_return C) (st : MState C) : Prop :=
| outcome_early e :
    res = inl e -> trace st = [] -> run_outcome nn walk_length res st
| outcome_preprocess_threw nn0 SP rng0 e :
    nn = Some nn0 -> res = inl e ->
    trace st = [Ev_preprocess (entry_args nn0 SP rng0) (inl e)] ->
    run_outcome nn walk_length res st
| outcome_before_sampling nn0 SP rng0 pre e :
    nn = Some nn0 -> res = inl e ->
    trace st = [Ev_preprocess (entry_args nn0 SP rng0) (inr pre)] ->
    run_outcome nn walk_length res st
| outcome_sampling_threw nn0 wl SP rng0 pre cdir st0 e :
    nn = Some nn0 -> walk_length = Some wl ->
    trace st0 = [Ev_preprocess (entry_args nn0 SP rng0) (inr pre)] ->
    sampling nn0 pre cdir wl st0 = (inl e, st) ->
    res = inl e ->
    run_outcome nn walk_length res st
| outcome_sampled nn0 wl SP rng0 pre cdir st0 s1 st1 :
    nn = Some nn0 -> walk_length = Some wl ->
    trace st0 = [Ev_preprocess (entry_args nn0 SP rng0) (inr pre)] ->
    sampling nn0 pre cdir wl st0 = (inr s1, st1) ->
    trace st = trace st1 ++ [Ev_hit_and_run C] ->
    (forall r, res = inr r ->
       r = {| ret_randPoints := randPoints s1; ret_T := T_of pre;
              ret_var_after_preprocess := pre_var pre;
              ret_value := wrap E (Ratios E) |}) ->
    run_outcome nn walk_length res st.

End Outcomes.

(** ** A small instance to run the driver on

    Rational scalars, points as coordinate lists, a counter as the outside
    world.  Its walker moves the point by one in every coordinate, clears
    the first-step flag and counts its calls in the settings object; its
    preprocessing reports diameter 3.  [Ratios] is an empty matrix.  The
    collaborators are stand-ins that make the driver's calls visible; the
    sampling core itself is modelled further down. *)

Module Fixture.

Definition carriers : Carriers :=
  {| NT := Q; World := nat; spectaedro := unit; lmi := unit; MT := unit;
     Point := list Q; RNGType := Z; RatiosT := list (list Q);
     NumericMatrix := list (list Q); BilliardAux := unit; HMCAux := nat |}.

Definition preprocess (a : preprocess_refs carriers) : Ext carriers (preprocess_refs carriers) :=
  fun w =>
    let v := pre_var a in
    let v' := {| m := m v; n := n v; walk_steps := walk_steps v;
                 n_threads := n_threads v; err := err v; error := error v;
                 lw := lw v; up := up v; L := L v; che_rad := Val (1 # 1);
                 diameter := Val (3 # 1); rng := rng v; urdist := urdist v;
                 urdist1 := urdist1 v; delta := delta v; verbose := verbose v;
                 rand_only := rand_only v; round := round v; NN := NN v;
                 birk := birk v; ball_walk := ball_walk v;
                 cdhr_walk := cdhr_walk v; rdhr_walk := rdhr_walk v;
                 bill_walk := bill_walk v |} in
    (inr {| pre_SP := pre_SP a; pre_p := pre_p a; pre_var := v';
            pre_settings := pre_settings a;
            pre_round_value := pre_round_value a;
            pre_diam_spec := Val (3 # 1); pre_rad := Val (1 # 1);
            pre_round := pre_round a |}, S w).

Definition walker (SP : unit) (diam : slot Q) (c : list Q) (T : slot Q)
    (r : hmc_refs carriers) : Ext carriers (hmc_refs carriers) :=
  fun w =>
    let p' : Point carriers := map (fun x => Qred (x + 1)) (hmc_p r) in
    let s' : BoundaryOracleBoltzmannHMCSettings carriers :=
      {| first := false; epsilon := epsilon (hmc_settings r);
         hmc_aux := S (hmc_aux (hmc_settings r)) |} in
    (inr {| hmc_p := p'; hmc_var := hmc_var r; hmc_settings := s' |}, S w).

Definition extern (n2 : Nullable N) : Extern carriers :=
  @Build_Extern carriers
    (* generateSDP2 *) (fun _ _ w => (inr tt, w))
    (* time_since_epoch *) (fun w => (inr 7%Z, S w))
    (* mt19937 *) (fun z => z)
    (* Point_default *) []
    (* Point_dim *) (fun d => repeat (0 # 1) (Z.to_nat d))
    (* get_coefficients *) (fun p => p)
    (* getLMI *) (fun _ => tt)
    (* getMatricesDim *) (fun _ => 1%Z)
    (* getA0 *) (fun _ => tt)
    (* BilliardSettings_dim *)
    (fun _ => @Build_BoundaryOracleBilliardSettings carriers tt tt)
    (* HMCSettings_default *)
    (@Build_BoundaryOracleBoltzmannHMCSettings carriers false (0 # 1) O)
    (* preproccess_spectrahedron *) preprocess
    (* get_direction *) (fun d w => (inr (repeat (1 # 1) (Z.to_nat d)), S w))
    (* writeSDPAFormatFile *) (fun _ _ w => (inr tt, w))
    (* HMC_boltzmann_reflections *) walker
    (* hit_and_run_Boltzmann_spec *) (fun p _ v _ _ w => (inr (p, v), w))
    (* cout *) (fun _ w => (inr tt, w))
    (* N2 *) n2
    (* Ratios *) []
    (* wrap *) (fun r => r).

(** [opti_exp(1, 1, N, M, 2, NULL)] with [N2 = 1]: the body, and the
    exported function. *)
Abbreviation run N M :=
  (opti_exp_body (extern (Some 1%N)) (Some 1%Z) (Some 1%Z) N M (Some 2%N) None
     (@Build_MState carriers O [])).

Abbreviation session N M :=
  (opti_exp (extern (Some 1%N)) (Some 1%Z) (Some 1%Z) N M (Some 2%N) None O).

End Fixture.

(** The same instance with a walker that gives up: its call number
    [limit] (counted from 0 in the settings object) throws. *)
Module Faulty.

Definition walker (limit : nat) (SP : unit) (diam : slot Q) (c : list Q)
    (T : slot Q) (r : hmc_refs Fixture.carriers)
  : Ext Fixture.carriers (hmc_refs Fixture.carriers) :=
  fun w =>
    if Nat.eqb (hmc_aux (hmc_settings r)) limit
    then (inl DimensionMismatch, w)
    else Fixture.walker SP diam c T r w.

Definition extern (limit : nat) : Extern Fixture.carriers :=
  let E0 := Fixture.extern (Some 1%N) in
  {| generateSDP2 := generateSDP2 E0;
     time_since_epoch := time_since_epoch E0;
     mt19937 := mt19937 E0;
     Point_default := Point_default E0;
     Point_dim := Point_dim E0;
     get_coefficients := get_coefficients E0;
     getLMI := getLMI E0;
     getMatricesDim := getMatricesDim E0;
     getA0 := getA0 E0;
     BilliardSettings_dim := BilliardSettings_dim E0;
     HMCSettings_default := HMCSettings_default E0;
     preproccess_spectrahedron := preproccess_spectrahedron E0;
     get_direction := get_direction E0;
     writeSDPAFormatFile := writeSDPAFormatFile E0;
     HMC_boltzmann_reflections := walker limit;
     hit_and_run_Boltzmann_spec := hit_and_run_Boltzmann_spec E0;
     cout := cout E0;
     N2 := N2 E0;
     Ratios := Ratios E0;
     wrap := wrap E0 |}.

End Faulty.

(* ================================================================== *)
(** * The sampling core

    Modelled from the spec: the LMI evaluator, the boundary oracle, the
    preprocessor and the two walkers.  Their sources ([spectrahedron.h],
    [samplers.h], [rounding.h]) are not among the translated files; what
    follows is sections 3 and 4 of the specification, over the real
    numbers the specification speaks of (a Point is "a coordinate vector
    in R^n").  The numerical routines the specification delegates to -- the
    generalized and polynomial eigenvalue solvers, the feasibility search,
    the eigenvector that gives the boundary normal -- are parameters. *)

Section CoreModel.

Local Open Scope R_scope.

(** ** Matrices and quadratic forms

    An m x m matrix is its table of entries; only the entries with both
    indices below m are used. *)

(** finite sums *)
Fixpoint big_sum (f : nat -> R) (k : nat) : R :=
  match k with
  | O => 0
  | S k' => big_sum f k' + f k'
  end.

Definition matrix : Type := nat -> nat -> R.

Definition vector : Type := nat -> R.

Definition mat_vec (m : nat) (M : matrix) (x : vector) : vector :=
  fun i => big_sum (fun j => M i j * x j) m.

Definition dot (m : nat) (x y : vector) : R := big_sum (fun i => x i * y i) m.

Definition quad_form (m : nat) (M : matrix) (x : vector) : R :=
  dot m x (mat_vec m M x).

Definition norm2 (m : nat) (x : vector) : R := dot m x x.

Definition mat_add (A B : matrix) : matrix := fun i j => A i j + B i j.

Definition mat_scale (s : R) (A : matrix) : matrix := fun i j => s * A i j.

Definition mat_zero : matrix := fun _ _ => 0.

Definition symmetric (m : nat) (M : matrix) : Prop :=
  forall i j, (i < m)%nat -> (j < m)%nat -> M i j = M j i.

Definition nonzero_vec (m : nat) (x : vector) : Prop :=
  exists i, (i < m)%nat /\ x i <> 0.

Definition pos_def (m : nat) (M : matrix) : Prop :=
  forall x, nonzero_vec m x -> 0 < quad_form m M x.

Definition psd_within (tol : R) (m : nat) (M : matrix) : Prop :=
  forall x, - tol * norm2 m x <= quad_form m M x.

Definition singular (m : nat) (M : matrix) : Prop :=
  exists x, nonzero_vec m x /\ forall i, (i < m)%nat -> mat_vec m M x i = 0.


Definition vec_add (x y : vector) : vector := fun i => x i + y i.

Definition vec_scale (c : R) (x : vector) : vector := fun i => c * x i.

(** the Schur complement of the last diagonal entry *)
Definition schur (k : nat) (M : matrix) : matrix :=
  fun i j => M i j - M k i * M k j / M k k.

(** the matrix along a parabola: A + r B + r^2 C *)
Definition curve (A B C : matrix) (r : R) : matrix :=
  mat_add A (mat_add (mat_scale r B) (mat_scale (r * r) C)).

(** ** 4.1 LMI evaluator *)

Definition point : Type := list R.

(** Modelled from the spec: the LMI of section 3, "an ordered sequence of
    n+1 symmetric m x m matrices (A0 and A1..An)"; the class is declared in
    [spectrahedron.h]. *)
Record LMI : Type := {
  mat_dim : nat;
  A0 : matrix;
  coeffs : list matrix
}.

Definition ambient_dim (l : LMI) : nat := length (coeffs l).

Definition well_formed (l : LMI) : Prop :=
  symmetric (mat_dim l) (A0 l) /\ Forall (symmetric (mat_dim l)) (coeffs l).

Fixpoint lin_comb (xs : list R) (Ms : list matrix) : matrix :=
  match xs, Ms with
  | x :: xs', M :: Ms' => mat_add (mat_scale x M) (lin_comb xs' Ms')
  | _, _ => mat_zero
  end.

(** Modelled from the spec: [evaluate(x)] of section 4.1, the matrix
    A0 + sum xi Ai; it "fails with DimensionMismatch if x or d length is not
    n". *)
Definition evaluate (l : LMI) (x : point) : exception + matrix :=
  if Nat.eqb (length x) (ambient_dim l)
  then inr (mat_add (A0 l) (lin_comb x (coeffs l)))
  else inl DimensionMismatch.

(** Modelled from the spec: [derivative(d)] of section 4.1, the matrix
    sum di Ai. *)
Definition derivative (l : LMI) (d : point) : exception + matrix :=
  if Nat.eqb (length d) (ambient_dim l)
  then inr (lin_comb d (coeffs l))
  else inl DimensionMismatch.

Definition move (p : point) (s : R) (d : point) : point :=
  map (fun pd => fst pd + s * snd pd) (combine p d).

(** ** 4.2 Boundary oracle *)

(** Modelled from the spec: what the oracle returns, a scalar or the
    sentinel "unbounded" (t = +infinity). *)
Inductive exit : Type :=
| Finite (t : R)
| Unbounded.

(** The smallest positive member of a list of roots, the sentinel when
    none is positive. *)
Definition smallest_positive (l : list R) : exit :=
  fold_right (fun lam acc =>
                if Rlt_dec 0 lam
                then match acc with
                     | Finite t => Finite (Rmin lam t)
                     | Unbounded => Finite lam
                     end
                else acc)
             Unbounded l.

Definition gen_eigenvalue (m : nat) (A B : matrix) (lam : R) : Prop :=
  exists v, nonzero_vec m v /\
            forall i, (i < m)%nat -> mat_vec m A v i = lam * mat_vec m B v i.

Section Oracle.

(** The generalized eigenvalue routine: the eigenvalues of a pencil. *)
Variable geneig : nat -> matrix -> matrix -> list R.

(** Modelled from the spec: [firstExit(p, d)] of section 4.2, "the smallest
    positive generalized eigenvalue of the pencil (A(p), -derivative(d))",
    the sentinel "if no positive root exists".  The oracle is a member of
    the spectrahedron class of [spectrahedron.h]. *)
Definition firstExit (l : LMI) (p d : point) : exception + exit :=
  match evaluate l p with
  | inl e => inl e
  | inr Ap =>
      match derivative l d with
      | inl e => inl e
      | inr D =>
          inr (smallest_positive (geneig (mat_dim l) Ap (mat_scale (-1) D)))
      end
  end.

Definition strictly_feasible (l : LMI) (p : point) : Prop :=
  exists Ap, evaluate l p = inr Ap /\ pos_def (mat_dim l) Ap.

Definition solver_exact (l : LMI) (p d : point) : Prop :=
  forall Ap D, evaluate l p = inr Ap -> derivative l d = inr D ->
  forall lam, In lam (geneig (mat_dim l) Ap (mat_scale (-1) D)) <->
              gen_eigenvalue (mat_dim l) Ap (mat_scale (-1) D) lam.


End Oracle.

Definition feasible_within (tol : R) (l : LMI) (p : point) : Prop :=
  exists Ap, evaluate l p = inr Ap /\ psd_within tol (mat_dim l) Ap.

Definition enters (l : LMI) (p d : point) : Prop :=
  exists dl, 0 < dl /\ forall s, 0 < s < dl -> strictly_feasible l (move p s d).

(** The direction along coordinate axis [i] of R^n, scaled by [c]. *)
Fixpoint axis (n i : nat) (c : R) : point :=
  match n, i with
  | O, _ => []
  | S n', O => c :: repeat 0 n'
  | S n', S i' => 0 :: axis n' i' c
  end.

(** ** 4.3 Preprocessor *)


Section Preprocessor.

Variable geneig : nat -> matrix -> matrix -> list R.
(** (1) the feasibility search, (2) the directions probed for the inner
    radius, (4) the diameter estimate; (3), rounding, is optional and not
    applied. *)
Variable feasibility_search : LMI -> option point.
Variable probe_directions : LMI -> list point.
Variable diameter_bound : LMI -> point -> R -> R.






End Preprocessor.

(** ** 4.4 and 4.5 The walkers *)

Definition pt_dot (x y : point) : R :=
  fold_right Rplus 0 (map (fun xy => fst xy * snd xy) (combine x y)).

(** Modelled from the spec: "the specular reflection of d about the
    boundary's supporting hyperplane", with normal [nrm]. *)
Definition specular (d nrm : point) : point :=
  move d (- 2 * (pt_dot d nrm / pt_dot nrm nrm)) nrm.

(** Modelled from the spec: the WalkState of section 3 -- current point,
    current direction (velocity, for the Boltzmann walk), remaining length or
    time, reflection count. *)
Record WalkState : Type := {
  ws_point : point;
  ws_direction : point;
  ws_remaining : R;
  ws_reflections : nat
}.

(** Modelled from the spec: the Boltzmann-HMC oracle settings of section 3,
    the "first step" flag and the epsilon. *)
Record HMCSettings : Type := {
  first_step : bool;
  eps : R
}.

(** Motion under constant acceleration [a]: the parabola
    p + t v + t^2/2 a and its velocity v + t a. *)
Definition position (p v a : point) (t : R) : point :=
  move (move p t v) (t * t / 2) a.

Definition velocity (v a : point) (t : R) : point := move v t a.

(** Modelled from the spec: the "constant force along a fixed direction c"
    of the potential <c, x> / T. *)
Definition acceleration (c : point) (T : R) : point :=
  map (fun ci => - ci / T) c.

Definition enters_curve (l : LMI) (p v a : point) : Prop :=
  exists dl, 0 < dl /\ forall s, 0 < s < dl -> strictly_feasible l (position p v a s).

Definition poly_exact
    (polyeig : HMCSettings -> nat -> matrix -> matrix -> matrix -> list R)
    (s : HMCSettings) (l : LMI) (p v a : point) : Prop :=
  forall Ap Dv Da, evaluate l p = inr Ap -> derivative l v = inr Dv ->
  derivative l a = inr Da ->
  forall t, In t (polyeig s (mat_dim l) Ap Dv (mat_scale (1 / 2) Da)) <->
            singular (mat_dim l) (curve Ap Dv (mat_scale (1 / 2) Da) t).

Section Walkers.

Variable geneig : nat -> matrix -> matrix -> list R.
(** The oracle variant for a parabola: the times at which
    A + t B + t^2 C is singular. *)
Variable polyeig : HMCSettings -> nat -> matrix -> matrix -> matrix -> list R.
Variable boundary_normal : LMI -> point -> point.
Variable max_reflections : nat.



(** ... and "re-enters Traveling with the reflected direction". *)
Definition reflected (l : LMI) (ws : WalkState) : WalkState :=
  {| ws_point := ws_point ws;
     ws_direction := specular (ws_direction ws) (boundary_normal l (ws_point ws));
     ws_remaining := ws_remaining ws;
     ws_reflections := S (ws_reflections ws) |}.



(** Modelled from the spec: the "oracle query variant that accounts for
    curvature", the smallest positive time at which
    A(p) + t derivative(v) + t^2/2 derivative(a) is singular. *)
Definition curveExit (s : HMCSettings) (l : LMI) (p v a : point)
  : exception + exit :=
  match evaluate l p with
  | inl e => inl e
  | inr Ap =>
      match derivative l v with
      | inl e => inl e
      | inr Dv =>
          match derivative l a with
          | inl e => inl e
          | inr Da =>
              inr (smallest_positive
                     (polyeig s (mat_dim l) Ap Dv (mat_scale (1 / 2) Da)))
          end
      end
  end.

Definition hmc_advance (a : point) (ws : WalkState) : WalkState :=
  {| ws_point := position (ws_point ws) (ws_direction ws) a (ws_remaining ws);
     ws_direction := velocity (ws_direction ws) a (ws_remaining ws);
     ws_remaining := 0;
     ws_reflections := ws_reflections ws |}.

Definition hmc_to_boundary (a : point) (ws : WalkState) (t : R) : WalkState :=
  {| ws_point := position (ws_point ws) (ws_direction ws) a t;
     ws_direction := velocity (ws_direction ws) a t;
     ws_remaining := ws_remaining ws - t;
     ws_reflections := ws_reflections ws |}.

(** Modelled from the spec: the state machine of section 4.5, "analogous
    to the billiard walker but the trajectory is a parabola"; the first-step
    flag is set for the first sub-interval and cleared for the later ones.
    The result lists the settings and state of each Integrating stage,
    oldest first, and gives the final state.  The source is
    [HMC_boltzmann_reflections], outside the translated file. *)
Fixpoint hmc_integrate (budget : nat) (l : LMI) (a : point) (s : HMCSettings)
    (ws : WalkState) : list (HMCSettings * WalkState) * (exception + WalkState) :=
  match curveExit s l (ws_point ws) (ws_direction ws) a with
  | inl e => ([(s, ws)], inl e)
  | inr Unbounded => ([(s, ws)], inr (hmc_advance a ws))
  | inr (Finite t) =>
      if Rle_dec (ws_remaining ws) t then ([(s, ws)], inr (hmc_advance a ws))
      else
        match budget with
        | O => ([(s, ws)], inr (hmc_to_boundary a ws t))
        | S b =>
            let (visited, res) :=
              hmc_integrate b l a {| first_step := false; eps := eps s |}
                (reflected l (hmc_to_boundary a ws t)) in
            ((s, ws) :: visited, res)
        end
  end.

(** Modelled from the spec: one Boltzmann-HMC walk invocation "for total
    time T", with settings built fresh. *)
Definition hmc_walk (epsilon : R) (l : LMI) (start v c : point) (T : R)
  : exception + point :=
  match snd (hmc_integrate max_reflections l (acceleration c T)
               {| first_step := true; eps := epsilon |}
               {| ws_point := start; ws_direction := v;
                  ws_remaining := T; ws_reflections := O |}) with
  | inl e => inl e
  | inr ws => inr (ws_point ws)
  end.

(** Modelled from the spec: the entry point
    [runBoltzmannWalk(spectrahedron, startPoint, direction, totalTime, steps)]
    of section 6: [steps] invocations chained, each with the next initial
    velocity of the random stream. *)
Fixpoint runBoltzmannWalk (epsilon : R) (l : LMI) (startPoint direction : point)
    (totalTime : R) (steps : nat) (velocities : nat -> point)
  : exception + point :=
  match steps with
  | O => inr startPoint
  | S k =>
      match hmc_walk epsilon l startPoint (velocities O) direction totalTime with
      | inl e => inl e
      | inr p => runBoltzmannWalk epsilon l p direction totalTime k
                   (fun i => velocities (S i))
      end
  end.

End Walkers.





End CoreModel.

(** ** Example bodies

    The segment -1 <= x <= 1, a triangle in the plane and two degenerate
    instances, all given by diagonal LMIs, for which the eigenvalue routine
    returns the quotients of the diagonals. *)

Section Examples.

Local Open Scope R_scope.

(** *** 2x2 diagonal instances *)
Definition diag2 (a b : R) : matrix :=
  fun i j => match i, j with
             | O, O => a
             | S O, S O => b
             | _, _ => 0
             end.

Definition diag_solver : nat -> matrix -> matrix -> list R :=
  fun _ A B => [A 0%nat 0%nat / B 0%nat 0%nat; A 1%nat 1%nat / B 1%nat 1%nat].

Definition is_diag2 (M : matrix) : Prop :=
  M 0%nat 1%nat = 0 /\ M 1%nat 0%nat = 0.

Definition unit0 : vector := fun i => match i with O => 1 | _ => 0 end.

Definition unit1 : vector := fun i => match i with S O => 1 | _ => 0 end.

(** *** the segment -1 <= x <= 1 *)
Definition segment_lmi : LMI :=
  {| mat_dim := 2; A0 := diag2 1 1; coeffs := [diag2 (-1) 1] |}.

Definition segment_at (x : R) : matrix :=
  mat_add (diag2 1 1) (lin_comb [x] [diag2 (-1) 1]).

Definition segment_along (d : R) : matrix := lin_comb [d] [diag2 (-1) 1].

(** *** a billiard walk on the segment, with one reflection *)
Definition segment_normal : LMI -> point -> point := fun _ _ => [-1].



(** *** a Boltzmann walk on the segment: x(t) = 5 t - 6 t^2 *)
Definition segment_polyeig
  : HMCSettings -> nat -> matrix -> matrix -> matrix -> list R :=
  fun _ _ _ _ _ => [1 / 3; 1 / 2; 1; - (1 / 6)].

Definition arc_settings : HMCSettings := {| first_step := true; eps := 1 / 10000 |}.

Definition arc_start : WalkState :=
  {| ws_point := [0]; ws_direction := [5];
     ws_remaining := 1 / 4; ws_reflections := 0 |}.

Definition arc_accel : point := acceleration [3] (1 / 4).

Definition arc_matrix (t : R) : matrix :=
  curve (segment_at 0) (segment_along 5)
        (mat_scale (1 / 2) (segment_along (- 3 / (1 / 4)))) t.













(** *** degenerate instances *)

(** An LMI whose coefficient matrix is the zero matrix: A(x) = I. *)
Definition flat_lmi : LMI :=
  {| mat_dim := 2; A0 := diag2 1 1; coeffs := [mat_zero] |}.

(** The eigenvalue routine on a pencil that has no eigenvalue. *)
Definition no_roots : nat -> matrix -> matrix -> list R := fun _ _ _ => [].


End Examples.

(** ** The sampling core behind the driver

    Modelled from the spec: [preproccess_spectrahedron] as the collaborator
    that runs [prepare] (section 4.3) on the spectrahedron it is handed.
    The driver's types are read as the specification's: the number type is
    the reals, a spectrahedron owns one LMI, a point is a coordinate list.
    The call does not touch the outside world.  A failure of [prepare] is
    thrown; its results are stored through the reference arguments: the
    inner point into [p], the inner radius into [rad] and the
    configuration, the diameter estimate into [diam_spec] and the
    configuration. *)

Section CoreCollaborators.

Context (C0 : Carriers).

Definition core_carriers : Carriers :=
  {| NT := R; World := World C0; spectaedro := LMI; lmi := LMI; MT := matrix;
     Point := point; RNGType := RNGType C0; RatiosT := RatiosT C0;
     NumericMatrix := NumericMatrix C0; BilliardAux := BilliardAux C0;
     HMCAux := HMCAux C0 |}.




(** The two members of the settings object the integrator works with, and
    their storing back into the object. *)
Definition read_settings (s : BoundaryOracleBoltzmannHMCSettings core_carriers)
  : HMCSettings :=
  {| first_step := first s; eps := epsilon s |}.

Definition write_settings (h : HMCSettings)
    (s : BoundaryOracleBoltzmannHMCSettings core_carriers)
  : BoundaryOracleBoltzmannHMCSettings core_carriers :=
  @Build_BoundaryOracleBoltzmannHMCSettings core_carriers
    (first_step h) (eps h) (hmc_aux s).

(** The settings of the last sub-interval of a trajectory. *)
Definition settings_left (visited : list (HMCSettings * WalkState))
    (s : HMCSettings) : HMCSettings :=
  match rev visited with
  | [] => s
  | q :: _ => fst q
  end.

(** Modelled from the spec: [HMC_boltzmann_reflections] as the collaborator
    that runs the state machine of section 4.5, [hmc_integrate], for the
    total time it is handed, from the point it is handed.  The settings are
    those of the source, "passed by mutable reference into walker functions"
    (section 9): the integrator works on the object of the caller, reading
    the first-step flag and the epsilon the caller left in it and leaving in
    it those of its last sub-interval; it is the caller who sets the flag.
    ([hmc_walk] is the invocation with settings of its own that section 9
    asks an implementation to move to.)
    The initial velocity is drawn from a generator of the outside world.  A
    failure of the oracle is thrown.  No walk is modelled for an
    indeterminate total time: the objects are left as they are. *)
Definition walk_collaborator
    (polyeig : HMCSettings -> nat -> matrix -> matrix -> matrix -> list R)
    (boundary_normal : LMI -> point -> point)
    (max_reflections : nat)
    (draw_velocity : World C0 -> point * World C0)
    (SP : LMI) (diam : slot R) (c : point) (T : slot R)
    (r : hmc_refs core_carriers)
  : Ext core_carriers (hmc_refs core_carriers) :=
  fun w =>
    match T with
    | Indet => (inr r, w)
    | Val T0 =>
        let (v, w') := draw_velocity w in
        let (visited, res) :=
          hmc_integrate polyeig boundary_normal max_reflections SP
            (acceleration c T0) (read_settings (hmc_settings r))
            {| ws_point := hmc_p r; ws_direction := v;
               ws_remaining := T0; ws_reflections := O |} in
        match res with
        | inl e => (inl e, w')
        | inr ws =>
            (inr (@Build_hmc_refs core_carriers (ws_point ws) (hmc_var r)
                    (write_settings
                       (settings_left visited (read_settings (hmc_settings r)))
                       (hmc_settings r))), w')
        end
    end.

#[global] Instance core_scalar : Scalar (NT core_carriers) := Scalar_R.

End CoreCollaborators.




(* ================================================================== *)
(** * Properties of the driver *)

Section DriverFacts.

Context (C : Carriers) {SNT : Scalar (NT C)} (E : Extern C).

Local Abbreviation NT := (NT C).

Lemma chain_app (r : hmc_refs C) cs r' cs' o :
  chain r cs (inr r') -> chain r' cs' o -> chain r (cs ++ cs') o.
Proof.
  intros H. remember (inr r') as o' eqn:Ho.
  induction H as [r0|r0 c r1 rest o1 Hin Hout Hrest IH|r0 c e Hin Hout]; intros H'.
  - injection Ho as ->. exact H'.
  - simpl. eapply chain_ok; eauto.
  - discriminate.
Qed.

Lemma chain_head (r : hmc_refs C) cs o c0 rest :
  chain r cs o -> cs = c0 :: rest -> call_in c0 = r.
Proof.
  intros H Hcs. destruct H; try discriminate; injection Hcs as -> _; assumption.
Qed.

Lemma for_loop_spec (SP : spectaedro C) diam cdir T
    (body : loop_state C -> Run C (loop_state C)) :
  loop_spec SP diam cdir T body ->
  forall count, loop_spec SP diam cdir T (for_loop count body).
Proof.
  intros Hb count. induction count as [|k IH]; intros s st.
  - exists [], (inr (refs_of s)). simpl. rewrite app_nil_r.
    repeat split; try constructor; try discriminate.
    intros s' [= <-]. reflexivity.
  - simpl. unfold bind.
    destruct (Hb s st) as (cs & o & Htr & Hch & Hu & Hfail & Hok).
    destruct (body s st) as [[e|s1] st1] eqn:Hrun; simpl in *.
    + exists cs, o. repeat split; auto; discriminate.
    + specialize (Hok s1 eq_refl). subst o.
      destruct (IH s1 st1) as (cs2 & o2 & Htr2 & Hch2 & Hu2 & Hfail2 & Hok2).
      exists (cs ++ cs2), o2. rewrite Htr2, Htr, map_app, app_assoc.
      repeat split; auto.
      * eapply chain_app; eauto.
      * apply Forall_app; split; assumption.
Qed.

Lemma walk_once_spec SP diam cdir T :
  loop_spec SP diam cdir T (walk_once E SP diam cdir T).
Proof.
  intros s st. unfold walk_once, bind, logged, ret.
  fold (refs_of s).
  destruct (HMC_boltzmann_reflections E SP diam cdir T (refs_of s) (world st))
    as [[e|r] w] eqn:Hcall; simpl.
  - eexists [_], (inl e). simpl. repeat split.
    + apply chain_fail; reflexivity.
    + repeat constructor.
    + intros e' [= <-]. reflexivity.
    + discriminate.
  - eexists [_], (inr r). simpl. repeat split.
    + eapply chain_ok; [reflexivity | reflexivity | ].
      constructor.
    + repeat constructor.
    + discriminate.
    + intros s' [= <-]. unfold refs_of; simpl. destruct r; reflexivity.
Qed.

Lemma sample_one_spec SP diam cdir T wl :
  loop_spec SP diam cdir T (sample_one E SP diam cdir T wl).
Proof.
  intros s st. unfold sample_one, bind, Rcpp_as.
  destruct wl as [w|]; simpl.
  - destruct (for_loop_spec (walk_once_spec SP diam cdir T) (N.to_nat w) s st)
      as (cs & o & Htr & Hch & Hu & Hfail & Hok).
    destruct (for_loop (N.to_nat w) (walk_once E SP diam cdir T) s st)
      as [[e|s1] st1]; simpl in *.
    + exists cs, o. repeat split; auto; discriminate.
    + exists cs, o. repeat split; auto.
      * intros e He. specialize (Hok s1 eq_refl). congruence.
      * intros s' [= <-]. apply (Hok s1 eq_refl).
  - exists [], (inr (refs_of s)). simpl. rewrite app_nil_r.
    repeat split; try constructor; discriminate.
Qed.

Lemma round_k_spec SP diam cdir T wl :
  loop_spec SP diam cdir T (round_k E SP diam cdir T wl).
Proof.
  intros s st. unfold round_k, bind, Rcpp_as.
  destruct (N2 E) as [n2|]; simpl.
  - destruct (for_loop_spec (sample_one_spec SP diam cdir T wl) (N.to_nat n2) s st)
      as (cs & o & Htr & Hch & Hu & Hfail & Hok).
    destruct (for_loop (N.to_nat n2) (sample_one E SP diam cdir T wl) s st)
      as [[e|s1] st1]; simpl in *.
    + exists cs, o. repeat split; auto; discriminate.
    + unfold lift, ret.
      pose proof (Hok s1 eq_refl) as Ho.
      destruct (cout E "HMC points sampled.." (world st1)) as [[e|[]] w];
        simpl; exists cs, o; repeat split; auto;
        try (intros e' He; congruence); try discriminate.
  - exists [], (inr (refs_of s)). simpl. rewrite app_nil_r.
    repeat split; try constructor; discriminate.
Qed.

End DriverFacts.

Section RunShape.

Context (C : Carriers) {SNT : Scalar (NT C)} (E : Extern C).

Local Abbreviation NT := (NT C).

Lemma opti_exp_body_shape nn mm N M walk_length walk_type w :
  let run := opti_exp_body E nn mm N M walk_length walk_type
               {| world := w; trace := [] |} in
  run_shape E nn (fst run) (snd run).
Proof.
  cbv zeta. unfold opti_exp_body, bind, Rcpp_as, lift, throw, ret.
  destruct nn as [nn0|]; [ | eapply shape_early; reflexivity ].
  destruct walk_length as [wl|]; [ | eapply shape_early; reflexivity ].
  destruct mm as [mm0|]; [ | eapply shape_early; reflexivity ].
  cbn [world trace].
  destruct (generateSDP2 E nn0 mm0 w) as [[e|SP] w1];
    [ eapply shape_early; reflexivity | ].
  cbn [world trace].
  destruct (time_since_epoch E w1) as [[e|seed] w2];
    [ eapply shape_early; reflexivity | ].
  cbn [world trace]. unfold logged. cbn [world trace].
  match goal with
  | |- context [preproccess_spectrahedron E ?a w2] => set (args := a)
  end.
  assert (Hbuilt : built_unassigned args) by (repeat split).
  destruct (preproccess_spectrahedron E args w2) as [[e|pre] w3] eqn:Hcall.
  { eapply shape_preprocess_threw; [reflexivity | reflexivity | exact Hbuilt | ].
    exists w2. rewrite Hcall. reflexivity. }
  assert (Hres : exists w0, fst (preproccess_spectrahedron E args w0) = inr pre)
    by (exists w2; rewrite Hcall; reflexivity).
  cbn [world trace app].
  fold settings2_initial. fold (T_of pre).
  destruct (get_direction E (to_unsigned nn0) w3) as [[e|cdir] w4].
  { eapply shape_sampling with (cs := []) (tail := []) (cdir := Point_default E);
      [ reflexivity | exact Hbuilt | reflexivity | constructor | constructor
      | discriminate | discriminate | left; reflexivity | exact Hres ]. }
  cbn [world trace].
  destruct (writeSDPAFormatFile E (getLMI E (pre_SP pre)) (get_coefficients E cdir) w4)
    as [[e|[]] w5].
  { eapply shape_sampling with (cs := []) (tail := []) (cdir := cdir);
      [ reflexivity | exact Hbuilt | reflexivity | constructor | constructor
      | discriminate | discriminate | left; reflexivity | exact Hres ]. }
  cbn [world trace].
  destruct (cout E "Starting sampling.." w5) as [[e|[]] w6].
  { eapply shape_sampling with (cs := []) (tail := []) (cdir := cdir);
      [ reflexivity | exact Hbuilt | reflexivity | constructor | constructor
      | discriminate | discriminate | left; reflexivity | exact Hres ]. }
  cbn [world trace].
  match goal with
  | |- context [for_loop 5 ?b ?s0 ?st0] =>
      destruct (for_loop_spec
                  (round_k_spec E (pre_SP pre) (pre_diam_spec pre) cdir (T_of pre) (Some wl))
                  5 s0 st0)
        as (cs & o & Htr & Hch & Hu & Hfail & Hok);
      destruct (for_loop 5 b s0 st0) as [[e|s1] st1]
  end; cbn [fst snd trace app] in *.
  { eapply shape_sampling with (cs := cs) (tail := []) (cdir := cdir) (o := o);
      [ rewrite Htr, app_nil_r; reflexivity | exact Hbuilt | reflexivity
      | exact Hch | exact Hu
      | intros e' He; specialize (Hfail e' He); congruence
      | discriminate | left; reflexivity | exact Hres ]. }
  pose proof (Hok s1 eq_refl) as Ho.
  destruct (hit_and_run_Boltzmann_spec E (ls_p s1) (pre_SP pre) (ls_var s1) cdir
              (T_of pre) (world st1)) as [[e|pv] w7]; cbn [fst snd trace].
  - eapply shape_sampling with (cs := cs) (tail := [Ev_hit_and_run C])
                               (cdir := cdir) (o := o);
      [ rewrite Htr; reflexivity | exact Hbuilt | reflexivity
      | exact Hch | exact Hu | intros e' He; congruence | discriminate
      | right; reflexivity | exact Hres ].
  - eapply shape_sampling with (cs := cs) (tail := [Ev_hit_and_run C])
                               (cdir := cdir) (o := o);
      [ rewrite Htr; reflexivity | exact Hbuilt | reflexivity
      | exact Hch | exact Hu | intros e' He; congruence
      | intros r [= <-]; repeat split | right; reflexivity | exact Hres ].
Qed.

End RunShape.

Section DriverClaims.

Context (C : Carriers) {SNT : Scalar (NT C)} (E : Extern C).

Local Abbreviation NT := (NT C).

Lemma hmc_calls_app (t1 t2 : list (Event C)) :
  hmc_calls (t1 ++ t2) = hmc_calls t1 ++ hmc_calls t2.
Proof. unfold hmc_calls. apply flat_map_app. Qed.

Lemma hmc_calls_map (cs : list (hmc_call C)) :
  hmc_calls (map (@Ev_HMC C) cs) = cs.
Proof.
  induction cs as [|c cs IH]; simpl; [reflexivity | now f_equal].
Qed.

Lemma hmc_calls_sampling args res (cs : list (hmc_call C)) tail :
  tail = [] \/ tail = [Ev_hit_and_run C] ->
  hmc_calls (Ev_preprocess args res :: map (@Ev_HMC C) cs ++ tail) = cs.
Proof.
  intros Ht. change (hmc_calls (map (@Ev_HMC C) cs ++ tail) = cs).
  rewrite hmc_calls_app, hmc_calls_map.
  destruct Ht as [-> | ->]; simpl; apply app_nil_r.
Qed.

Lemma preprocess_in_sampling args res a r (cs : list (hmc_call C)) tail :
  tail = [] \/ tail = [Ev_hit_and_run C] ->
  In (Ev_preprocess args res)
     (Ev_preprocess a r :: map (@Ev_HMC C) cs ++ tail) ->
  args = a /\ res = r.
Proof.
  intros Ht [Heq | Hin].
  - injection Heq as -> ->. split; reflexivity.
  - exfalso. apply in_app_or in Hin. destruct Hin as [Hin | Hin].
    + apply in_map_iff in Hin. destruct Hin as (k & Hk & _). discriminate.
    + destruct Ht as [-> | ->]; simpl in Hin;
        [ exact Hin | destruct Hin as [Hd | []]; discriminate ].
Qed.

Lemma chain_nth (r : hmc_refs C) cs o i k k' :
  chain r cs o ->
  nth_error cs i = Some k -> nth_error cs (S i) = Some k' ->
  exists r', call_out k = inr r' /\ call_in k' = r'.
Proof.
  intros H. revert i.
  induction H as [r0|r0 c r1 rest o1 Hin Hout Hrest IH|r0 c e Hin Hout];
    intros i Hk Hk'.
  - destruct i; discriminate.
  - destruct i as [|i]; simpl in Hk, Hk'.
    + injection Hk as <-. exists r1. split; [assumption|].
      destruct rest as [|c' rest']; [discriminate|].
      simpl in Hk'. injection Hk' as <-.
      eapply chain_head; [exact Hrest | reflexivity].
    + eapply IH; eassumption.
  - destruct i as [|[|i]]; simpl in Hk'; discriminate.
Qed.

Lemma chain_threw (r : hmc_refs C) cs o k e :
  chain r cs o -> In k cs -> call_out k = inl e -> o = inl e.
Proof.
  intros H Hin Hout.
  induction H as [r0|r0 c r1 rest o1 Hi Ho Hrest IH|r0 c e' Hi Ho].
  - destruct Hin.
  - destruct Hin as [<- | Hin]; [congruence | auto].
  - destruct Hin as [<- | []]. congruence.
Qed.

(** The exported function and its body reach the same state. *)
Lemma opti_exp_state nn mm N M walk_length walk_type w :
  snd (opti_exp E nn mm N M walk_length walk_type w) =
  snd (opti_exp_body E nn mm N M walk_length walk_type
         {| world := w; trace := [] |}).
Proof.
  unfold opti_exp.
  destruct (opti_exp_body E nn mm N M walk_length walk_type _) as [[e|r] s];
    reflexivity.
Qed.

Lemma opti_exp_result nn mm N M walk_length walk_type w :
  fst (opti_exp E nn mm N M walk_length walk_type w) =
  match fst (opti_exp_body E nn mm N M walk_length walk_type
               {| world := w; trace := [] |}) with
  | inl e => inl e
  | inr r => inr (ret_value r)
  end.
Proof.
  unfold opti_exp.
  destruct (opti_exp_body E nn mm N M walk_length walk_type _) as [[e|r] s];
    reflexivity.
Qed.


(** An exception thrown by a walker call ends the call with that
    exception. *)
Lemma walker_failure_is_fatal nn mm N M walk_length walk_type w k e :
  In k (hmc_calls (trace (snd (opti_exp E nn mm N M walk_length walk_type w)))) ->
  call_out k = inl e ->
  fst (opti_exp E nn mm N M walk_length walk_type w) = inl e.
Proof.
  rewrite opti_exp_state, opti_exp_result.
  pose proof (opti_exp_body_shape E nn mm N M walk_length walk_type w) as Hs.
  cbv zeta in Hs.
  destruct Hs as [e0 Hres Htr | a e0 Hres Htr Hb
                 | a pre nn0 cdir cs o tail Htr Hb Hnn Hch Hu Hfail Hret Htail];
    rewrite Htr; intros Hin Hout.
  - destruct Hin.
  - destruct Hin.
  - rewrite hmc_calls_sampling in Hin by exact Htail.
    rewrite (Hfail e); [ reflexivity | ].
    eapply chain_threw; eassumption.
Qed.


(** ** The first two walker calls of a session

    What a computation appends to the trace stays there, so the first
    events of the sampling loops are the first events of the whole call. *)






End DriverClaims.

(** ** The claims about the driver *)

(** C10.  The result of [opti_exp] -- the value or exception handed to
    the caller together with everything the call did to the outside world
    and every collaborator call it made -- is the same for any two values
    of [N] and any two values of [M], all other arguments and the outside
    world (which includes the random streams) being equal.  The inner loop
    bound is the identifier [N2] and the returned value is [Ratios]. *)
Theorem opti_exp_ignores_N_and_M
    (C : Carriers) (SNT : Scalar (NT C)) (E : Extern C)
    (nn mm : Nullable Z) (N N' M M' walk_length walk_type : Nullable BinNums.N)
    (w : World C) :
  opti_exp E nn mm N M walk_length walk_type w =
  opti_exp E nn mm N' M' walk_length walk_type w.
Proof. reflexivity. Qed.

(** X11.  Whenever [opti_exp] returns, it returns [Rcpp::wrap(Ratios)],
    whatever its arguments, its collaborators and the samples it took. *)
Lemma opti_exp_returns_Ratios
    (C : Carriers) (SNT : Scalar (NT C)) (E : Extern C)
    nn mm N M walk_length walk_type w r :
  fst (opti_exp E nn mm N M walk_length walk_type w) = inr r ->
  r = wrap E (Ratios E).
Proof.
  rewrite opti_exp_result.
  pose proof (opti_exp_body_shape E nn mm N M walk_length walk_type w) as Hs.
  cbv zeta in Hs.
  destruct Hs as [e0 Hres Htr | a e0 Hres Htr Hb
                 | a pre nn0 cdir cs o tail Htr Hb Hnn Hch Hu Hfail Hret Htail].
  - rewrite Hres. discriminate.
  - rewrite Hres. discriminate.
  - destruct (fst (opti_exp_body E nn mm N M walk_length walk_type _))
      as [e|r0]; [discriminate|].
    intros [= <-]. apply (Hret r0 eq_refl).
Qed.

(** C3.  On the call [opti_exp(1, 1, 1, 1, 2, NULL)] of the fixture the
    driver accumulates five samples in [randPoints], in the order the
    walker produced them, and returns the matrix [Ratios], which has no
    rows. *)
Theorem returned_matrix_is_Ratios_not_randPoints :
  exists r st,
    opti_exp_body (Fixture.extern (Some 1%N)) (Some 1%Z) (Some 1%Z)
      (Some 1%N) (Some 1%N) (Some 2%N) None
      (@Build_MState Fixture.carriers O []) = (inr r, st) /\
    ret_randPoints r = [[2 # 1]; [4 # 1]; [6 # 1]; [8 # 1]; [10 # 1]] /\
    fst (opti_exp (Fixture.extern (Some 1%N)) (Some 1%Z) (Some 1%Z)
           (Some 1%N) (Some 1%N) (Some 2%N) None O) = inr [] /\
    ret_value r <> ret_randPoints r.
Proof.
  eexists. eexists. split; [ vm_compute; reflexivity | ].
  split; [ reflexivity | ]. split; [ vm_compute; reflexivity | ].
  simpl. discriminate.
Qed.

(** C5.  In any call of [opti_exp], if preprocessing returned, every
    call of the walker is given as its time [T] the product of the literal
    2.0 and the value [d] that the [diameter] field of the configuration
    holds when preprocessing has returned -- the value 2.0 * d itself, on
    rationals 6 for the diameter 3.  If preprocessing left the field
    indeterminate, so is [T]. *)
Theorem total_time_is_twice_preprocessed_diameter
    (C : Carriers) (SNT : Scalar (NT C)) (E : Extern C)
    nn mm N M walk_length walk_type w args pre k :
  In (Ev_preprocess args (inr pre))
     (trace (snd (opti_exp E nn mm N M walk_length walk_type w))) ->
  In k (hmc_calls (trace (snd (opti_exp E nn mm N M walk_length walk_type w)))) ->
  match diameter (pre_var pre) with
  | Val d => call_T k = Val (NT_mul (dec 2 0) d)
  | Indet => call_T k = Indet
  end.
Proof.
  rewrite opti_exp_state.
  pose proof (opti_exp_body_shape E nn mm N M walk_length walk_type w) as Hs.
  cbv zeta in Hs.
  destruct Hs as [e0 Hres Htr | a e0 Hres Htr Hb
                 | a pre0 nn0 cdir cs o tail Htr Hb Hnn Hch Hu Hfail Hret Htail];
    rewrite Htr; intros Hpre Hk.
  - destruct Hpre.
  - destruct Hk.
  - apply preprocess_in_sampling in Hpre; [ | exact Htail ].
    destruct Hpre as [_ Heq]. injection Heq as <-.
    rewrite hmc_calls_sampling in Hk by exact Htail.
    rewrite Forall_forall in Hu. destruct (Hu k Hk) as (_ & _ & _ & HT).
    unfold T_of in HT. rewrite HT.
    destruct (diameter (pre_var pre)) as [|d]; reflexivity.
Qed.

Lemma total_time_is_twice_preprocessed_diameter_witness :
  exists args pre k,
    In (Ev_preprocess args (inr pre))
       (trace (snd (Fixture.session None None))) /\
    In k (hmc_calls (trace (snd (Fixture.session None None)))) /\
    diameter (pre_var pre) = Val (3 # 1) /\
    call_T k = Val (6 # 1).
Proof.
  assert (Hp : { args : preprocess_refs Fixture.carriers &
               { pre | In (Ev_preprocess args (inr pre))
                          (trace (snd (Fixture.session None None))) /\
                       diameter (pre_var pre) = Val (3 # 1) } }).
  { eexists. eexists. split; [ vm_compute; left; reflexivity | reflexivity ]. }
  assert (Hk : { k | In k (hmc_calls (trace (snd (Fixture.session None None)))) }).
  { eexists. vm_compute. left. reflexivity. }
  destruct Hp as (args & pre & Hin & Hd). destruct Hk as (k & Hk).
  exists args, pre, k.
  refine (conj Hin (conj Hk (conj Hd _))).
  pose proof (@total_time_is_twice_preprocessed_diameter Fixture.carriers _
                (Fixture.extern (Some 1%N)) (Some 1%Z) (Some 1%Z) None None
                (Some 2%N) None O args pre k Hin Hk) as HT.
  rewrite Hd in HT. exact HT.
Defined.

Lemma slot_mul_defined {A} `{Scalar A} (a b : slot A) :
  is_defined (slot_mul a b) = true -> is_defined b = true.
Proof. destruct a, b; simpl; intros; congruence. Qed.

(** C9.  The configuration handed to preprocessing was built (line 67)
    while [diam_spec] was still indeterminate and [InnerB.second] still held
    what the default constructor of the pair put there -- nothing has been
    stored into either (the inner-ball computation of line 65 is commented
    out).  Hence the time [T] of line 88, as passed to any walker call and as
    held at [return], is a defined value only if preprocessing returned with
    the [diameter] field of the configuration overwritten by a defined
    value. *)
Theorem T_defined_only_if_preprocessing_overwrites_diameter
    (C : Carriers) (SNT : Scalar (NT C)) (E : Extern C)
    nn mm N M walk_length walk_type w args res :
  let run := opti_exp_body E nn mm N M walk_length walk_type
               {| world := w; trace := [] |} in
  In (Ev_preprocess args res) (trace (snd run)) ->
  (diameter (pre_var args) = Indet /\
   pre_diam_spec args = Indet /\
   che_rad (pre_var args) = Val (dec 0 0)) /\
  (forall k, In k (hmc_calls (trace (snd run))) ->
     is_defined (call_T k) = true ->
     exists pre, res = inr pre /\
                 is_defined (diameter (pre_var pre)) = true /\
                 diameter (pre_var pre) <> diameter (pre_var args)) /\
  (forall r, fst run = inr r ->
     is_defined (ret_T r) = true ->
     exists pre, res = inr pre /\
                 is_defined (diameter (pre_var pre)) = true /\
                 diameter (pre_var pre) <> diameter (pre_var args)).
Proof.
  cbv zeta.
  pose proof (opti_exp_body_shape E nn mm N M walk_length walk_type w) as Hs.
  cbv zeta in Hs.
  destruct Hs as [e0 Hres Htr | a e0 Hres Htr Hb
                 | a pre nn0 cdir cs o tail Htr Hb Hnn Hch Hu Hfail Hret Htail];
    rewrite Htr; intros Hin.
  - destruct Hin.
  - destruct Hin as [Heq | []]. injection Heq as <- <-.
    destruct Hb as (Hd & Hds & _ & Hc).
    split; [ auto | split ].
    + intros k [].
    + intros r Hr. rewrite Hres in Hr. discriminate.
  - apply preprocess_in_sampling in Hin; [ | exact Htail ].
    destruct Hin as [-> ->].
    destruct Hb as (Hd & Hds & _ & Hc).
    assert (Hover : is_defined (T_of pre) = true ->
                    exists pre0, @inr exception _ pre = inr pre0 /\
                      is_defined (diameter (pre_var pre0)) = true /\
                      diameter (pre_var pre0) <> diameter (pre_var a)).
    { intros HT. exists pre. split; [reflexivity|].
      unfold T_of in HT. apply slot_mul_defined in HT. split; [exact HT|].
      rewrite Hd. intros Heq. rewrite Heq in HT. discriminate. }
    split; [ auto | split ].
    + intros k Hk HT. rewrite hmc_calls_sampling in Hk by exact Htail.
      rewrite Forall_forall in Hu. destruct (Hu k Hk) as (_ & _ & _ & HTk).
      rewrite HTk in HT. exact (Hover HT).
    + intros r Hr HT. destruct (Hret r Hr) as (_ & HTr & _).
      rewrite HTr in HT. exact (Hover HT).
Qed.

Lemma T_defined_only_if_preprocessing_overwrites_diameter_witness :
  exists args pre k,
    In (Ev_preprocess args (inr pre)) (trace (snd (Fixture.run None None))) /\
    In k (hmc_calls (trace (snd (Fixture.run None None)))) /\
    call_T k = Val (6 # 1) /\
    diameter (pre_var args) = Indet /\
    diameter (pre_var pre) = Val (3 # 1).
Proof.
  assert (Hp : { args : preprocess_refs Fixture.carriers &
               { pre | In (Ev_preprocess args (inr pre))
                          (trace (snd (Fixture.run None None))) /\
                       diameter (pre_var pre) = Val (3 # 1) } }).
  { eexists. eexists. split; [ vm_compute; left; reflexivity | reflexivity ]. }
  assert (Hk : { k | In k (hmc_calls (trace (snd (Fixture.run None None)))) /\
                     call_T k = Val (6 # 1) }).
  { eexists. split; [ vm_compute; left; reflexivity | reflexivity ]. }
  destruct Hp as (args & pre & Hin & Hd). destruct Hk as (k & Hk & HT).
  destruct (@T_defined_only_if_preprocessing_overwrites_diameter
              Fixture.carriers _ (Fixture.extern (Some 1%N)) (Some 1%Z) (Some 1%Z)
              None None (Some 2%N) None O args (inr pre) Hin)
    as ((Hindet & _) & _).
  exists args, pre, k.
  exact (conj Hin (conj Hk (conj HT (conj Hindet Hd)))).
Defined.

(* ================================================================== *)
(** * Properties of the sampling core *)

Section CoreFacts.

Local Open Scope R_scope.

(** ** Finite sums *)

Lemma big_sum_ext f g k :
  (forall i, (i < k)%nat -> f i = g i) -> big_sum f k = big_sum g k.
Proof.
  induction k as [|k IH]; intros H; simpl; [reflexivity|].
  rewrite IH by (intros; apply H; lia). rewrite H by lia. reflexivity.
Qed.

Lemma big_sum_plus f g k :
  big_sum (fun i => f i + g i) k = big_sum f k + big_sum g k.
Proof. induction k as [|k IH]; simpl; [lra | rewrite IH; lra]. Qed.

Lemma big_sum_scal c f k :
  big_sum (fun i => c * f i) k = c * big_sum f k.
Proof. induction k as [|k IH]; simpl; [lra | rewrite IH; lra]. Qed.

Lemma big_sum_zero k : big_sum (fun _ => 0) k = 0.
Proof. induction k as [|k IH]; simpl; [reflexivity | rewrite IH; lra]. Qed.

Lemma big_sum_le f g k :
  (forall i, (i < k)%nat -> f i <= g i) -> big_sum f k <= big_sum g k.
Proof.
  induction k as [|k IH]; intros H; simpl; [lra|].
  assert (big_sum f k <= big_sum g k) by (apply IH; intros; apply H; lia).
  assert (f k <= g k) by (apply H; lia). lra.
Qed.

Lemma big_sum_nonneg f k :
  (forall i, (i < k)%nat -> 0 <= f i) -> 0 <= big_sum f k.
Proof.
  intros H. rewrite <- (big_sum_zero k). apply big_sum_le. exact H.
Qed.

Lemma big_sum_term_le f k i :
  (forall j, (j < k)%nat -> 0 <= f j) -> (i < k)%nat -> f i <= big_sum f k.
Proof.
  induction k as [|k IH]; intros H Hi; [lia|]. simpl.
  assert (0 <= big_sum f k) by (apply big_sum_nonneg; intros; apply H; lia).
  assert (0 <= f k) by (apply H; lia).
  destruct (Nat.eq_dec i k) as [->|Hne]; [lra|].
  assert (f i <= big_sum f k) by (apply IH; [intros; apply H; lia | lia]). lra.
Qed.

Lemma big_sum_swap (f : nat -> nat -> R) k l :
  big_sum (fun i => big_sum (fun j => f i j) l) k =
  big_sum (fun j => big_sum (fun i => f i j) k) l.
Proof.
  induction k as [|k IH]; simpl.
  - symmetry. apply big_sum_zero.
  - rewrite IH. rewrite <- big_sum_plus. reflexivity.
Qed.

Lemma big_sum_zero_terms f k :
  (forall i, (i < k)%nat -> 0 <= f i) -> big_sum f k = 0 ->
  forall i, (i < k)%nat -> f i = 0.
Proof.
  intros Hpos Hz i Hi.
  assert (f i <= big_sum f k) by (apply big_sum_term_le; assumption).
  specialize (Hpos i Hi). lra.
Qed.

(** ** Vectors and quadratic forms *)

Lemma dot_comm m x y : dot m x y = dot m y x.
Proof. unfold dot. apply big_sum_ext. intros; ring. Qed.

Lemma dot_add_r m x y z : dot m x (vec_add y z) = dot m x y + dot m x z.
Proof.
  unfold dot, vec_add. rewrite <- big_sum_plus. apply big_sum_ext. intros; ring.
Qed.

Lemma dot_scale_r m c x y : dot m x (vec_scale c y) = c * dot m x y.
Proof.
  unfold dot, vec_scale. rewrite <- big_sum_scal. apply big_sum_ext. intros; ring.
Qed.

Lemma dot_add_l m x y z : dot m (vec_add x y) z = dot m x z + dot m y z.
Proof. rewrite dot_comm, dot_add_r, !(dot_comm m z). reflexivity. Qed.

Lemma dot_scale_l m c x y : dot m (vec_scale c x) y = c * dot m x y.
Proof. rewrite dot_comm, dot_scale_r, (dot_comm m y). reflexivity. Qed.

Lemma dot_ext m x y x' y' :
  (forall i, (i < m)%nat -> x i = x' i) -> (forall i, (i < m)%nat -> y i = y' i) ->
  dot m x y = dot m x' y'.
Proof.
  intros Hx Hy. unfold dot. apply big_sum_ext. intros i Hi.
  rewrite Hx, Hy by assumption. reflexivity.
Qed.

Lemma mat_vec_add m M x y i :
  mat_vec m M (vec_add x y) i = mat_vec m M x i + mat_vec m M y i.
Proof.
  unfold mat_vec, vec_add. rewrite <- big_sum_plus. apply big_sum_ext. intros; ring.
Qed.

Lemma mat_vec_scale m M c x i :
  mat_vec m M (vec_scale c x) i = c * mat_vec m M x i.
Proof.
  unfold mat_vec, vec_scale. rewrite <- big_sum_scal. apply big_sum_ext. intros; ring.
Qed.

Lemma mat_vec_pencil m A B s x i :
  mat_vec m (mat_add A (mat_scale s B)) x i = mat_vec m A x i + s * mat_vec m B x i.
Proof.
  unfold mat_vec, mat_add, mat_scale.
  rewrite <- big_sum_scal, <- big_sum_plus. apply big_sum_ext. intros; ring.
Qed.

Lemma quad_form_pencil m A B s x :
  quad_form m (mat_add A (mat_scale s B)) x = quad_form m A x + s * quad_form m B x.
Proof.
  unfold quad_form.
  transitivity (dot m x (vec_add (mat_vec m A x) (vec_scale s (mat_vec m B x)))).
  - apply dot_ext; [reflexivity | intros i _; apply mat_vec_pencil].
  - rewrite dot_add_r, dot_scale_r. reflexivity.
Qed.

Lemma dot_mat_vec_sym m M x y :
  symmetric m M -> dot m x (mat_vec m M y) = dot m y (mat_vec m M x).
Proof.
  intros Hs. unfold dot, mat_vec.
  transitivity (big_sum (fun i => big_sum (fun j => x i * M i j * y j) m) m).
  { apply big_sum_ext. intros i _. rewrite <- big_sum_scal.
    apply big_sum_ext. intros; ring. }
  rewrite big_sum_swap. apply big_sum_ext. intros j Hj.
  rewrite <- big_sum_scal. apply big_sum_ext. intros i Hi.
  rewrite (Hs i j Hi Hj). ring.
Qed.

Lemma quad_form_add m M x y c :
  symmetric m M ->
  quad_form m M (vec_add x (vec_scale c y)) =
  quad_form m M x + 2 * c * dot m y (mat_vec m M x) + c * c * quad_form m M y.
Proof.
  intros Hs. unfold quad_form.
  transitivity (dot m (vec_add x (vec_scale c y))
                  (vec_add (mat_vec m M x) (vec_scale c (mat_vec m M y)))).
  - apply dot_ext; [reflexivity | ].
    intros i _. rewrite mat_vec_add, mat_vec_scale. reflexivity.
  - rewrite dot_add_l, !dot_add_r, !dot_scale_l, !dot_scale_r.
    rewrite (dot_mat_vec_sym x y Hs). ring.
Qed.

Lemma norm2_nonneg m x : 0 <= norm2 m x.
Proof.
  unfold norm2, dot. apply big_sum_nonneg. intros i _. nra.
Qed.

Lemma norm2_zero m x : norm2 m x = 0 -> forall i, (i < m)%nat -> x i = 0.
Proof.
  intros Hz i Hi. unfold norm2, dot in Hz.
  assert (x i * x i = 0).
  { apply (@big_sum_zero_terms (fun i => x i * x i) m); auto. intros; nra. }
  nra.
Qed.

Lemma norm2_pos m x : nonzero_vec m x -> 0 < norm2 m x.
Proof.
  intros (i & Hi & Hx).
  destruct (Rle_lt_or_eq_dec 0 (norm2 m x) (norm2_nonneg m x)) as [H|H]; [exact H|].
  exfalso. apply Hx. eapply norm2_zero; [symmetry; exact H | exact Hi].
Qed.

(** a semidefinite form vanishing at x has x in the kernel *)
Lemma psd_kernel m M x :
  symmetric m M -> psd_within 0 m M -> quad_form m M x = 0 ->
  forall i, (i < m)%nat -> mat_vec m M x i = 0.
Proof.
  intros Hs Hpsd Hx.
  set (g := mat_vec m M x).
  assert (Hg : norm2 m g = 0).
  { pose proof (norm2_nonneg m g) as Hn.
    destruct (Rle_lt_or_eq_dec 0 (norm2 m g) Hn) as [Hpos|Hz]; [|symmetry; exact Hz].
    exfalso.
    assert (Hq : 0 <= quad_form m M g).
    { specialize (Hpsd g). lra. }
    set (t := norm2 m g / (quad_form m M g + 1)).
    assert (Ht : 0 < t) by (apply Rdiv_lt_0_compat; lra).
    pose proof (Hpsd (vec_add x (vec_scale (- t) g))) as H.
    rewrite (quad_form_add x g (- t) Hs) in H. rewrite Hx in H.
    fold g in H. fold (norm2 m g) in H.
    assert (Ht2 : t * (quad_form m M g + 1) = norm2 m g).
    { unfold t. field. lra. }
    assert (0 <= norm2 m (vec_add x (vec_scale (- t) g))) by apply norm2_nonneg.
    nra. }
  intros i Hi. eapply norm2_zero; [exact Hg | exact Hi].
Qed.

(** every quadratic form is bounded by a multiple of the squared norm *)
Lemma quad_form_bounded m B :
  exists beta, 0 <= beta /\
    forall x, - beta * norm2 m x <= quad_form m B x <= beta * norm2 m x.
Proof.
  exists (big_sum (fun i => big_sum (fun j => Rabs (B i j)) m) m). split.
  - apply big_sum_nonneg. intros i _. apply big_sum_nonneg. intros j _.
    apply Rabs_pos.
  - intros x. set (N := norm2 m x).
    assert (Hsq : forall i, (i < m)%nat -> x i * x i <= N).
    { intros i Hi. unfold N, norm2, dot.
      apply (@big_sum_term_le (fun i => x i * x i) m i); [intros; nra | exact Hi]. }
    assert (HN : 0 <= N) by apply norm2_nonneg.
    assert (Hterm : forall i j, (i < m)%nat -> (j < m)%nat ->
              - (Rabs (B i j) * N) <= x i * (B i j * x j) <= Rabs (B i j) * N).
    { intros i j Hi Hj. pose proof (Hsq i Hi). pose proof (Hsq j Hj).
      assert (- N <= x i * x j <= N) by nra.
      unfold Rabs. destruct (Rcase_abs (B i j)); nra. }
    assert (Heq : quad_form m B x =
                  big_sum (fun i => big_sum (fun j => x i * (B i j * x j)) m) m).
    { unfold quad_form, dot, mat_vec. apply big_sum_ext. intros i _.
      rewrite <- big_sum_scal. reflexivity. }
    rewrite Heq.
    assert (Hb : big_sum (fun i => big_sum (fun j => Rabs (B i j)) m) m * N =
                 big_sum (fun i => big_sum (fun j => Rabs (B i j) * N) m) m).
    { rewrite Rmult_comm, <- big_sum_scal. apply big_sum_ext. intros i _.
      rewrite <- big_sum_scal. apply big_sum_ext. intros; ring. }
    split.
    + replace (- big_sum (fun i => big_sum (fun j => Rabs (B i j)) m) m * N)
        with (-1 * (big_sum (fun i => big_sum (fun j => Rabs (B i j)) m) m * N))
        by ring.
      rewrite Hb, <- big_sum_scal. apply big_sum_le. intros i Hi.
      rewrite <- big_sum_scal. apply big_sum_le. intros j Hj.
      destruct (Hterm i j Hi Hj). lra.
    + rewrite Hb. apply big_sum_le. intros i Hi. apply big_sum_le. intros j Hj.
      destruct (Hterm i j Hi Hj). lra.
Qed.

Lemma norm2_add_scale m c u y :
  norm2 m (vec_add (vec_scale c u) y) =
  c * c * norm2 m u + 2 * c * dot m u y + norm2 m y.
Proof.
  unfold norm2. rewrite dot_add_l, !dot_add_r, !dot_scale_l, !dot_scale_r.
  rewrite (dot_comm m y u). ring.
Qed.

Lemma cauchy_schwarz m u y :
  dot m u y * dot m u y <= norm2 m u * norm2 m y.
Proof.
  assert (H : forall c, 0 <= c * c * norm2 m u + 2 * c * dot m u y + norm2 m y).
  { intros c. rewrite <- norm2_add_scale. apply norm2_nonneg. }
  pose proof (norm2_nonneg m u) as HU. pose proof (norm2_nonneg m y) as HY.
  destruct (Rle_lt_or_eq_dec 0 (norm2 m u) HU) as [Hpos | Hz].
  - specialize (H (- dot m u y / norm2 m u)).
    assert (Hid : - dot m u y / norm2 m u * (- dot m u y / norm2 m u) * norm2 m u
                  + 2 * (- dot m u y / norm2 m u) * dot m u y + norm2 m y
                  = (norm2 m u * norm2 m y - dot m u y * dot m u y) / norm2 m u).
    { field. lra. }
    rewrite Hid in H.
    apply Rmult_le_compat_r with (r := norm2 m u) in H; [|lra].
    unfold Rdiv in H. rewrite Rmult_assoc, Rinv_l in H by lra. lra.
  - rewrite <- Hz in *. 
    destruct (Req_dec (dot m u y) 0) as [H0 | Hne]; [rewrite H0; lra|].
    exfalso. specialize (H (- (norm2 m y + 1) / (2 * dot m u y))).
    assert (Hid : 2 * (- (norm2 m y + 1) / (2 * dot m u y)) * dot m u y = - (norm2 m y + 1)).
    { field. exact Hne. }
    lra.
Qed.

(** ** Positive definite forms are coercive

    By induction on the dimension, splitting off the last coordinate. *)
Lemma quad_form_S k M x :
  symmetric (S k) M ->
  quad_form (S k) M x =
  quad_form k M x + 2 * x k * dot k (M k) x + M k k * x k * x k.
Proof.
  intros Hs. unfold quad_form, dot, mat_vec. simpl.
  assert (H1 : big_sum (fun i => x i * (big_sum (fun j => M i j * x j) k + M i k * x k)) k
               = big_sum (fun i => x i * big_sum (fun j => M i j * x j) k) k
                 + x k * big_sum (fun i => M k i * x i) k).
  { rewrite <- big_sum_scal, <- big_sum_plus. apply big_sum_ext. intros i Hi.
    rewrite (Hs i k) by lia. ring. }
  rewrite H1. ring.
Qed.

Lemma quad_form_schur k M y :
  quad_form k (schur k M) y =
  quad_form k M y - dot k (M k) y * dot k (M k) y / M k k.
Proof.
  unfold quad_form.
  transitivity (dot k y (vec_add (mat_vec k M y)
                           (vec_scale (- (dot k (M k) y / M k k)) (M k)))).
  - apply dot_ext; [reflexivity|]. intros i _.
    unfold mat_vec, schur, vec_add, vec_scale, dot.
    unfold Rdiv.
    transitivity (big_sum (fun j => M i j * y j
                                    + - (M k i * / M k k) * (M k j * y j)) k).
    + apply big_sum_ext. intros; ring.
    + rewrite big_sum_plus, big_sum_scal. ring.
  - rewrite dot_add_r, dot_scale_r, (dot_comm k y (M k)). unfold Rdiv. ring.
Qed.

Lemma schur_symmetric k M : symmetric (S k) M -> symmetric k (schur k M).
Proof.
  intros Hs i j Hi Hj. unfold schur. rewrite (Hs i j) by lia. unfold Rdiv. ring.
Qed.

Lemma quad_form_ext m M x y :
  (forall i, (i < m)%nat -> x i = y i) -> quad_form m M x = quad_form m M y.
Proof.
  intros H. unfold quad_form. apply dot_ext; [exact H|].
  intros i _. unfold mat_vec. apply big_sum_ext. intros j Hj. rewrite H by exact Hj.
  reflexivity.
Qed.

Lemma pos_def_diag k M : symmetric (S k) M -> pos_def (S k) M -> 0 < M k k.
Proof.
  intros Hs Hpd.
  set (e := fun i : nat => if Nat.eqb i k then 1 else 0).
  assert (He : nonzero_vec (S k) e).
  { exists k. split; [lia|]. unfold e. rewrite Nat.eqb_refl. lra. }
  specialize (Hpd e He). rewrite (quad_form_S e Hs) in Hpd.
  assert (Hz : forall i, (i < k)%nat -> e i = (fun _ => 0) i).
  { intros i Hi. unfold e. destruct (Nat.eqb_spec i k); [lia | reflexivity]. }
  rewrite (@quad_form_ext k M e (fun _ => 0) Hz) in Hpd.
  rewrite (@dot_ext k (M k) e (M k) (fun _ => 0)) in Hpd; [ | reflexivity | exact Hz ].
  assert (Hq0 : quad_form k M (fun _ => 0) = 0).
  { unfold quad_form, dot. transitivity (big_sum (fun _ => 0) k);
      [ apply big_sum_ext; intros; ring | apply big_sum_zero ]. }
  assert (Hd0 : dot k (M k) (fun _ => 0) = 0).
  { unfold dot. transitivity (big_sum (fun _ => 0) k);
      [ apply big_sum_ext; intros; ring | apply big_sum_zero ]. }
  rewrite Hq0, Hd0 in Hpd. unfold e in Hpd. rewrite Nat.eqb_refl in Hpd. lra.
Qed.

Lemma schur_pos_def k M :
  symmetric (S k) M -> pos_def (S k) M -> pos_def k (schur k M).
Proof.
  intros Hs Hpd y (i0 & Hi0 & Hy).
  pose proof (pos_def_diag Hs Hpd) as Ha.
  set (w := dot k (M k) y).
  set (x := fun i : nat => if Nat.ltb i k then y i else - (w / M k k)).
  assert (Hx : forall i, (i < k)%nat -> x i = y i).
  { intros i Hi. unfold x. destruct (Nat.ltb_spec i k); [reflexivity | lia]. }
  assert (Hxk : x k = - (w / M k k)).
  { unfold x. destruct (Nat.ltb_spec k k); [lia | reflexivity]. }
  assert (Hnz : nonzero_vec (S k) x).
  { exists i0. split; [lia|]. rewrite Hx by exact Hi0. exact Hy. }
  specialize (Hpd x Hnz). rewrite (quad_form_S x Hs) in Hpd.
  rewrite (@quad_form_ext k M x y Hx) in Hpd.
  rewrite (@dot_ext k (M k) x (M k) y) in Hpd; [ | reflexivity | exact Hx ].
  fold w in Hpd. rewrite Hxk in Hpd.
  rewrite quad_form_schur. fold w.
  replace (quad_form k M y - w * w / M k k)
    with (quad_form k M y + 2 * - (w / M k k) * w
          + M k k * - (w / M k k) * - (w / M k k)); [exact Hpd|].
  field. lra.
Qed.

(** a positive definite form dominates a positive multiple of the squared norm *)
Lemma pos_def_coercive m :
  forall M, symmetric m M -> pos_def m M ->
  exists c, 0 < c /\ forall x, c * norm2 m x <= quad_form m M x.
Proof.
  induction m as [|k IH]; intros M Hs Hpd.
  - exists 1. split; [lra|]. intros x. unfold norm2, quad_form, dot. simpl. lra.
  - pose proof (pos_def_diag Hs Hpd) as Ha.
    destruct (IH (schur k M) (schur_symmetric Hs) (schur_pos_def Hs Hpd))
      as (c' & Hc' & Hco).
    set (a := M k k) in *.
    set (Lsq := norm2 k (M k)).
    assert (HL : 0 <= Lsq) by apply norm2_nonneg.
    set (D := 2 * Lsq + c' * a + 1).
    assert (HD : 0 < D) by (unfold D; nra).
    set (kap := c' / D).
    assert (Hkap : 0 < kap) by (apply Rdiv_lt_0_compat; lra).
    assert (HkD : kap * D = c') by (unfold kap; field; lra).
    assert (HkL : 0 <= kap * Lsq) by (apply Rmult_le_pos; lra).
    assert (Hk1 : kap * a <= 1).
    { destruct (Rle_or_lt (kap * a) 1) as [Hle | Hgt]; [exact Hle | exfalso].
      assert (0 < c' * (kap * a - 1)) by (apply Rmult_lt_0_compat; lra).
      unfold D in HkD. lra. }
    assert (Hk2 : kap * Lsq <= c' / 2).
    { assert (0 <= kap * (c' * a)) by (apply Rmult_le_pos; [lra|nra]).
      unfold D in HkD. lra. }
    exists (Rmin (c' / 2) (kap * a * a / 2)). split.
    { apply Rmin_pos; [lra|]. apply Rdiv_lt_0_compat; [|lra].
      apply Rmult_lt_0_compat; [apply Rmult_lt_0_compat|]; assumption. }
    intros x.
    set (w := dot k (M k) x). set (N := norm2 k x). set (xk := x k).
    assert (HN : 0 <= N) by apply norm2_nonneg.
    assert (Hcs : w * w <= Lsq * N) by apply cauchy_schwarz.
    specialize (Hco x). rewrite quad_form_schur in Hco. fold w N a in Hco.
    rewrite (quad_form_S x Hs). fold w a xk.
    assert (Hn : norm2 (S k) x = N + xk * xk) by reflexivity.
    rewrite Hn.
    set (q := quad_form k M x) in *.
    clearbody q w N xk kap. clear Hn HkD HD Hpd Hs IH.
    assert (Hsqr : 0 <= (w + a * xk) * (w + a * xk))
      by (pose proof (Rle_0_sqr (w + a * xk)) as Hr; unfold Rsqr in Hr; exact Hr).
    set (Q := (w + a * xk) * (w + a * xk) / a).
    assert (HQ : 0 <= Q).
    { unfold Q. apply Rmult_le_pos; [exact Hsqr|]. left.
      apply Rinv_0_lt_compat. exact Ha. }
    assert (Heq : q + 2 * xk * w + a * xk * xk = (q - w * w / a) + Q).
    { unfold Q. field. lra. }
    rewrite Heq.
    assert (HQa : Q * a = (w + a * xk) * (w + a * xk)).
    { unfold Q. field. lra. }
    clearbody Q.
    assert (Hsq : a * a * xk * xk / 2 - w * w <= (w + a * xk) * (w + a * xk)).
    { pose proof (Rle_0_sqr (2 * w + a * xk)) as Hr. unfold Rsqr in Hr. lra. }
    assert (HQlow : kap * (a * a * xk * xk / 2 - w * w) <= Q).
    { assert (H1 : kap * a * Q <= 1 * Q)
        by (apply Rmult_le_compat_r; [exact HQ | exact Hk1]).
      assert (H2 : kap * (a * a * xk * xk / 2 - w * w) <= kap * (Q * a)).
      { apply Rmult_le_compat_l; [lra|]. rewrite HQa. exact Hsq. }
      lra. }
    assert (Hw : kap * (w * w) <= c' / 2 * N).
    { assert (H1 : kap * (w * w) <= kap * (Lsq * N))
        by (apply Rmult_le_compat_l; lra).
      assert (H2 : kap * Lsq * N <= c' / 2 * N)
        by (apply Rmult_le_compat_r; [exact HN | exact Hk2]).
      lra. }
    assert (Hmain : c' / 2 * N + kap * a * a / 2 * (xk * xk) <= q - w * w / a + Q)
      by lra.
    assert (Hxk : 0 <= xk * xk)
      by (pose proof (Rle_0_sqr xk) as Hr; unfold Rsqr in Hr; exact Hr).
    assert (Hm1 : Rmin (c' / 2) (kap * a * a / 2) * N <= c' / 2 * N)
      by (apply Rmult_le_compat_r; [exact HN | apply Rmin_l]).
    assert (Hm2 : Rmin (c' / 2) (kap * a * a / 2) * (xk * xk)
                  <= kap * a * a / 2 * (xk * xk))
      by (apply Rmult_le_compat_r; [exact Hxk | apply Rmin_r]).
    lra.
Qed.

Lemma psd0 m M : psd_within 0 m M <-> forall x, 0 <= quad_form m M x.
Proof.
  unfold psd_within. split; intros H x; specialize (H x); lra.
Qed.

Lemma psd_within_weaken tol m M :
  0 <= tol -> psd_within 0 m M -> psd_within tol m M.
Proof.
  intros Ht H x. specialize (H x). pose proof (norm2_nonneg m x). nra.
Qed.

Lemma zero_or_nonzero m (x : vector) :
  nonzero_vec m x \/ forall i, (i < m)%nat -> x i = 0.
Proof.
  destruct (classic (nonzero_vec m x)) as [H | H]; [left; exact H | right].
  intros i Hi. destruct (Req_dec (x i) 0) as [H0 | Hne]; [exact H0|].
  exfalso. apply H. exists i. split; assumption.
Qed.

Lemma quad_form_zero m M x :
  (forall i, (i < m)%nat -> x i = 0) -> quad_form m M x = 0.
Proof.
  intros H. unfold quad_form, dot.
  transitivity (big_sum (fun _ => 0) m); [ | apply big_sum_zero ].
  apply big_sum_ext. intros i Hi. rewrite (H i Hi). ring.
Qed.

Lemma pos_def_psd m M : pos_def m M -> psd_within 0 m M.
Proof.
  intros H. apply psd0. intros x.
  destruct (zero_or_nonzero m x) as [Hnz | Hz].
  - left. apply H. exact Hnz.
  - rewrite quad_form_zero by exact Hz. lra.
Qed.

Lemma pos_def_not_singular m M : pos_def m M -> ~ singular m M.
Proof.
  intros Hpd (x & Hnz & Hk). specialize (Hpd x Hnz).
  unfold quad_form, dot in Hpd.
  rewrite (@big_sum_ext _ (fun _ => 0) m) in Hpd.
  - rewrite big_sum_zero in Hpd. lra.
  - intros i Hi. rewrite (Hk i Hi). ring.
Qed.

Lemma pencil_symmetric m A B s :
  symmetric m A -> symmetric m B -> symmetric m (mat_add A (mat_scale s B)).
Proof.
  intros HA HB i j Hi Hj. unfold mat_add, mat_scale.
  rewrite (HA i j Hi Hj), (HB i j Hi Hj). reflexivity.
Qed.

(** Along a line that starts at a positive definite matrix, the pencil
    stays semidefinite as long as it has not been singular. *)
Lemma psd_before_first_singular m A B t :
  symmetric m A -> symmetric m B -> pos_def m A ->
  (forall s, 0 < s < t -> ~ singular m (mat_add A (mat_scale s B))) ->
  forall s, 0 <= s <= t -> psd_within 0 m (mat_add A (mat_scale s B)).
Proof.
  intros HsA HsB Hpd Hns s0 Hs0.
  apply NNPP. intros Hnot.
  assert (Hx0 : exists x0, quad_form m A x0 + s0 * quad_form m B x0 < 0).
  { apply NNPP. intros Hno. apply Hnot. apply psd0. intros x.
    rewrite quad_form_pencil.
    destruct (Rle_or_lt 0 (quad_form m A x + s0 * quad_form m B x)) as [H|H];
      [exact H | exfalso; apply Hno; exists x; exact H]. }
  destruct Hx0 as (x0 & Hx0).
  assert (HA0 : forall x, 0 <= quad_form m A x)
    by (apply psd0, pos_def_psd; exact Hpd).
  set (E := fun r => 0 <= r <= s0 /\
                     forall x, 0 <= quad_form m A x + r * quad_form m B x).
  assert (HE0 : E 0).
  { split; [lra|]. intros x. specialize (HA0 x). lra. }
  assert (Hbound : bound E).
  { exists s0. intros r (Hr & _). lra. }
  destruct (completeness E Hbound (ex_intro _ 0 HE0)) as (hi & Hub & Hlub).
  assert (Hhi0 : 0 <= hi) by (apply Hub; exact HE0).
  assert (Hhis : hi <= s0).
  { apply Hlub. intros r (Hr & _). lra. }
  (* semidefinite at the supremum *)
  assert (Hpsd : forall x, 0 <= quad_form m A x + hi * quad_form m B x).
  { intros x.
    destruct (Rle_or_lt 0 (quad_form m A x + hi * quad_form m B x)) as [H|H];
      [exact H | exfalso].
    pose proof (HA0 x) as Ha.
    set (a0 := quad_form m A x) in *. set (b0 := quad_form m B x) in *.
    assert (Hb : b0 < 0) by nra.
    assert (Hr1 : hi <= a0 / (- b0)).
    { apply Hlub. intros r (_ & Hr). specialize (Hr x). fold a0 b0 in Hr.
      apply Rmult_le_reg_r with (r := - b0); [lra|].
      unfold Rdiv. rewrite Rmult_assoc, Rinv_l by lra. lra. }
    apply Rmult_le_compat_r with (r := - b0) in Hr1; [|lra].
    unfold Rdiv in Hr1. rewrite Rmult_assoc, Rinv_l in Hr1 by lra. lra. }
  assert (Hlt : hi < s0).
  { destruct (Rle_lt_or_eq_dec hi s0 Hhis) as [H|H]; [exact H | exfalso].
    specialize (Hpsd x0). rewrite H in Hpsd. lra. }
  assert (Hsym : symmetric m (mat_add A (mat_scale hi B)))
    by (apply pencil_symmetric; assumption).
  destruct (classic (pos_def m (mat_add A (mat_scale hi B)))) as [Hpdh | Hnpd].
  - (* definite at the supremum: it could be pushed further *)
    destruct (pos_def_coercive Hsym Hpdh) as (c & Hc & Hco).
    destruct (quad_form_bounded m B) as (beta & Hbeta & HB).
    set (eps := Rmin (c / (beta + 1)) (s0 - hi)).
    assert (Heps : 0 < eps).
    { apply Rmin_pos; [apply Rdiv_lt_0_compat; lra | lra]. }
    assert (Heps1 : eps * (beta + 1) <= c).
    { assert (eps <= c / (beta + 1)) by apply Rmin_l.
      apply Rmult_le_compat_r with (r := beta + 1) in H; [|lra].
      unfold Rdiv in H. rewrite Rmult_assoc, Rinv_l in H by lra. lra. }
    assert (Heps2 : eps <= s0 - hi) by apply Rmin_r.
    assert (HE : E (hi + eps)).
    { split; [lra|]. intros x.
      specialize (Hco x). rewrite quad_form_pencil in Hco.
      destruct (HB x) as [HBl _]. pose proof (norm2_nonneg m x) as HN.
      set (N := norm2 m x) in *.
      assert (0 <= eps * beta * N) by (repeat apply Rmult_le_pos; lra).
      assert (eps * (beta + 1) * N <= c * N)
        by (apply Rmult_le_compat_r; assumption).
      assert (eps * (- beta * N) <= eps * quad_form m B x)
        by (apply Rmult_le_compat_l; lra).
      assert (0 <= eps * N) by (apply Rmult_le_pos; lra).
      lra. }
    specialize (Hub _ HE). lra.
  - (* not definite: some nonzero_vec vector lies in the kernel *)
    assert (Hx : exists x, nonzero_vec m x /\
                   quad_form m (mat_add A (mat_scale hi B)) x <= 0).
    { apply NNPP. intros Hno. apply Hnpd. intros x Hnz.
      destruct (Rle_or_lt (quad_form m (mat_add A (mat_scale hi B)) x) 0) as [H|H];
        [exfalso; apply Hno; exists x; split; assumption | exact H]. }
    destruct Hx as (x & Hnz & Hle).
    assert (Hz : quad_form m (mat_add A (mat_scale hi B)) x = 0).
    { pose proof (Hpsd x) as H. rewrite <- quad_form_pencil in H. lra. }
    assert (Hsing : singular m (mat_add A (mat_scale hi B))).
    { exists x. split; [exact Hnz|].
      apply psd_kernel; [exact Hsym | | exact Hz].
      apply psd0. intros y. rewrite quad_form_pencil. apply Hpsd. }
    assert (Hhipos : 0 < hi).
    { destruct (Rle_lt_or_eq_dec 0 hi Hhi0) as [H|H]; [exact H | exfalso].
      rewrite quad_form_pencil, <- H in Hz. specialize (Hpd x Hnz). lra. }
    apply (Hns hi); [lra | exact Hsing].
Qed.

(** ** The boundary oracle *)

Lemma smallest_positive_finite l t :
  smallest_positive l = Finite t ->
  In t l /\ 0 < t /\ forall x, In x l -> 0 < x -> t <= x.
Proof.
  revert t. induction l as [|a l IH]; intros t H; simpl in H; [discriminate|].
  destruct (Rlt_dec 0 a) as [Ha | Ha].
  - destruct (smallest_positive l) as [t'|] eqn:Hl.
    + injection H as <-. destruct (IH t' eq_refl) as (Hin & Hpos & Hmin).
      split; [ | split ].
      * unfold Rmin. destruct (Rle_dec a t'); [left; reflexivity | right; exact Hin].
      * apply Rmin_pos; assumption.
      * intros x [<- | Hx] Hx0; [apply Rmin_l|].
        apply Rle_trans with t'; [apply Rmin_r | apply Hmin; assumption].
    + injection H as <-. split; [left; reflexivity | split; [exact Ha|]].
      intros x [<- | Hx] Hx0; [lra|].
      exfalso. clear IH. induction l as [|b l IHl]; [destruct Hx|].
      simpl in Hl. destruct (Rlt_dec 0 b) as [Hb | Hb].
      * destruct (smallest_positive l); discriminate.
      * destruct Hx as [<- | Hx]; [contradiction | auto].
  - destruct (IH t H) as (Hin & Hpos & Hmin). split; [right; exact Hin | split; [exact Hpos|]].
    intros x [<- | Hx] Hx0; [contradiction | auto].
Qed.

Lemma smallest_positive_unbounded l :
  smallest_positive l = Unbounded <-> forall x, In x l -> ~ 0 < x.
Proof.
  induction l as [|a l IH]; simpl.
  - split; [intros _ x [] | reflexivity].
  - destruct (Rlt_dec 0 a) as [Ha | Ha].
    + split.
      * destruct (smallest_positive l); discriminate.
      * intros H. exfalso. apply (H a); [left; reflexivity | exact Ha].
    + rewrite IH. split.
      * intros H x [<- | Hx]; [exact Ha | apply H; exact Hx].
      * intros H x Hx. apply H. right. exact Hx.
Qed.

Lemma mat_vec_scale_mat m c B x i :
  mat_vec m (mat_scale c B) x i = c * mat_vec m B x i.
Proof.
  unfold mat_vec, mat_scale. rewrite <- big_sum_scal. apply big_sum_ext. intros; ring.
Qed.

Lemma gen_eigenvalue_singular m A D lam :
  gen_eigenvalue m A (mat_scale (-1) D) lam <->
  singular m (mat_add A (mat_scale lam D)).
Proof.
  unfold gen_eigenvalue, singular. split; intros (v & Hnz & H); exists v;
    (split; [exact Hnz|]); intros i Hi; specialize (H i Hi).
  - rewrite mat_vec_pencil. rewrite mat_vec_scale_mat in H. lra.
  - rewrite mat_vec_pencil in H. rewrite mat_vec_scale_mat. lra.
Qed.

Lemma lin_comb_move p d s Ms :
  length p = length d ->
  lin_comb (move p s d) Ms = mat_add (lin_comb p Ms) (mat_scale s (lin_comb d Ms)).
Proof.
  revert d Ms. induction p as [|x p IH]; intros [|y d] Ms Hlen; try discriminate.
  - simpl. extensionality i. extensionality j. unfold mat_add, mat_scale, mat_zero. ring.
  - injection Hlen as Hlen. destruct Ms as [|M Ms]; simpl.
    + extensionality i. extensionality j. unfold mat_add, mat_scale, mat_zero. ring.
    + unfold move in IH. rewrite (IH d Ms Hlen).
      extensionality i. extensionality j. unfold mat_add, mat_scale. ring.
Qed.

Lemma move_length p s d : length p = length d -> length (move p s d) = length p.
Proof.
  intros H. unfold move. rewrite length_map, length_combine, <- H. apply Nat.min_id.
Qed.

Lemma evaluate_move l p d s Ap D :
  evaluate l p = inr Ap -> derivative l d = inr D ->
  evaluate l (move p s d) = inr (mat_add Ap (mat_scale s D)).
Proof.
  unfold evaluate, derivative.
  destruct (Nat.eqb_spec (length p) (ambient_dim l)) as [Hp|]; [|discriminate].
  destruct (Nat.eqb_spec (length d) (ambient_dim l)) as [Hd|]; [|discriminate].
  intros [= <-] [= <-].
  rewrite move_length by congruence. rewrite Hp, Nat.eqb_refl.
  rewrite lin_comb_move by congruence. f_equal.
  extensionality i. extensionality j. unfold mat_add, mat_scale. ring.
Qed.

Lemma lin_comb_symmetric m xs Ms :
  Forall (symmetric m) Ms -> symmetric m (lin_comb xs Ms).
Proof.
  intros H. revert xs. induction H as [|M Ms HM HMs IH]; intros [|x xs] i j Hi Hj;
    simpl; try reflexivity.
  unfold mat_add, mat_scale. rewrite (HM i j Hi Hj), (IH xs i j Hi Hj). reflexivity.
Qed.

Section OracleFacts.

Variable geneig : nat -> matrix -> matrix -> list R.

Lemma firstExit_finite_sound (l : LMI) (p d : point) (tol t : R) :
  well_formed l ->
  strictly_feasible l p ->
  length d = ambient_dim l ->
  solver_exact geneig l p d ->
  0 <= tol ->
  firstExit geneig l p d = inr (Finite t) ->
  0 <= t /\
  (exists At, evaluate l (move p t d) = inr At /\
              singular (mat_dim l) At /\ psd_within tol (mat_dim l) At) /\
  (forall s, 0 <= s <= t ->
     exists As, evaluate l (move p s d) = inr As /\ psd_within tol (mat_dim l) As).
Proof.
  intros (HsA0 & Hsc) (Ap & HAp & Hpd) Hd Hsolver Htol Hexit.
  assert (HD : derivative l d = inr (lin_comb d (coeffs l))).
  { unfold derivative. rewrite Hd, Nat.eqb_refl. reflexivity. }
  set (D := lin_comb d (coeffs l)) in *.
  unfold firstExit in Hexit. rewrite HAp, HD in Hexit. injection Hexit as Hexit.
  apply smallest_positive_finite in Hexit. destruct Hexit as (Hin & Hpos & Hmin).
  pose proof (Hsolver Ap D HAp HD) as Hex.
  assert (HsAp : symmetric (mat_dim l) Ap).
  { unfold evaluate in HAp.
    destruct (Nat.eqb (length p) (ambient_dim l)); [|discriminate].
    injection HAp as <-. intros i j Hi Hj. unfold mat_add.
    rewrite (HsA0 i j Hi Hj), (lin_comb_symmetric p Hsc Hi Hj). reflexivity. }
  assert (HsD : symmetric (mat_dim l) D) by (apply lin_comb_symmetric; exact Hsc).
  assert (Hsing : singular (mat_dim l) (mat_add Ap (mat_scale t D))).
  { apply gen_eigenvalue_singular, Hex. exact Hin. }
  assert (Hfree : forall s, 0 < s < t ->
            ~ singular (mat_dim l) (mat_add Ap (mat_scale s D))).
  { intros s Hs Hsg. apply gen_eigenvalue_singular, Hex in Hsg.
    specialize (Hmin s Hsg (proj1 Hs)). lra. }
  pose proof (psd_before_first_singular HsAp HsD Hpd Hfree) as Hpsd.
  split; [lra | split].
  - exists (mat_add Ap (mat_scale t D)). split; [ | split ].
    + apply evaluate_move; assumption.
    + exact Hsing.
    + apply psd_within_weaken; [exact Htol | apply Hpsd; lra].
  - intros s Hs. exists (mat_add Ap (mat_scale s D)). split.
    + apply evaluate_move; assumption.
    + apply psd_within_weaken; [exact Htol | apply Hpsd; exact Hs].
Qed.

Lemma firstExit_unbounded_iff (l : LMI) (p d : point) Ap D :
  evaluate l p = inr Ap -> derivative l d = inr D ->
  solver_exact geneig l p d ->
  (firstExit geneig l p d = inr Unbounded <->
   ~ exists s, 0 < s /\ singular (mat_dim l) (mat_add Ap (mat_scale s D))).
Proof.
  intros HAp HD Hsolver. unfold firstExit. rewrite HAp, HD.
  pose proof (Hsolver Ap D HAp HD) as Hex. split.
  - intros [= Hu]. rewrite smallest_positive_unbounded in Hu.
    intros (s & Hs & Hsg). apply (Hu s); [|exact Hs].
    apply Hex, gen_eigenvalue_singular. exact Hsg.
  - intros Hno. f_equal. apply smallest_positive_unbounded.
    intros x Hx Hpos. apply Hno. exists x. split; [exact Hpos|].
    apply gen_eigenvalue_singular, Hex. exact Hx.
Qed.



End OracleFacts.

(** ** A zero coefficient matrix *)

Lemma axis_length n i c : length (axis n i c) = n.
Proof.
  revert i. induction n as [|n IH]; intros [|i]; simpl; try reflexivity.
  - rewrite repeat_length. reflexivity.
  - rewrite IH. reflexivity.
Qed.

Lemma lin_comb_zeros k Ms : lin_comb (repeat 0 k) Ms = mat_zero.
Proof.
  revert Ms. induction k as [|k IH]; intros [|M Ms]; simpl; try reflexivity.
  rewrite IH. extensionality a. extensionality b.
  unfold mat_add, mat_scale, mat_zero. ring.
Qed.

Lemma lin_comb_axis_zero n i c Ms M0 :
  nth_error Ms i = Some M0 -> (forall a b, M0 a b = 0) ->
  lin_comb (axis n i c) Ms = mat_zero.
Proof.
  revert i Ms. induction n as [|n IH]; intros i Ms Hnth Hz.
  - destruct i; reflexivity.
  - destruct i as [|i]; destruct Ms as [|M Ms]; simpl in *; try discriminate.
    + injection Hnth as ->. rewrite lin_comb_zeros.
      extensionality a. extensionality b.
      unfold mat_add, mat_scale, mat_zero. rewrite Hz. ring.
    + rewrite (IH i Ms Hnth Hz). extensionality a. extensionality b.
      unfold mat_add, mat_scale, mat_zero. ring.
Qed.

Lemma pencil_zero A s : mat_add A (mat_scale s mat_zero) = A.
Proof.
  extensionality a. extensionality b. unfold mat_add, mat_scale, mat_zero. ring.
Qed.

Section Scenario.

Variable geneig : nat -> matrix -> matrix -> list R.

Lemma zero_coefficient_is_unbounded (l : LMI) (p : point) (i : nat) (c : R) M0 :
  strictly_feasible l p ->
  nth_error (coeffs l) i = Some M0 -> (forall a b, M0 a b = 0) ->
  solver_exact geneig l p (axis (ambient_dim l) i c) ->
  firstExit geneig l p (axis (ambient_dim l) i c) = inr Unbounded.
Proof.
  intros (Ap & HAp & Hpd) Hnth Hz Hsolver.
  assert (HD : derivative l (axis (ambient_dim l) i c) = inr mat_zero).
  { unfold derivative. rewrite axis_length, Nat.eqb_refl.
    erewrite lin_comb_axis_zero by eassumption. reflexivity. }
  apply (firstExit_unbounded_iff HAp HD Hsolver).
  intros (s & _ & Hsing). rewrite pencil_zero in Hsing.
  exact (pos_def_not_singular Hpd Hsing).
Qed.


End Scenario.

(** ** The preprocessor *)

Section PreprocessorFacts.

Variable geneig : nat -> matrix -> matrix -> list R.

Variable feasibility_search : LMI -> option point.

Variable probe_directions : LMI -> list point.

Variable diameter_bound : LMI -> point -> R -> R.






End PreprocessorFacts.

(** ** Walks of time zero *)

Lemma move_zero p d : length p = length d -> move p 0 d = p.
Proof.
  revert d. induction p as [|x p IH]; intros [|y d] H; try discriminate; [reflexivity|].
  injection H as H. unfold move in *. simpl. rewrite IH by exact H. f_equal. ring.
Qed.

Lemma acceleration_length c T : length (acceleration c T) = length c.
Proof. unfold acceleration. apply length_map. Qed.

Lemma position_zero p v a :
  length p = length v -> length p = length a -> position p v a 0 = p.
Proof.
  intros Hv Ha. unfold position. rewrite (move_zero p v Hv).
  replace (0 * 0 / 2) with 0 by field. apply move_zero. exact Ha.
Qed.

Section WalkerFacts.

Variable polyeig : HMCSettings -> nat -> matrix -> matrix -> matrix -> list R.

Variable boundary_normal : LMI -> point -> point.

Variable max_reflections : nat.

Lemma hmc_walk_zero_time epsilon l start v c :
  length start = ambient_dim l -> length v = ambient_dim l ->
  length c = ambient_dim l ->
  hmc_walk polyeig boundary_normal max_reflections epsilon l start v c 0 = inr start.
Proof.
  intros Hs Hv Hc. unfold hmc_walk.
  assert (Hpos : position start v (acceleration c 0) 0 = start)
    by (apply position_zero; rewrite ?acceleration_length; congruence).
  destruct max_reflections as [|b]; simpl;
    unfold curveExit, evaluate, derivative;
    rewrite Hs, Hv, acceleration_length, Hc, Nat.eqb_refl;
    (destruct (smallest_positive _) as [t|] eqn:Hex;
       [ | simpl; rewrite Hpos; reflexivity ]);
    apply smallest_positive_finite in Hex; destruct Hex as (_ & Ht & _);
    (destruct (Rle_dec 0 t) as [_|Hn]; [ | exfalso; lra ]);
    simpl; rewrite Hpos; reflexivity.
Qed.

Lemma runBoltzmannWalk_zero_time epsilon l c steps :
  length c = ambient_dim l ->
  forall start velocities,
  length start = ambient_dim l ->
  (forall k, length (velocities k) = ambient_dim l) ->
  runBoltzmannWalk polyeig boundary_normal max_reflections epsilon l start c 0
    steps velocities = inr start.
Proof.
  intros Hc. induction steps as [|k IH]; intros start velocities Hs Hv; simpl.
  - reflexivity.
  - rewrite hmc_walk_zero_time by auto. apply IH; auto.
Qed.

End WalkerFacts.

(** ** Matrices along a parabola *)

Lemma mat_vec_mat_add m A B x i :
  mat_vec m (mat_add A B) x i = mat_vec m A x i + mat_vec m B x i.
Proof.
  unfold mat_vec, mat_add. rewrite <- big_sum_plus. apply big_sum_ext. intros; ring.
Qed.

Lemma quad_form_mat_add m A B x :
  quad_form m (mat_add A B) x = quad_form m A x + quad_form m B x.
Proof.
  unfold quad_form.
  transitivity (dot m x (vec_add (mat_vec m A x) (mat_vec m B x))).
  - apply dot_ext; [reflexivity | intros i _; apply mat_vec_mat_add].
  - apply dot_add_r.
Qed.

Lemma quad_form_mat_scale m c B x :
  quad_form m (mat_scale c B) x = c * quad_form m B x.
Proof.
  unfold quad_form.
  transitivity (dot m x (vec_scale c (mat_vec m B x))).
  - apply dot_ext; [reflexivity | intros i _; apply mat_vec_scale_mat].
  - apply dot_scale_r.
Qed.

Lemma quad_form_curve m A B C r x :
  quad_form m (curve A B C r) x =
  quad_form m A x + r * quad_form m B x + r * r * quad_form m C x.
Proof.
  unfold curve. rewrite !quad_form_mat_add, !quad_form_mat_scale. ring.
Qed.

Lemma curve_symmetric m A B C r :
  symmetric m A -> symmetric m B -> symmetric m C -> symmetric m (curve A B C r).
Proof.
  intros HA HB HC i j Hi Hj. unfold curve, mat_add, mat_scale.
  rewrite (HA i j Hi Hj), (HB i j Hi Hj), (HC i j Hi Hj). reflexivity.
Qed.

(** definiteness at one time gives semidefiniteness shortly after *)
Lemma curve_open m A B C r :
  symmetric m A -> symmetric m B -> symmetric m C ->
  0 <= r -> pos_def m (curve A B C r) ->
  exists e0, 0 < e0 /\
    forall e, 0 <= e <= e0 -> forall x, 0 <= quad_form m (curve A B C (r + e)) x.
Proof.
  intros HA HB HC Hr Hpd.
  destruct (pos_def_coercive (curve_symmetric r HA HB HC) Hpd) as (c & Hc & Hco).
  destruct (quad_form_bounded m B) as (beta & Hbeta & HBb).
  destruct (quad_form_bounded m C) as (gam & Hgam & HCb).
  set (K := beta + (2 * r + 1) * gam + 1).
  assert (HK : 0 < K) by (unfold K; nra).
  exists (Rmin 1 (c / K)). split.
  { apply Rmin_pos; [lra | apply Rdiv_lt_0_compat; lra]. }
  intros e (He0 & He) x.
  assert (He1 : e <= 1) by (eapply Rle_trans; [exact He | apply Rmin_l]).
  assert (HeK : e * K <= c).
  { assert (e <= c / K) by (eapply Rle_trans; [exact He | apply Rmin_r]).
    apply Rmult_le_compat_r with (r := K) in H; [|lra].
    unfold Rdiv in H. rewrite Rmult_assoc, Rinv_l in H by lra. lra. }
  specialize (Hco x). rewrite quad_form_curve in Hco. rewrite quad_form_curve.
  destruct (HBb x) as [HB1 _]. destruct (HCb x) as [HC1 _].
  pose proof (norm2_nonneg m x) as HN. set (N := norm2 m x) in *.
  set (qA := quad_form m A x) in *. set (qB := quad_form m B x) in *.
  set (qC := quad_form m C x) in *.
  clearbody N qA qB qC.
  assert (H1 : e * (- beta * N) <= e * qB) by (apply Rmult_le_compat_l; lra).
  assert (Hw : 0 <= 2 * r * e + e * e) by nra.
  assert (H2 : (2 * r * e + e * e) * (- gam * N) <= (2 * r * e + e * e) * qC)
    by (apply Rmult_le_compat_l; lra).
  assert (H3 : 2 * r * e + e * e <= e * (2 * r + 1)) by nra.
  assert (H4 : (2 * r * e + e * e) * (gam * N) <= e * (2 * r + 1) * (gam * N)).
  { apply Rmult_le_compat_r; [apply Rmult_le_pos; lra | exact H3]. }
  assert (H5 : e * K * N <= c * N) by (apply Rmult_le_compat_r; lra).
  unfold K in H5.
  assert (H6 : 0 <= e * N) by (apply Rmult_le_pos; lra).
  nra.
Qed.

(** semidefiniteness just before a time carries over to that time *)
Lemma curve_closed m A B C hi :
  0 < hi ->
  (forall r, 0 <= r < hi -> forall x, 0 <= quad_form m (curve A B C r) x) ->
  forall x, 0 <= quad_form m (curve A B C hi) x.
Proof.
  intros Hhi Hbefore x.
  destruct (Rle_or_lt 0 (quad_form m (curve A B C hi) x)) as [H|H]; [exact H | exfalso].
  set (qA := quad_form m A x). set (qB := quad_form m B x).
  set (qC := quad_form m C x).
  assert (Hf : forall r, quad_form m (curve A B C r) x = qA + r * qB + r * r * qC)
    by (intros r; apply quad_form_curve).
  rewrite Hf in H.
  set (g := Rabs qB + 2 * hi * Rabs qC + 1).
  assert (Hg : 0 < g).
  { unfold g. pose proof (Rabs_pos qB). pose proof (Rabs_pos qC). nra. }
  set (f := qA + hi * qB + hi * hi * qC) in *.
  set (eta := Rmin hi (- f / (2 * g))).
  assert (Heta : 0 < eta).
  { apply Rmin_pos; [lra | apply Rdiv_lt_0_compat; lra]. }
  assert (Heta1 : eta <= hi) by apply Rmin_l.
  assert (Heta2 : eta * (2 * g) <= - f).
  { assert (eta <= - f / (2 * g)) by apply Rmin_r.
    apply Rmult_le_compat_r with (r := 2 * g) in H0; [|lra].
    unfold Rdiv in H0. rewrite Rmult_assoc, Rinv_l in H0 by lra. lra. }
  assert (Hr : 0 <= hi - eta < hi) by lra.
  specialize (Hbefore (hi - eta) Hr x). rewrite Hf in Hbefore.
  (* f(hi - eta) = f - eta (qB + (2 hi - eta) qC) *)
  assert (Hb1 : - Rabs qB <= qB <= Rabs qB).
  { unfold Rabs. destruct (Rcase_abs qB); lra. }
  assert (Hb2 : - Rabs qC <= qC <= Rabs qC).
  { unfold Rabs. destruct (Rcase_abs qC); lra. }
  pose proof (Rabs_pos qB) as HaB. pose proof (Rabs_pos qC) as HaC.
  assert (Hw : 0 <= 2 * hi - eta <= 2 * hi) by lra.
  assert (Hx1 : - (eta * Rabs qB) <= eta * qB) by nra.
  assert (Hx2 : - ((2 * hi - eta) * Rabs qC) <= (2 * hi - eta) * qC) by nra.
  assert (Hx3 : (2 * hi - eta) * Rabs qC <= 2 * hi * Rabs qC) by nra.
  assert (Hx4 : - (eta * (2 * hi * Rabs qC)) <= eta * ((2 * hi - eta) * qC)) by nra.
  assert (Hid : qA + (hi - eta) * qB + (hi - eta) * (hi - eta) * qC
                = f - eta * qB - eta * ((2 * hi - eta) * qC)) by (unfold f; ring).
  rewrite Hid in Hbefore.
  assert (Hx5 : eta * g = eta * Rabs qB + eta * (2 * hi * Rabs qC) + eta)
    by (unfold g; ring).
  lra.
Qed.

(** A trajectory that starts on a semidefinite matrix, is definite right
    after the start, and has not yet met a singular matrix, is still
    semidefinite. *)
Lemma psd_along_curve m A B C t :
  symmetric m A -> symmetric m B -> symmetric m C ->
  (forall x, 0 <= quad_form m A x) ->
  (exists dl, 0 < dl /\ forall r, 0 < r < dl -> pos_def m (curve A B C r)) ->
  (forall r, 0 < r < t -> ~ singular m (curve A B C r)) ->
  forall s, 0 <= s <= t -> forall x, 0 <= quad_form m (curve A B C s) x.
Proof.
  intros HA HB HC Hpsd0 (dl & Hdl & Henter) Hns s0 Hs0.
  assert (H0 : forall x, 0 <= quad_form m (curve A B C 0) x).
  { intros x. rewrite quad_form_curve. specialize (Hpsd0 x). lra. }
  destruct (Req_dec s0 0) as [-> | Hs0ne]; [exact H0|].
  apply NNPP. intros Hnot.
  assert (Hx0 : exists x0, quad_form m (curve A B C s0) x0 < 0).
  { apply NNPP. intros Hno. apply Hnot. intros x.
    destruct (Rle_or_lt 0 (quad_form m (curve A B C s0) x)) as [H|H];
      [exact H | exfalso; apply Hno; exists x; exact H]. }
  destruct Hx0 as (x0 & Hx0).
  set (E := fun r => 0 <= r <= s0 /\
              forall r', 0 <= r' <= r -> forall x, 0 <= quad_form m (curve A B C r') x).
  assert (HE0 : E 0).
  { split; [lra|]. intros r' Hr'. replace r' with 0 by lra. exact H0. }
  assert (Hbound : bound E) by (exists s0; intros r (Hr & _); lra).
  destruct (completeness E Hbound (ex_intro _ 0 HE0)) as (hi & Hub & Hlub).
  assert (Hhi0 : 0 <= hi) by (apply Hub; exact HE0).
  assert (Hhis : hi <= s0) by (apply Hlub; intros r (Hr & _); lra).
  (* everything before the supremum is semidefinite *)
  assert (Hbefore : forall r, 0 <= r < hi ->
            forall x, 0 <= quad_form m (curve A B C r) x).
  { intros r Hr. apply NNPP. intros Hn.
    assert (Hup : is_upper_bound E r).
    { intros r1 (Hr1 & Hall). destruct (Rle_or_lt r1 r) as [Hle|Hgt]; [exact Hle|].
      exfalso. apply Hn. apply Hall. lra. }
    specialize (Hlub r Hup). lra. }
  (* the first stretch after the start is definite *)
  assert (Hhipos : 0 < hi).
  { set (r1 := Rmin (dl / 2) s0).
    assert (Hr1 : 0 < r1) by (apply Rmin_pos; lra).
    assert (Hr1d : r1 <= dl / 2) by apply Rmin_l.
    assert (Hr1s : r1 <= s0) by apply Rmin_r.
    assert (HE1 : E r1).
    { split; [lra|]. intros r' Hr' x.
      destruct (Req_dec r' 0) as [-> | Hne]; [apply H0|].
      assert (Hpd : pos_def m (curve A B C r')) by (apply Henter; lra).
      apply psd0, pos_def_psd. exact Hpd. }
    specialize (Hub r1 HE1). lra. }
  assert (Hpsd : forall x, 0 <= quad_form m (curve A B C hi) x)
    by (apply curve_closed; assumption).
  assert (Hlt : hi < s0).
  { destruct (Rle_lt_or_eq_dec hi s0 Hhis) as [H|H]; [exact H | exfalso].
    specialize (Hpsd x0). rewrite H in Hpsd. lra. }
  assert (HEhi : forall r', 0 <= r' <= hi ->
             forall x, 0 <= quad_form m (curve A B C r') x).
  { intros r' Hr'. destruct (Rle_lt_or_eq_dec r' hi (proj2 Hr')) as [H|H].
    - apply Hbefore. lra.
    - rewrite H. exact Hpsd. }
  destruct (classic (pos_def m (curve A B C hi))) as [Hpdh | Hnpd].
  - destruct (curve_open HA HB HC Hhi0 Hpdh) as (e0 & He0 & Hopen).
    set (e := Rmin e0 (s0 - hi)).
    assert (He : 0 < e) by (apply Rmin_pos; lra).
    assert (He1 : e <= e0) by apply Rmin_l.
    assert (He2 : e <= s0 - hi) by apply Rmin_r.
    assert (HE : E (hi + e)).
    { split; [lra|]. intros r' Hr'.
      destruct (Rle_or_lt r' hi) as [Hle|Hgt].
      - apply HEhi. lra.
      - replace r' with (hi + (r' - hi)) by ring. apply Hopen. lra. }
    specialize (Hub _ HE). lra.
  - assert (Hx : exists x, nonzero_vec m x /\ quad_form m (curve A B C hi) x <= 0).
    { apply NNPP. intros Hno. apply Hnpd. intros x Hnz.
      destruct (Rle_or_lt (quad_form m (curve A B C hi) x) 0) as [H|H];
        [exfalso; apply Hno; exists x; split; assumption | exact H]. }
    destruct Hx as (x & Hnz & Hle).
    assert (Hz : quad_form m (curve A B C hi) x = 0)
      by (specialize (Hpsd x); lra).
    apply (Hns hi); [lra|].
    exists x. split; [exact Hnz|].
    apply psd_kernel; [apply curve_symmetric; assumption | | exact Hz].
    apply psd0. exact Hpsd.
Qed.

(** a definite start is a start that enters *)
Lemma pos_def_enters m A B C :
  symmetric m A -> symmetric m B -> symmetric m C -> pos_def m A ->
  exists dl, 0 < dl /\ forall r, 0 < r < dl -> pos_def m (curve A B C r).
Proof.
  intros HA HB HC Hpd.
  destruct (pos_def_coercive HA Hpd) as (c & Hc & Hco).
  destruct (quad_form_bounded m B) as (beta & Hbeta & HBb).
  destruct (quad_form_bounded m C) as (gam & Hgam & HCb).
  set (K := beta + gam + 1).
  assert (HK : 0 < K) by (unfold K; lra).
  exists (Rmin 1 (c / (2 * K))). split.
  { apply Rmin_pos; [lra | apply Rdiv_lt_0_compat; lra]. }
  intros r (Hr0 & Hr) x Hnz.
  assert (Hr1 : r < 1) by (eapply Rlt_le_trans; [exact Hr | apply Rmin_l]).
  assert (HrK : r * (2 * K) <= c).
  { assert (r <= c / (2 * K))
      by (left; eapply Rlt_le_trans; [exact Hr | apply Rmin_r]).
    apply Rmult_le_compat_r with (r := 2 * K) in H; [|lra].
    unfold Rdiv in H. rewrite Rmult_assoc, Rinv_l in H by lra. lra. }
  rewrite quad_form_curve. specialize (Hco x).
  destruct (HBb x) as [HB1 _]. destruct (HCb x) as [HC1 _].
  pose proof (norm2_pos Hnz) as HN. set (N := norm2 m x) in *.
  set (qA := quad_form m A x) in *. set (qB := quad_form m B x) in *.
  set (qC := quad_form m C x) in *. clearbody N qA qB qC.
  assert (H1 : r * (- beta * N) <= r * qB) by (apply Rmult_le_compat_l; lra).
  assert (Hrr : 0 <= r * r <= r) by nra.
  assert (H2 : r * r * (- gam * N) <= r * r * qC) by (apply Rmult_le_compat_l; lra).
  assert (H3 : r * r * (gam * N) <= r * (gam * N)).
  { apply Rmult_le_compat_r; [apply Rmult_le_pos; lra | lra]. }
  assert (H4 : r * (2 * K) * N <= c * N) by (apply Rmult_le_compat_r; lra).
  unfold K in H4.
  assert (H5 : 0 < r * N) by (apply Rmult_lt_0_compat; lra).
  nra.
Qed.

(** ** Leaving a boundary point whose kernel is a line *)






(** ** Feasibility along the trajectory of a walk *)

Lemma curve_line A B r : curve A B mat_zero r = mat_add A (mat_scale r B).
Proof.
  extensionality i. extensionality j. unfold curve, mat_add, mat_scale, mat_zero. ring.
Qed.

Lemma evaluate_symmetric l p Ap :
  well_formed l -> evaluate l p = inr Ap -> symmetric (mat_dim l) Ap.
Proof.
  intros (HA0 & Hc). unfold evaluate.
  destruct (Nat.eqb (length p) (ambient_dim l)); [|discriminate].
  intros [= <-] i j Hi Hj. unfold mat_add.
  rewrite (HA0 i j Hi Hj), (lin_comb_symmetric p Hc Hi Hj). reflexivity.
Qed.

Lemma derivative_symmetric l d D :
  well_formed l -> derivative l d = inr D -> symmetric (mat_dim l) D.
Proof.
  intros (_ & Hc). unfold derivative.
  destruct (Nat.eqb (length d) (ambient_dim l)); [|discriminate].
  intros [= <-]. apply lin_comb_symmetric. exact Hc.
Qed.

Lemma firstExit_inv geneig l p d ex :
  firstExit geneig l p d = inr ex ->
  exists Ap D, evaluate l p = inr Ap /\ derivative l d = inr D /\
    ex = smallest_positive (geneig (mat_dim l) Ap (mat_scale (-1) D)).
Proof.
  unfold firstExit. destruct (evaluate l p) as [e|Ap]; [discriminate|].
  destruct (derivative l d) as [e|D]; [discriminate|].
  intros [= <-]. exists Ap, D. repeat split.
Qed.

Lemma mat_zero_symmetric m : symmetric m mat_zero.
Proof. intros i j _ _. reflexivity. Qed.

(** travelling along a line up to the exit the oracle reports *)
Lemma segment_feasible geneig l p d ex s :
  well_formed l -> feasible_within 0 l p ->
  solver_exact geneig l p d -> enters l p d ->
  firstExit geneig l p d = inr ex ->
  0 <= s -> match ex with Finite t => s <= t | Unbounded => True end ->
  feasible_within 0 l (move p s d).
Proof.
  intros Hwf (Ap0 & HAp0 & Hpsd0) Hsolver (dl & Hdl & Henter) Hexit Hs Hle.
  destruct (firstExit_inv _ _ _ _ Hexit) as (Ap & D & HAp & HD & Hex).
  assert (Ap0 = Ap) by congruence. subst Ap0.
  pose proof (evaluate_symmetric _ Hwf HAp) as HsA.
  pose proof (derivative_symmetric _ Hwf HD) as HsD.
  pose proof (Hsolver Ap D HAp HD) as Hexact.
  exists (mat_add Ap (mat_scale s D)). split; [apply evaluate_move; assumption|].
  rewrite <- curve_line. apply psd0.
  set (t := match ex with Finite t => t | Unbounded => s + 1 end).
  apply (@psd_along_curve (mat_dim l) Ap D mat_zero t);
    try assumption; try apply mat_zero_symmetric.
  - apply psd0. exact Hpsd0.
  - exists dl. split; [exact Hdl|]. intros r Hr.
    destruct (Henter r Hr) as (M & HM & Hpd).
    rewrite (evaluate_move _ _ _ r HAp HD) in HM. injection HM as <-.
    rewrite curve_line. exact Hpd.
  - intros r Hr Hsing. rewrite curve_line in Hsing.
    apply gen_eigenvalue_singular, Hexact in Hsing.
    destruct ex as [t0|]; simpl in Hex; subst t.
    + symmetry in Hex. apply smallest_positive_finite in Hex.
      destruct Hex as (_ & _ & Hmin). specialize (Hmin r Hsing (proj1 Hr)). lra.
    + symmetry in Hex. rewrite smallest_positive_unbounded in Hex.
      apply (Hex r Hsing). lra.
  - unfold t. destruct ex; lra.
Qed.







(** ** How a walk unfolds *)
Section Unfolding.

Variable geneig : nat -> matrix -> matrix -> list R.

Variable polyeig : HMCSettings -> nat -> matrix -> matrix -> matrix -> list R.

Variable boundary_normal : LMI -> point -> point.



Lemma hmc_integrate_done budget l a st ws ex :
  curveExit polyeig st l (ws_point ws) (ws_direction ws) a = inr ex ->
  match ex with Finite t => ws_remaining ws <= t | Unbounded => True end ->
  hmc_integrate polyeig boundary_normal budget l a st ws =
  ([(st, ws)], inr (hmc_advance a ws)).
Proof.
  intros Hex Hle. destruct budget; simpl; rewrite Hex; destruct ex as [t|];
    try reflexivity;
    (destruct (Rle_dec (ws_remaining ws) t); [reflexivity | contradiction]).
Qed.

End Unfolding.

(** ** The example bodies *)

Lemma mat_vec2 M x i :
  mat_vec 2 M x i = M i 0%nat * x 0%nat + M i 1%nat * x 1%nat.
Proof. unfold mat_vec. simpl. ring. Qed.

Lemma quad_form2 M x :
  quad_form 2 M x =
  x 0%nat * (M 0%nat 0%nat * x 0%nat + M 0%nat 1%nat * x 1%nat) +
  x 1%nat * (M 1%nat 0%nat * x 0%nat + M 1%nat 1%nat * x 1%nat).
Proof. unfold quad_form, dot. simpl. rewrite !mat_vec2. ring. Qed.

Lemma nonzero_vec2 x : nonzero_vec 2 x <-> x 0%nat <> 0 \/ x 1%nat <> 0.
Proof.
  split.
  - intros (i & Hi & Hx). destruct i as [|[|i]]; [left | right | lia]; exact Hx.
  - intros [H|H]; [exists 0%nat | exists 1%nat]; split; auto.
Qed.

Lemma lt2 (P : nat -> Prop) : P 0%nat -> P 1%nat -> forall i, (i < 2)%nat -> P i.
Proof. intros H0 H1 [|[|i]] Hi; [exact H0 | exact H1 | lia]. Qed.

Lemma singular_diag2 M :
  is_diag2 M -> (singular 2 M <-> M 0%nat 0%nat = 0 \/ M 1%nat 1%nat = 0).
Proof.
  intros (H01 & H10). split.
  - intros (x & Hnz & Hk). apply nonzero_vec2 in Hnz.
    pose proof (Hk 0%nat ltac:(lia)) as K0. pose proof (Hk 1%nat ltac:(lia)) as K1.
    rewrite mat_vec2, H01 in K0. rewrite mat_vec2, H10 in K1.
    destruct Hnz as [Hx|Hx]; [left | right]; nra.
  - intros [H|H]; [exists unit0 | exists unit1];
      (split; [apply nonzero_vec2; unfold unit0, unit1; simpl; lra|]);
      apply lt2; rewrite mat_vec2, ?H01, ?H10, ?H; unfold unit0, unit1; simpl; ring.
Qed.

Lemma pos_def_diag2 M :
  is_diag2 M -> 0 < M 0%nat 0%nat -> 0 < M 1%nat 1%nat -> pos_def 2 M.
Proof.
  intros (H01 & H10) H0 H1 x Hnz. apply nonzero_vec2 in Hnz.
  rewrite quad_form2, H01, H10.
  assert (Hs0 : 0 <= x 0%nat * x 0%nat)
    by (pose proof (Rle_0_sqr (x 0%nat)) as Hr; exact Hr).
  assert (Hs1 : 0 <= x 1%nat * x 1%nat)
    by (pose proof (Rle_0_sqr (x 1%nat)) as Hr; exact Hr).
  assert (Hp0 : 0 <= M 0%nat 0%nat * (x 0%nat * x 0%nat))
    by (apply Rmult_le_pos; lra).
  assert (Hp1 : 0 <= M 1%nat 1%nat * (x 1%nat * x 1%nat))
    by (apply Rmult_le_pos; lra).
  destruct Hnz as [Hx|Hx].
  - assert (0 < M 0%nat 0%nat * (x 0%nat * x 0%nat)).
    { apply Rmult_lt_0_compat; [exact H0|].
      pose proof (Rsqr_pos_lt _ Hx) as Hr. exact Hr. }
    lra.
  - assert (0 < M 1%nat 1%nat * (x 1%nat * x 1%nat)).
    { apply Rmult_lt_0_compat; [exact H1|].
      pose proof (Rsqr_pos_lt _ Hx) as Hr. exact Hr. }
    lra.
Qed.

Lemma psd_diag2 M :
  is_diag2 M -> 0 <= M 0%nat 0%nat -> 0 <= M 1%nat 1%nat -> psd_within 0 2 M.
Proof.
  intros (H01 & H10) H0 H1. apply psd0. intros x. rewrite quad_form2, H01, H10.
  assert (Hs0 : 0 <= x 0%nat * x 0%nat)
    by (pose proof (Rle_0_sqr (x 0%nat)) as Hr; exact Hr).
  assert (Hs1 : 0 <= x 1%nat * x 1%nat)
    by (pose proof (Rle_0_sqr (x 1%nat)) as Hr; exact Hr).
  assert (Hp0 : 0 <= M 0%nat 0%nat * (x 0%nat * x 0%nat))
    by (apply Rmult_le_pos; lra).
  assert (Hp1 : 0 <= M 1%nat 1%nat * (x 1%nat * x 1%nat))
    by (apply Rmult_le_pos; lra).
  lra.
Qed.

Lemma diag_solver_exact A B :
  is_diag2 A -> is_diag2 B -> B 0%nat 0%nat <> 0 -> B 1%nat 1%nat <> 0 ->
  forall lam, In lam (diag_solver 2 A B) <-> gen_eigenvalue 2 A B lam.
Proof.
  intros (A01 & A10) (B01 & B10) HB0 HB1 lam. unfold diag_solver. split.
  - intros [H | [H | []]]; subst lam; [exists unit0 | exists unit1];
      (split; [apply nonzero_vec2; unfold unit0, unit1; simpl; lra|]);
      apply lt2; rewrite !mat_vec2, ?A01, ?A10, ?B01, ?B10;
      unfold unit0, unit1; simpl; field; assumption.
  - intros (v & Hnz & Hk). apply nonzero_vec2 in Hnz.
    pose proof (Hk 0%nat ltac:(lia)) as K0. pose proof (Hk 1%nat ltac:(lia)) as K1.
    rewrite !mat_vec2, A01, B01 in K0. rewrite !mat_vec2, A10, B10 in K1.
    destruct Hnz as [Hx|Hx]; [left | right; left].
    + apply Rmult_eq_reg_r with (r := B 0%nat 0%nat * v 0%nat);
        [ | apply Rmult_integral_contrapositive_currified; assumption ].
      transitivity (A 0%nat 0%nat * v 0%nat); [field; exact HB0 | ].
      rewrite !Rmult_0_l, !Rplus_0_r in K0. rewrite K0. ring.
    + apply Rmult_eq_reg_r with (r := B 1%nat 1%nat * v 1%nat);
        [ | apply Rmult_integral_contrapositive_currified; assumption ].
      transitivity (A 1%nat 1%nat * v 1%nat); [field; exact HB1 | ].
      rewrite !Rmult_0_l, !Rplus_0_l in K1. rewrite K1. ring.
Qed.

Lemma smallest_positive_pair x y t :
  x = t -> 0 < t -> ~ 0 < y -> smallest_positive [x; y] = Finite t.
Proof.
  intros -> Ht Hy. unfold smallest_positive. simpl.
  destruct (Rlt_dec 0 y) as [H|_]; [contradiction|].
  destruct (Rlt_dec 0 t) as [_|H]; [reflexivity | contradiction].
Qed.


Lemma firstExit_diag l p d Ap D :
  evaluate l p = inr Ap -> derivative l d = inr D ->
  firstExit diag_solver l p d =
  inr (smallest_positive [Ap 0%nat 0%nat / (-1 * D 0%nat 0%nat);
                          Ap 1%nat 1%nat / (-1 * D 1%nat 1%nat)]).
Proof.
  intros HA HD. unfold firstExit. rewrite HA, HD. reflexivity.
Qed.

Lemma solver_exact_diag l p d Ap D :
  mat_dim l = 2%nat ->
  evaluate l p = inr Ap -> derivative l d = inr D ->
  is_diag2 Ap -> is_diag2 D -> D 0%nat 0%nat <> 0 -> D 1%nat 1%nat <> 0 ->
  solver_exact diag_solver l p d.
Proof.
  intros Hm HA HD HdA (D01 & D10) H0 H1 Ap' D' HA' HD'.
  assert (Ap' = Ap) by congruence. assert (D' = D) by congruence. subst.
  rewrite Hm. apply diag_solver_exact; try assumption.
  - split; unfold mat_scale; [rewrite D01 | rewrite D10]; ring.
  - unfold mat_scale. intros H. apply H0. lra.
  - unfold mat_scale. intros H. apply H1. lra.
Qed.

Lemma diag2_symmetric a b : symmetric 2 (diag2 a b).
Proof. intros [|[|i]] [|[|j]] Hi Hj; try lia; reflexivity. Qed.

Lemma segment_well_formed : well_formed segment_lmi.
Proof.
  split; [apply diag2_symmetric | repeat constructor; apply diag2_symmetric].
Qed.

Lemma segment_evaluate x : evaluate segment_lmi [x] = inr (segment_at x).
Proof. reflexivity. Qed.

Lemma segment_derivative d : derivative segment_lmi [d] = inr (segment_along d).
Proof. reflexivity. Qed.

Lemma segment_at_entries x :
  is_diag2 (segment_at x) /\
  segment_at x 0%nat 0%nat = 1 - x /\ segment_at x 1%nat 1%nat = 1 + x.
Proof.
  unfold is_diag2. cbv [segment_at lin_comb mat_add mat_scale mat_zero diag2].
  repeat split; ring.
Qed.

Lemma segment_along_entries d :
  is_diag2 (segment_along d) /\
  segment_along d 0%nat 0%nat = - d /\ segment_along d 1%nat 1%nat = d.
Proof.
  unfold is_diag2. cbv [segment_along lin_comb mat_add mat_scale mat_zero diag2].
  repeat split; ring.
Qed.

Lemma segment_strictly_feasible x :
  -1 < x < 1 -> strictly_feasible segment_lmi [x].
Proof.
  intros Hx. exists (segment_at x). split; [reflexivity|].
  destruct (segment_at_entries x) as (Hd & H0 & H1).
  apply pos_def_diag2; [exact Hd | rewrite H0; lra | rewrite H1; lra].
Qed.

Lemma segment_feasible_pt x :
  -1 <= x <= 1 -> feasible_within 0 segment_lmi [x].
Proof.
  intros Hx. exists (segment_at x). split; [reflexivity|].
  destruct (segment_at_entries x) as (Hd & H0 & H1).
  apply psd_diag2; [exact Hd | rewrite H0; lra | rewrite H1; lra].
Qed.

Lemma segment_solver_exact x d :
  d <> 0 -> solver_exact diag_solver segment_lmi [x] [d].
Proof.
  intros Hd.
  destruct (segment_at_entries x) as (HdA & _ & _).
  destruct (segment_along_entries d) as (HdD & H0 & H1).
  apply (@solver_exact_diag segment_lmi [x] [d] (segment_at x) (segment_along d));
    try reflexivity; try assumption.
  - rewrite H0. lra.
  - rewrite H1. exact Hd.
Qed.

(** the exit from x along +d or -d *)
Lemma segment_exit_forward x d :
  0 < d -> x < 1 -> -1 <= x ->
  firstExit diag_solver segment_lmi [x] [d] = inr (Finite ((1 - x) / d)).
Proof.
  intros Hd Hx Hx'.
  rewrite (@firstExit_diag segment_lmi [x] [d] _ _
             (segment_evaluate x) (segment_derivative d)).
  destruct (segment_at_entries x) as (_ & A00 & A11).
  destruct (segment_along_entries d) as (_ & D00 & D11).
  rewrite A00, A11, D00, D11. f_equal.
  apply smallest_positive_pair.
  - field. lra.
  - apply Rdiv_lt_0_compat; lra.
  - intros H. assert (Hq : (1 + x) / (-1 * d) = - ((1 + x) / d)) by (field; lra).
    rewrite Hq in H.
    assert (0 <= (1 + x) / d) by (apply Rmult_le_pos; [lra | left; apply Rinv_0_lt_compat; lra]).
    lra.
Qed.


Lemma smallest_positive_is l t :
  In t l -> 0 < t -> (forall x, In x l -> 0 < x -> t <= x) ->
  smallest_positive l = Finite t.
Proof.
  intros Hin Hpos Hmin.
  destruct (smallest_positive l) as [t'|] eqn:H.
  - apply smallest_positive_finite in H. destruct H as (Hin' & Hpos' & Hmin').
    f_equal. apply Rle_antisym; [apply Hmin' | apply Hmin]; assumption.
  - rewrite smallest_positive_unbounded in H. exfalso. exact (H t Hin Hpos).
Qed.



Lemma segment_enters_forward x :
  -1 <= x < 1 -> enters segment_lmi [x] [1].
Proof.
  intros Hx. exists (1 - x). split; [lra|]. intros s Hs.
  change (move [x] s [1]) with [x + s * 1].
  apply segment_strictly_feasible. lra.
Qed.

Lemma segment_enters_backward x :
  -1 < x <= 1 -> enters segment_lmi [x] [-1].
Proof.
  intros Hx. exists (1 + x). split; [lra|]. intros s Hs.
  change (move [x] s [-1]) with [x + s * -1].
  apply segment_strictly_feasible. lra.
Qed.

Lemma arc_matrix_entries t :
  is_diag2 (arc_matrix t) /\
  arc_matrix t 0%nat 0%nat = 1 - 5 * t + 6 * t * t /\
  arc_matrix t 1%nat 1%nat = 1 + 5 * t - 6 * t * t.
Proof.
  unfold is_diag2.
  cbv [arc_matrix curve segment_at segment_along lin_comb mat_add mat_scale
       mat_zero diag2].
  repeat split; field.
Qed.

Lemma arc_position s :
  position [0] [5] arc_accel s = [5 * s - 6 * s * s].
Proof.
  unfold position, arc_accel, acceleration, move. simpl. f_equal. field.
Qed.

Lemma arc_exact : poly_exact segment_polyeig arc_settings segment_lmi [0] [5] arc_accel.
Proof.
  intros Ap Dv Da HA HDv HDa t.
  change (evaluate segment_lmi [0]) with (@inr exception _ (segment_at 0)) in HA.
  change (derivative segment_lmi [5]) with (@inr exception _ (segment_along 5)) in HDv.
  change (derivative segment_lmi arc_accel)
    with (@inr exception _ (segment_along (- 3 / (1 / 4)))) in HDa.
  injection HA as <-. injection HDv as <-. injection HDa as <-.
  change (mat_dim segment_lmi) with 2%nat. fold (arc_matrix t).
  destruct (arc_matrix_entries t) as (Hd & H00 & H11).
  rewrite (singular_diag2 Hd), H00, H11. unfold segment_polyeig. split.
  - intros [H | [H | [H | [H | []]]]]; subst t; [left | left | right | right]; field.
  - intros [H | H].
    + assert (Hf : (2 * t - 1) * (3 * t - 1) = 0) by lra.
      apply Rmult_integral in Hf. destruct Hf; [right; left | left]; lra.
    + assert (Hf : (t - 1) * (6 * t + 1) = 0) by lra.
      apply Rmult_integral in Hf.
      destruct Hf; [right; right; left | right; right; right; left]; lra.
Qed.

Lemma arc_exit :
  curveExit segment_polyeig arc_settings segment_lmi [0] [5] arc_accel =
  inr (Finite (1 / 3)).
Proof.
  unfold curveExit.
  change (evaluate segment_lmi [0]) with (@inr exception _ (segment_at 0)).
  change (derivative segment_lmi [5]) with (@inr exception _ (segment_along 5)).
  change (derivative segment_lmi arc_accel)
    with (@inr exception _ (segment_along (- 3 / (1 / 4)))).
  cbv beta iota. unfold segment_polyeig. f_equal. apply smallest_positive_is.
  - left. reflexivity.
  - lra.
  - intros x [H | [H | [H | [H | []]]]] Hx; subst x; lra.
Qed.

Lemma arc_enters : enters_curve segment_lmi [0] [5] arc_accel.
Proof.
  exists (1 / 3). split; [lra|]. intros s Hs. rewrite arc_position.
  apply segment_strictly_feasible.
  assert (0 < s * (5 - 6 * s)) by (apply Rmult_lt_0_compat; lra).
  assert (0 < (1 - 2 * s) * (1 - 3 * s)) by (apply Rmult_lt_0_compat; lra).
  lra.
Qed.

Lemma arc_run :
  hmc_integrate segment_polyeig segment_normal 1 segment_lmi arc_accel
    arc_settings arc_start =
  ([(arc_settings, arc_start)], inr (hmc_advance arc_accel arc_start)).
Proof.
  apply hmc_integrate_done with (ex := Finite (1 / 3)).
  - exact arc_exit.
  - simpl. lra.
Qed.

(** ** A Boltzmann walk on the segment that reflects

    The singular times of a diagonal parabola by the quadratic formula, and
    the walk of four time units from 0 with velocity 5/6 under the
    acceleration -1/3. *)













(** ** Diagonal instances of any size *)






















(** ** Feasible and strictly feasible points *)

Lemma strictly_feasible_feasible l p :
  strictly_feasible l p -> feasible_within 0 l p.
Proof.
  intros (Ap & HAp & Hpd). exists Ap. split; [exact HAp | apply pos_def_psd; exact Hpd].
Qed.

Lemma feasible_within_weaken tol l p :
  0 <= tol -> feasible_within 0 l p -> feasible_within tol l p.
Proof.
  intros Htol (Ap & HAp & H). exists Ap.
  split; [exact HAp | apply psd_within_weaken; assumption].
Qed.

Lemma derivative_dims l d :
  length d = ambient_dim l -> derivative l d = inr (lin_comb d (coeffs l)).
Proof. intros Hd. unfold derivative. rewrite Hd, Nat.eqb_refl. reflexivity. Qed.

(** From a strictly feasible point every ray starts inside the body. *)
Lemma strictly_feasible_enters l p d :
  well_formed l -> strictly_feasible l p -> length d = ambient_dim l ->
  enters l p d.
Proof.
  intros Hwf (Ap & HAp & Hpd) Hd.
  pose proof (derivative_dims l d Hd) as HD.
  pose proof (evaluate_symmetric _ Hwf HAp) as HsA.
  pose proof (derivative_symmetric _ Hwf HD) as HsD.
  destruct (pos_def_enters HsA HsD (@mat_zero_symmetric (mat_dim l)) Hpd)
    as (dl & Hdl & H).
  exists dl. split; [exact Hdl|]. intros s Hs.
  exists (mat_add Ap (mat_scale s (lin_comb d (coeffs l)))).
  split; [apply evaluate_move; assumption|].
  rewrite <- curve_line. apply H. exact Hs.
Qed.


(** ** Reflection at a smooth boundary point *)



















(** ** Walks that reflect at smooth boundary points *)

Section ReflectedWalks.

Variable geneig : nat -> matrix -> matrix -> list R.

Variable polyeig : HMCSettings -> nat -> matrix -> matrix -> matrix -> list R.

Variable boundary_normal : LMI -> point -> point.







End ReflectedWalks.

Lemma flat_well_formed : well_formed flat_lmi.
Proof.
  split; [apply diag2_symmetric | repeat constructor; exact (@mat_zero_symmetric 2)].
Qed.

Lemma flat_entries x :
  is_diag2 (mat_add (diag2 1 1) (lin_comb [x] [mat_zero])) /\
  mat_add (diag2 1 1) (lin_comb [x] [mat_zero]) 0%nat 0%nat = 1 /\
  mat_add (diag2 1 1) (lin_comb [x] [mat_zero]) 1%nat 1%nat = 1.
Proof.
  unfold is_diag2. cbv [lin_comb mat_add mat_scale mat_zero diag2].
  repeat split; ring.
Qed.

Lemma flat_strictly_feasible x : strictly_feasible flat_lmi [x].
Proof.
  exists (mat_add (diag2 1 1) (lin_comb [x] [mat_zero])). split; [reflexivity|].
  destruct (flat_entries x) as (Hd & H0 & H1).
  apply pos_def_diag2; [exact Hd | rewrite H0; lra | rewrite H1; lra].
Qed.

Lemma flat_never_singular x At :
  evaluate flat_lmi x = inr At -> ~ singular 2 At.
Proof.
  destruct x as [|x0 [|x1 x]]; try discriminate.
  intros [= <-] Hs.
  destruct (flat_entries x0) as (Hd & H0 & H1).
  apply (singular_diag2 Hd) in Hs. lra.
Qed.

Lemma flat_solver_exact x d : solver_exact no_roots flat_lmi [x] [d].
Proof.
  intros Ap D HAp HD lam. split; [intros []|].
  intros Hg. apply gen_eigenvalue_singular in Hg.
  exfalso. eapply flat_never_singular; [|exact Hg].
  apply (@evaluate_move flat_lmi [x] [d] lam Ap D HAp HD).
Qed.


End CoreFacts.

(* ================================================================== *)
(** * The claims about the sampling core *)

Section CoreClaims.

Local Open Scope R_scope.

(** C1 as stated fails: on the LMI whose coefficient matrix is zero,
    A(x) = I at every x.  The point 0 is strictly feasible, the eigenvalue
    routine answers the query along the axis exactly, the oracle returns the
    unbounded sentinel and not a scalar, and no scalar could do: A(p + t d)
    is singular for no t. *)
Lemma firstExit_may_find_no_exit :
  well_formed flat_lmi /\
  strictly_feasible flat_lmi [0] /\
  solver_exact no_roots flat_lmi [0] [1] /\
  firstExit no_roots flat_lmi [0] [1] = inr Unbounded /\
  ~ (exists t At, 0 <= t /\ evaluate flat_lmi (move [0] t [1]) = inr At /\
                  singular (mat_dim flat_lmi) At).
Proof.
  split; [exact flat_well_formed|].
  split; [apply flat_strictly_feasible|].
  split; [apply flat_solver_exact|].
  split; [reflexivity|].
  intros (t & At & _ & HAt & Hs). exact (flat_never_singular _ HAt Hs).
Qed.

(** C1, amended.  For a strictly feasible point [p] and a direction [d]
    of the ambient dimension, with the eigenvalue routine exact on the
    query, [firstExit] returns either a scalar t >= 0 such that A(p + t d) is
    singular and A(p + s d) >= -tol for every 0 <= s <= t, or the unbounded
    sentinel, and then A(p + s d) >= -tol for every s >= 0. *)
Theorem firstExit_returns_first_crossing_or_unbounded
    (geneig : nat -> matrix -> matrix -> list R) (l : LMI) (p d : point) (tol : R) :
  well_formed l ->
  strictly_feasible l p ->
  length d = ambient_dim l ->
  solver_exact geneig l p d ->
  0 <= tol ->
  exists ex, firstExit geneig l p d = inr ex /\
    match ex with
    | Finite t =>
        0 <= t /\
        (exists At, evaluate l (move p t d) = inr At /\
                    singular (mat_dim l) At /\ psd_within tol (mat_dim l) At) /\
        (forall s, 0 <= s <= t ->
           exists As, evaluate l (move p s d) = inr As /\
                      psd_within tol (mat_dim l) As)
    | Unbounded =>
        forall s, 0 <= s ->
           exists As, evaluate l (move p s d) = inr As /\
                      psd_within tol (mat_dim l) As
    end.
Proof.
  intros Hwf Hp Hd Hsolver Htol.
  assert (Hex : exists ex, firstExit geneig l p d = inr ex).
  { destruct Hp as (Ap & HAp & _). unfold firstExit.
    rewrite HAp, (derivative_dims l d Hd). eexists. reflexivity. }
  destruct Hex as (ex & Hex). exists ex. split; [exact Hex|].
  destruct ex as [t|].
  - exact (firstExit_finite_sound Hwf Hp Hd Hsolver Htol Hex).
  - intros s Hs. apply feasible_within_weaken; [exact Htol|].
    apply (@segment_feasible geneig l p d Unbounded s); auto.
    + apply strictly_feasible_feasible. exact Hp.
    + apply strictly_feasible_enters; assumption.
Qed.

Lemma firstExit_returns_first_crossing_or_unbounded_witness :
  exists t At,
    firstExit diag_solver segment_lmi [0] [1] = inr (Finite t) /\ 0 <= t /\
    evaluate segment_lmi (move [0] t [1]) = inr At /\
    singular (mat_dim segment_lmi) At.
Proof.
  assert (H0 : -1 < 0 < 1) by lra.
  assert (H1 : 1 <> 0) by lra.
  destruct (@firstExit_returns_first_crossing_or_unbounded
              diag_solver segment_lmi [0] [1] 0
              segment_well_formed (@segment_strictly_feasible 0 H0) eq_refl
              (@segment_solver_exact 0 1 H1) (Rle_refl 0)) as (ex & Hex & H).
  destruct ex as [t|].
  - destruct H as (Ht & (At & HAt & Hs & _) & _).
    exists t, At. auto.
  - rewrite segment_exit_forward in Hex by lra. discriminate.
Defined.

(** C8.  A Boltzmann-HMC walk invocation with total time 0 returns the
    starting point, on any spectrahedron, for any starting point, direction
    [c] and initial velocity of the ambient dimension, whatever the
    eigenvalue routine, the normals and the reflection budget; so does any
    number of chained invocations. *)
Theorem boltzmann_walk_zero_time_returns_start
    (polyeig : HMCSettings -> nat -> matrix -> matrix -> matrix -> list R)
    (boundary_normal : LMI -> point -> point) (max_reflections : nat)
    (epsilon : R) (l : LMI) (start c : point) (steps : nat)
    (velocities : nat -> point) :
  length start = ambient_dim l ->
  length c = ambient_dim l ->
  (forall k, length (velocities k) = ambient_dim l) ->
  hmc_walk polyeig boundary_normal max_reflections epsilon l start
    (velocities O) c 0 = inr start /\
  runBoltzmannWalk polyeig boundary_normal max_reflections epsilon l start c 0
    steps velocities = inr start.
Proof.
  intros Hs Hc Hv. split.
  - apply hmc_walk_zero_time; auto.
  - apply runBoltzmannWalk_zero_time; auto.
Qed.

Lemma boltzmann_walk_zero_time_returns_start_witness :
  runBoltzmannWalk segment_polyeig segment_normal 1 (1 / 10000) segment_lmi
    [1 / 2] [3] 0 2 (fun _ => [5]) = inr [1 / 2].
Proof.
  exact (proj2 (@boltzmann_walk_zero_time_returns_start
                  segment_polyeig segment_normal 1 (1 / 10000) segment_lmi
                  [1 / 2] [3] 2 (fun _ => [5])
                  eq_refl eq_refl (fun _ => eq_refl))).
Defined.




End CoreClaims.

(** ** The claims about preprocessing failures *)

Section SessionClaims.

Local Open Scope R_scope.

Context (C0 : Carriers) (E : Extern (core_carriers C0)).
Context (geneig : nat -> matrix -> matrix -> list R)
        (feasibility_search : LMI -> option point)
        (probe_directions : LMI -> list point)
        (diameter_bound : LMI -> point -> R -> R).


End SessionClaims.



Section UnboundedClaim.

Local Open Scope R_scope.




End UnboundedClaim.

Section SettingsClaim.

Local Open Scope R_scope.

(** On fresh settings the collaborator is the walk invocation of the
    specification. *)
Lemma walk_collaborator_fresh (C0 : Carriers)
    (polyeig : HMCSettings -> nat -> matrix -> matrix -> matrix -> list R)
    (boundary_normal : LMI -> point -> point) (max_reflections : nat)
    (draw_velocity : World C0 -> point * World C0)
    (SP : LMI) (diam : slot R) (c : point) (T : R)
    (r : hmc_refs (core_carriers C0)) (w : World C0) :
  first (hmc_settings r) = true ->
  match fst (@walk_collaborator C0 polyeig boundary_normal max_reflections
               draw_velocity SP diam c (Val T) r w),
        hmc_walk polyeig boundary_normal max_reflections
          (epsilon (hmc_settings r)) SP (hmc_p r) (fst (draw_velocity w)) c T
  with
  | inl e, inl e' => e = e'
  | inr r', inr p => hmc_p r' = p
  | _, _ => False
  end.
Proof.
  intros Hfirst. unfold walk_collaborator, hmc_walk, read_settings.
  rewrite Hfirst. destruct (draw_velocity w) as [v w']. cbn [fst].
  destruct (hmc_integrate polyeig boundary_normal max_reflections SP
              (acceleration c T) _ _) as [visited [e|ws]]; reflexivity.
Qed.



End SettingsClaim.



(* ================================================================== *)
(** * Further properties of the driver

    How many walks a session makes, which points it samples, how its
    collaborator calls are ordered, and how it fails. *)

Section ReplayFacts.

Context (C : Carriers).

Lemma points_left_app (a b : list (hmc_call C)) :
  points_left (a ++ b) = points_left a ++ points_left b.
Proof. unfold points_left. apply flat_map_app. Qed.

Lemma points_left_length (cs : list (hmc_call C)) :
  Forall (@succeeded C) cs -> length (points_left cs) = length cs.
Proof.
  induction 1 as [|c cs (r & Hr) _ IH]; [reflexivity|].
  simpl. rewrite Hr. simpl. now rewrite IH.
Qed.

Lemma last_cons_default {A} (x : A) (l : list A) (d d' : A) :
  last (x :: l) d = last (x :: l) d'.
Proof.
  revert x. induction l as [|y l IH]; intros x; [reflexivity|].
  change (last (y :: l) d = last (y :: l) d'). apply IH.
Qed.

Lemma last_app_default {A} (a b : list A) (d : A) :
  last (a ++ b) d = last b (last a d).
Proof.
  revert d. induction a as [|x a IH]; intros d; [reflexivity|].
  destruct b as [|y b].
  - rewrite app_nil_r. reflexivity.
  - transitivity (last (a ++ y :: b) d).
    + simpl. destruct (a ++ y :: b) eqn:Hab; [|reflexivity].
      destruct a; discriminate.
    + rewrite IH. apply last_cons_default.
Qed.

Lemma sample_points_length g wl (p : Point C) pts :
  length (sample_points g wl p pts) = g.
Proof.
  revert p pts. induction g as [|g IH]; intros p pts; simpl; [reflexivity|].
  now rewrite IH.
Qed.

Lemma sample_points_app a b wl (p : Point C) ptsA ptsB :
  length ptsA = (a * wl)%nat ->
  sample_points (a + b) wl p (ptsA ++ ptsB) =
  sample_points a wl p ptsA ++ sample_points b wl (last ptsA p) ptsB.
Proof.
  revert p ptsA. induction a as [|a IH]; intros p ptsA Hlen.
  - destruct ptsA; [reflexivity | discriminate].
  - simpl in Hlen. simpl.
    assert (Hwl : (wl <= length ptsA)%nat) by lia.
    rewrite firstn_app, skipn_app.
    replace (wl - length ptsA)%nat with O by lia.
    simpl. rewrite app_nil_r.
    rewrite IH by (rewrite length_skipn; lia).
    assert (Hl : last ptsA p = last (skipn wl ptsA) (last (firstn wl ptsA) p))
      by (rewrite <- last_app_default, firstn_skipn; reflexivity).
    rewrite Hl. reflexivity.
Qed.

Lemma sample_points_none g (p : Point C) :
  sample_points g 0 p [] = repeat p g.
Proof. induction g as [|g IH]; simpl; [reflexivity | now rewrite IH]. Qed.

Lemma last_nth_error {A} (l : list A) (d : A) :
  l <> [] -> nth_error l (length l - 1) = Some (last l d).
Proof.
  induction l as [|x l IH]; [congruence|]. intros _.
  destruct l as [|y l]; [reflexivity|].
  change (last (x :: y :: l) d) with (last (y :: l) d).
  rewrite <- IH by discriminate. simpl. now rewrite Nat.sub_0_r.
Qed.

(** The [i]-th sample is what walker call number (i + 1) * wl left. *)
Lemma sample_points_nth g wl (p : Point C) pts i :
  (0 < wl)%nat -> length pts = (g * wl)%nat -> (i < g)%nat ->
  nth_error (sample_points g wl p pts) i = nth_error pts (i * wl + wl - 1).
Proof.
  intros Hwl. revert p pts i. induction g as [|g IH]; intros p pts i Hlen Hi; [lia|].
  simpl in Hlen. destruct i as [|i]; simpl.
  - rewrite <- (@last_nth_error _ (firstn wl pts) p).
    + rewrite length_firstn, Nat.min_l by lia.
      rewrite nth_error_firstn. destruct (Nat.ltb_spec (wl - 1) wl); [reflexivity|lia].
    + intros H. apply (f_equal (@length _)) in H.
      rewrite length_firstn, Nat.min_l in H by lia. simpl in H. lia.
  - rewrite IH by (try rewrite length_skipn; lia).
    rewrite nth_error_skipn. f_equal. lia.
Qed.

End ReplayFacts.

Section SamplingFacts.

Context (C : Carriers) {SNT : Scalar (NT C)} (E : Extern C).

Lemma walk_once_walks SP diam cdir T : walks_spec 1 (walk_once E SP diam cdir T).
Proof.
  intros s st s' st'. unfold walk_once, bind, logged, ret.
  destruct (HMC_boltzmann_reflections E SP diam cdir T _ (world st))
    as [[e|r] w] eqn:Hcall; [discriminate|].
  intros [= <- <-]. eexists [_]. cbn [trace map length].
  split; [reflexivity|]. split; [reflexivity|]. split.
  - constructor; [|constructor]. exists r. reflexivity.
  - split; reflexivity.
Qed.

Lemma for_loop_walks k (body : loop_state C -> Run C (loop_state C)) :
  walks_spec k body -> forall j, walks_spec (j * k) (for_loop j body).
Proof.
  intros Hb j. induction j as [|j IH]; intros s st s' st'.
  - intros [= <- <-]. exists []. simpl. rewrite app_nil_r.
    split; [reflexivity|]. split; [reflexivity|]. split; [constructor|].
    split; reflexivity.
  - cbn [for_loop]. unfold bind.
    destruct (body s st) as [[e|s1] st1] eqn:Hrun; [discriminate|].
    intros Hrest.
    destruct (Hb _ _ _ _ Hrun) as (cs1 & Htr1 & Hlen1 & Hok1 & Hp1 & Hr1).
    destruct (IH _ _ _ _ Hrest) as (cs2 & Htr2 & Hlen2 & Hok2 & Hp2 & Hr2).
    exists (cs1 ++ cs2).
    split; [rewrite Htr2, Htr1, map_app, app_assoc; reflexivity|].
    split; [rewrite length_app; simpl; lia|].
    split; [apply Forall_app; split; assumption|].
    split; [rewrite points_left_app, last_app_default, <- Hp1; exact Hp2|].
    congruence.
Qed.

Lemma sample_one_samples SP diam cdir T wl :
  samples_spec (N.to_nat wl) 1 (sample_one E SP diam cdir T (Some wl)).
Proof.
  intros s st s' st'. unfold sample_one, bind, Rcpp_as, ret.
  destruct (for_loop (N.to_nat wl) (walk_once E SP diam cdir T) s st)
    as [[e|s1] st1] eqn:Hrun; [discriminate|].
  intros [= <- <-].
  destruct (for_loop_walks (walk_once_walks SP diam cdir T) (N.to_nat wl)
              _ _ Hrun) as (cs & Htr & Hlen & Hok & Hp & Hr).
  rewrite Nat.mul_1_r in Hlen.
  exists cs. cbn [ls_p randPoints].
  split; [exact Htr|]. split; [simpl; lia|]. split; [exact Hok|].
  split; [exact Hp|].
  rewrite Hr, Hp. cbn [sample_points].
  rewrite firstn_all2 by (rewrite points_left_length by exact Hok; lia).
  reflexivity.
Qed.

Lemma for_loop_samples wl g (body : loop_state C -> Run C (loop_state C)) :
  samples_spec wl g body -> forall j, samples_spec wl (j * g) (for_loop j body).
Proof.
  intros Hb j. induction j as [|j IH]; intros s st s' st'.
  - intros [= <- <-]. exists []. simpl. rewrite !app_nil_r.
    split; [reflexivity|]. split; [reflexivity|]. split; [constructor|].
    split; reflexivity.
  - cbn [for_loop]. unfold bind.
    destruct (body s st) as [[e|s1] st1] eqn:Hrun; [discriminate|].
    intros Hrest.
    destruct (Hb _ _ _ _ Hrun) as (cs1 & Htr1 & Hlen1 & Hok1 & Hp1 & Hr1).
    destruct (IH _ _ _ _ Hrest) as (cs2 & Htr2 & Hlen2 & Hok2 & Hp2 & Hr2).
    exists (cs1 ++ cs2).
    split; [rewrite Htr2, Htr1, map_app, app_assoc; reflexivity|].
    split; [rewrite length_app; simpl; lia|].
    split; [apply Forall_app; split; assumption|].
    split; [rewrite points_left_app, last_app_default, <- Hp1; exact Hp2|].
    rewrite Hr2, Hr1, <- app_assoc. f_equal.
    change (S j * g)%nat with (g + j * g)%nat.
    rewrite points_left_app, sample_points_app
      by (rewrite points_left_length by exact Hok1; exact Hlen1).
    rewrite <- Hp1. reflexivity.
Qed.

Lemma round_k_null SP diam cdir T wl s st :
  N2 E = None -> round_k E SP diam cdir T wl s st = (inl Rcpp_null, st).
Proof. intros H. unfold round_k, bind, Rcpp_as. rewrite H. reflexivity. Qed.

Lemma round_k_samples SP diam cdir T wl n2 :
  N2 E = Some n2 ->
  samples_spec (N.to_nat wl) (N.to_nat n2) (round_k E SP diam cdir T (Some wl)).
Proof.
  intros HN2 s st s' st'. unfold round_k, bind, Rcpp_as, ret. rewrite HN2.
  cbv beta iota.
  destruct (for_loop (N.to_nat n2) (sample_one E SP diam cdir T (Some wl)) s st)
    as [[e|s1] st1] eqn:Hrun; [discriminate|].
  unfold lift.
  destruct (cout E "HMC points sampled.." (world st1)) as [[e|[]] w];
    [discriminate|].
  intros [= <- <-]. cbn [trace].
  destruct (for_loop_samples (sample_one_samples SP diam cdir T wl) (N.to_nat n2)
              _ _ Hrun) as (cs & Htr & Hlen & Hok & Hp & Hr).
  rewrite Nat.mul_1_r in *.
  exists cs. auto.
Qed.

Lemma sampling_null nn0 pre cdir wl st0 :
  N2 E = None -> sampling E nn0 pre cdir wl st0 = (inl Rcpp_null, st0).
Proof.
  intros H. unfold sampling. cbn [for_loop]. unfold bind.
  rewrite round_k_null by exact H. reflexivity.
Qed.

Lemma sampling_samples nn0 pre cdir wl n2 st0 s1 st1 :
  N2 E = Some n2 ->
  sampling E nn0 pre cdir wl st0 = (inr s1, st1) ->
  exists cs,
    trace st1 = trace st0 ++ map (@Ev_HMC C) cs /\
    length cs = (5 * N.to_nat n2 * N.to_nat wl)%nat /\
    Forall (@succeeded C) cs /\
    randPoints s1 =
      sample_points (5 * N.to_nat n2) (N.to_nat wl)
        (Point_dim E (to_unsigned nn0)) (points_left cs).
Proof.
  intros HN2 Hrun. unfold sampling in Hrun.
  destruct (for_loop_samples (round_k_samples (pre_SP pre) (pre_diam_spec pre)
                                cdir (T_of pre) wl HN2) 5 _ _ Hrun)
    as (cs & Htr & Hlen & Hok & _ & Hr).
  exists cs. split; [exact Htr|]. split; [exact Hlen|]. split; [exact Hok|].
  exact Hr.
Qed.

(** Whether the loops throw or not, the trace only grows by walker calls,
    chained and with the same fixed arguments. *)
Lemma sampling_trace nn0 pre cdir wl st0 :
  exists cs o,
    trace (snd (sampling E nn0 pre cdir wl st0)) =
      trace st0 ++ map (@Ev_HMC C) cs /\
    chain (refs_of (loop_start E nn0 pre)) cs o /\
    Forall (uniform (pre_SP pre) (pre_diam_spec pre) cdir (T_of pre)) cs /\
    (forall e, o = inl e -> fst (sampling E nn0 pre cdir wl st0) = inl e) /\
    (forall s', fst (sampling E nn0 pre cdir wl st0) = inr s' ->
                o = inr (refs_of s')).
Proof.
  exact (for_loop_spec (round_k_spec E (pre_SP pre) (pre_diam_spec pre) cdir
                          (T_of pre) (Some wl)) 5 (loop_start E nn0 pre) st0).
Qed.

End SamplingFacts.

Section OutcomeFacts.

Context (C : Carriers) {SNT : Scalar (NT C)} (E : Extern C).

Lemma opti_exp_body_outcome nn mm N M walk_length walk_type w :
  let run := opti_exp_body E nn mm N M walk_length walk_type
               {| world := w; trace := [] |} in
  run_outcome E nn walk_length (fst run) (snd run).
Proof.
  cbv zeta. unfold opti_exp_body, bind, Rcpp_as, lift, throw, ret.
  destruct nn as [nn0|]; [ | eapply outcome_early; reflexivity ].
  destruct walk_length as [wl|]; [ | eapply outcome_early; reflexivity ].
  destruct mm as [mm0|]; [ | eapply outcome_early; reflexivity ].
  cbn [world trace].
  destruct (generateSDP2 E nn0 mm0 w) as [[e|SP] w1];
    [ eapply outcome_early; reflexivity | ].
  cbn [world trace].
  destruct (time_since_epoch E w1) as [[e|seed] w2];
    [ eapply outcome_early; reflexivity | ].
  cbn [world trace]. unfold logged. cbn [world trace fst snd].
  fold (entry_args E nn0 SP (mt19937 E (to_unsigned seed))).
  set (args := entry_args E nn0 SP (mt19937 E (to_unsigned seed))).
  destruct (preproccess_spectrahedron E args w2) as [[e|pre] w3] eqn:Hcall.
  { eapply outcome_preprocess_threw; reflexivity. }
  cbn [world trace app].
  fold (T_of pre).
  destruct (get_direction E (to_unsigned nn0) w3) as [[e|cdir] w4].
  { eapply outcome_before_sampling; reflexivity. }
  cbn [world trace].
  destruct (writeSDPAFormatFile E (getLMI E (pre_SP pre)) (get_coefficients E cdir) w4)
    as [[e|[]] w5].
  { eapply outcome_before_sampling; reflexivity. }
  cbn [world trace].
  destruct (cout E "Starting sampling.." w5) as [[e|[]] w6].
  { eapply outcome_before_sampling; reflexivity. }
  cbn [world trace].
  match goal with
  | |- context [for_loop 5 ?b ?s0 ?st0] =>
      change (for_loop 5 b s0 st0) with (sampling E nn0 pre cdir wl st0)
  end.
  destruct (sampling E nn0 pre cdir wl
              {| world := w6; trace := [Ev_preprocess args (inr pre)] |})
    as [[e|s1] st1] eqn:Hloop.
  { eapply outcome_sampling_threw with (st0 := {| world := w6; trace := _ |});
      [reflexivity | reflexivity | reflexivity | exact Hloop | reflexivity]. }
  destruct (hit_and_run_Boltzmann_spec E (ls_p s1) (pre_SP pre) (ls_var s1) cdir
              (T_of pre) (world st1)) as [[e|pv] w7]; cbn [fst snd trace].
  - eapply outcome_sampled with (st0 := {| world := w6; trace := _ |});
      [reflexivity | reflexivity | reflexivity | exact Hloop | reflexivity
      | discriminate].
  - eapply outcome_sampled with (st0 := {| world := w6; trace := _ |});
      [reflexivity | reflexivity | reflexivity | exact Hloop | reflexivity
      | intros r [= <-]; reflexivity].
Qed.

End OutcomeFacts.

Section OutcomeUse.

Context (C : Carriers) {SNT : Scalar (NT C)} (E : Extern C).

Lemma chain_failed_last (r : hmc_refs C) cs o k e :
  chain r cs o -> In k cs -> call_out k = inl e ->
  exists before, cs = before ++ [k] /\ Forall (@succeeded C) before.
Proof.
  intros H Hin Hout.
  induction H as [r0|r0 c r1 rest o1 Hi Ho Hrest IH|r0 c e' Hi Ho].
  - destruct Hin.
  - destruct Hin as [<- | Hin]; [congruence|].
    destruct (IH Hin) as (before & -> & Hok).
    exists (c :: before). split; [reflexivity|].
    constructor; [exists r1; exact Ho | exact Hok].
  - destruct Hin as [<- | []]. exists []. split; [reflexivity | constructor].
Qed.

Lemma hmc_calls_after_preprocess (a : preprocess_refs C) res
    (cs : list (hmc_call C)) :
  hmc_calls ([Ev_preprocess a res] ++ map (@Ev_HMC C) cs) = cs.
Proof. change (hmc_calls (map (@Ev_HMC C) cs) = cs). apply hmc_calls_map. Qed.

(** What a call that reached [return] did. *)
Lemma opti_exp_body_returned nn mm N M walk_length walk_type w r :
  fst (opti_exp_body E nn mm N M walk_length walk_type
         {| world := w; trace := [] |}) = inr r ->
  exists nn0 wl n2 SP rng0 pre cs,
    nn = Some nn0 /\ walk_length = Some wl /\ N2 E = Some n2 /\
    trace (snd (opti_exp_body E nn mm N M walk_length walk_type
                  {| world := w; trace := [] |})) =
      Ev_preprocess (entry_args E nn0 SP rng0) (inr pre)
        :: map (@Ev_HMC C) cs ++ [Ev_hit_and_run C] /\
    length cs = (5 * N.to_nat n2 * N.to_nat wl)%nat /\
    Forall (@succeeded C) cs /\
    ret_randPoints r =
      sample_points (5 * N.to_nat n2) (N.to_nat wl)
        (Point_dim E (to_unsigned nn0)) (points_left cs).
Proof.
  pose proof (opti_exp_body_outcome E nn mm N M walk_length walk_type w) as Ho.
  cbv zeta in Ho. intros Hr.
  destruct Ho as [e Hres Htr | nn0 SP rng0 e Hnn Hres Htr
                 | nn0 SP rng0 pre e Hnn Hres Htr
                 | nn0 wl SP rng0 pre cdir st0 e Hnn Hwl Htr0 Hloop Hres
                 | nn0 wl SP rng0 pre cdir st0 s1 st1 Hnn Hwl Htr0 Hloop Htr Hret];
    try congruence.
  destruct (N2 E) as [n2|] eqn:HN2;
    [ | rewrite sampling_null in Hloop by exact HN2; discriminate ].
  destruct (sampling_samples E nn0 pre cdir wl st0 HN2 Hloop)
    as (cs & Htr1 & Hlen & Hok & Hpts).
  exists nn0, wl, n2, SP, rng0, pre, cs.
  split; [exact Hnn|]. split; [exact Hwl|]. split; [reflexivity|].
  split; [rewrite Htr, Htr1, Htr0; reflexivity|].
  split; [exact Hlen|]. split; [exact Hok|].
  rewrite (Hret r Hr). exact Hpts.
Qed.

End OutcomeUse.

(** X1.  When [nn], [mm] or [walk_length] is NULL -- as each is by default
    -- the call throws before it has called any collaborator: nothing is
    generated, preprocessed or written. *)
Theorem opti_exp_null_argument
    (C : Carriers) (SNT : Scalar (NT C)) (E : Extern C)
    (nn mm : Nullable Z) (N M walk_length walk_type : Nullable BinNums.N)
    (w : World C) :
  nn = None \/ mm = None \/ walk_length = None ->
  opti_exp E nn mm N M walk_length walk_type w =
  (inl Rcpp_null, {| world := w; trace := [] |}).
Proof.
  intros H. destruct nn as [nn0|]; [|reflexivity].
  destruct walk_length as [wl|]; [|reflexivity].
  destruct mm as [mm0|]; [|reflexivity].
  destruct H as [H | [H | H]]; discriminate.
Qed.

Lemma opti_exp_null_argument_witness :
  opti_exp (Fixture.extern (Some 1%N)) None None None None None None O =
  (inl Rcpp_null, @Build_MState Fixture.carriers O []).
Proof.
  exact (@opti_exp_null_argument Fixture.carriers _ (Fixture.extern (Some 1%N))
           None None None None None None O (or_introl eq_refl)).
Defined.

(** X2.  When the identifier [N2] is NULL the call never returns a
    matrix, and the walker is never called. *)
Theorem opti_exp_needs_N2
    (C : Carriers) (SNT : Scalar (NT C)) (E : Extern C)
    (nn mm : Nullable Z) (N M walk_length walk_type : Nullable BinNums.N)
    (w : World C) :
  N2 E = None ->
  (exists e, fst (opti_exp E nn mm N M walk_length walk_type w) = inl e) /\
  hmc_calls (trace (snd (opti_exp E nn mm N M walk_length walk_type w))) = [].
Proof.
  intros HN2. rewrite opti_exp_state, opti_exp_result.
  pose proof (opti_exp_body_outcome E nn mm N M walk_length walk_type w) as Ho.
  cbv zeta in Ho.
  destruct Ho as [e Hres Htr | nn0 SP rng0 e Hnn Hres Htr
                 | nn0 SP rng0 pre e Hnn Hres Htr
                 | nn0 wl SP rng0 pre cdir st0 e Hnn Hwl Htr0 Hloop Hres
                 | nn0 wl SP rng0 pre cdir st0 s1 st1 Hnn Hwl Htr0 Hloop Htr Hret].
  - rewrite Hres, Htr. split; [eexists; reflexivity | reflexivity].
  - rewrite Hres, Htr. split; [eexists; reflexivity | reflexivity].
  - rewrite Hres, Htr. split; [eexists; reflexivity | reflexivity].
  - rewrite sampling_null in Hloop by exact HN2. injection Hloop as _ Hst.
    rewrite Hres, <- Hst, Htr0. split; [eexists; reflexivity | reflexivity].
  - rewrite sampling_null in Hloop by exact HN2. discriminate.
Qed.

Lemma opti_exp_needs_N2_witness :
  (exists e, fst (opti_exp (Fixture.extern None) (Some 1%Z) (Some 1%Z)
                    (Some 1%N) (Some 1%N) (Some 2%N) None O) = inl e) /\
  hmc_calls (trace (snd (opti_exp (Fixture.extern None) (Some 1%Z) (Some 1%Z)
                           (Some 1%N) (Some 1%N) (Some 2%N) None O))) = [].
Proof.
  exact (@opti_exp_needs_N2 Fixture.carriers _ (Fixture.extern None)
           (Some 1%Z) (Some 1%Z) (Some 1%N) (Some 1%N) (Some 2%N) None O eq_refl).
Defined.

(** X3.  A call that reaches [return] has called preprocessing once, then
    the walker exactly 5 * N2 * walk_length times, none of which threw,
    then [hit_and_run_Boltzmann_spec] once, and nothing else that is
    recorded; it has pushed 5 * N2 samples. *)
Theorem returning_call_walks_5_N2_walk_length_times
    (C : Carriers) (SNT : Scalar (NT C)) (E : Extern C)
    (nn mm : Nullable Z) (N M walk_length walk_type : Nullable BinNums.N)
    (w : World C) (r : at_return C) (n2 wl : BinNums.N) :
  fst (opti_exp_body E nn mm N M walk_length walk_type
         {| world := w; trace := [] |}) = inr r ->
  N2 E = Some n2 -> walk_length = Some wl ->
  exists args pre cs,
    trace (snd (opti_exp_body E nn mm N M walk_length walk_type
                  {| world := w; trace := [] |})) =
      Ev_preprocess args (inr pre) :: map (@Ev_HMC C) cs ++ [Ev_hit_and_run C] /\
    Forall (@succeeded C) cs /\
    length cs = (5 * N.to_nat n2 * N.to_nat wl)%nat /\
    length (ret_randPoints r) = (5 * N.to_nat n2)%nat.
Proof.
  intros Hr HN2 Hwl.
  destruct (opti_exp_body_returned E _ _ _ _ _ _ _ Hr)
    as (nn0 & wl' & n2' & SP & rng0 & pre & cs & Hnn & Hwl' & HN2' & Htr & Hlen
        & Hok & Hpts).
  assert (wl' = wl) by congruence. assert (n2' = n2) by congruence. subst.
  exists (entry_args E nn0 SP rng0), pre, cs.
  split; [exact Htr|]. split; [exact Hok|]. split; [exact Hlen|].
  rewrite Hpts. apply sample_points_length.
Qed.

Lemma returning_call_walks_5_N2_walk_length_times_witness :
  exists r,
    fst (opti_exp_body (Fixture.extern (Some 3%N)) (Some 1%Z) (Some 1%Z)
           None None (Some 2%N) None (@Build_MState Fixture.carriers O []))
      = inr r /\
    length (hmc_calls (trace (snd
      (opti_exp_body (Fixture.extern (Some 3%N)) (Some 1%Z) (Some 1%Z)
         None None (Some 2%N) None (@Build_MState Fixture.carriers O [])))))
      = 30%nat /\
    length (ret_randPoints r) = 15%nat.
Proof.
  assert (Hr : { r | fst (opti_exp_body (Fixture.extern (Some 3%N)) (Some 1%Z)
                            (Some 1%Z) None None (Some 2%N) None
                            (@Build_MState Fixture.carriers O [])) = inr r }).
  { eexists. vm_compute. reflexivity. }
  destruct Hr as (r & Hr). exists r.
  destruct (@returning_call_walks_5_N2_walk_length_times Fixture.carriers _
              (Fixture.extern (Some 3%N)) (Some 1%Z) (Some 1%Z) None None
              (Some 2%N) None O r 3%N 2%N Hr eq_refl eq_refl)
    as (args & pre & cs & Htr & Hok & Hlen & Hsamples).
  refine (conj Hr (conj _ Hsamples)).
  rewrite Htr, hmc_calls_sampling by (right; reflexivity). exact Hlen.
Defined.

(** X4.  In a call that reaches [return] with walk_length > 0, sample
    number [i] (from 0) is the point that walker call number
    (i + 1) * walk_length (from 1) left in [p]. *)
Theorem sample_is_point_left_by_last_walk_of_its_group
    (C : Carriers) (SNT : Scalar (NT C)) (E : Extern C)
    (nn mm : Nullable Z) (N M walk_length walk_type : Nullable BinNums.N)
    (w : World C) (r : at_return C) (wl : BinNums.N) (i : nat) :
  fst (opti_exp_body E nn mm N M walk_length walk_type
         {| world := w; trace := [] |}) = inr r ->
  walk_length = Some wl -> (0 < wl)%N ->
  (i < length (ret_randPoints r))%nat ->
  nth_error (ret_randPoints r) i =
  nth_error
    (points_left
       (hmc_calls (trace (snd (opti_exp_body E nn mm N M walk_length walk_type
                                 {| world := w; trace := [] |})))))
    (i * N.to_nat wl + N.to_nat wl - 1).
Proof.
  intros Hr Hwl Hpos Hi.
  destruct (opti_exp_body_returned E _ _ _ _ _ _ _ Hr)
    as (nn0 & wl' & n2 & SP & rng0 & pre & cs & Hnn & Hwl' & HN2 & Htr & Hlen
        & Hok & Hpts).
  assert (wl' = wl) by congruence. subst wl'.
  rewrite Htr, hmc_calls_sampling by (right; reflexivity).
  rewrite Hpts in Hi |- *. rewrite sample_points_length in Hi.
  apply sample_points_nth; [lia | | exact Hi].
  rewrite points_left_length by exact Hok. exact Hlen.
Qed.

Lemma sample_is_point_left_by_last_walk_of_its_group_witness :
  exists r,
    fst (opti_exp_body (Fixture.extern (Some 1%N)) (Some 1%Z) (Some 1%Z)
           None None (Some 2%N) None (@Build_MState Fixture.carriers O []))
      = inr r /\
    nth_error (ret_randPoints r) 2 = Some [6 # 1] /\
    nth_error (ret_randPoints r) 2 =
    nth_error
      (points_left
         (hmc_calls (trace (snd
            (opti_exp_body (Fixture.extern (Some 1%N)) (Some 1%Z) (Some 1%Z)
               None None (Some 2%N) None
               (@Build_MState Fixture.carriers O []))))))
      (2 * N.to_nat 2 + N.to_nat 2 - 1).
Proof.
  assert (Hr : { r | fst (opti_exp_body (Fixture.extern (Some 1%N)) (Some 1%Z)
                            (Some 1%Z) None None (Some 2%N) None
                            (@Build_MState Fixture.carriers O [])) = inr r /\
                     nth_error (ret_randPoints r) 2 = Some [6 # 1] /\
                     (2 < length (ret_randPoints r))%nat }).
  { eexists. split; [vm_compute; reflexivity|]. split; [reflexivity|].
    simpl. lia. }
  destruct Hr as (r & Hr & Hthird & Hlen). exists r.
  refine (conj Hr (conj Hthird _)).
  exact (@sample_is_point_left_by_last_walk_of_its_group Fixture.carriers _
           (Fixture.extern (Some 1%N)) (Some 1%Z) (Some 1%Z) None None
           (Some 2%N) None O r 2%N 2%nat Hr eq_refl eq_refl Hlen).
Defined.

(** X5.  With walk_length 0 a call that reaches [return] has not called
    the walker, and each of its 5 * N2 samples is [Point(n)], the point of
    line 75. *)
Theorem zero_walk_length_samples_the_starting_point
    (C : Carriers) (SNT : Scalar (NT C)) (E : Extern C)
    (nn mm : Nullable Z) (N M walk_type : Nullable BinNums.N)
    (w : World C) (r : at_return C) (nn0 : Z) (n2 : BinNums.N) :
  fst (opti_exp_body E nn mm N M (Some 0%N) walk_type
         {| world := w; trace := [] |}) = inr r ->
  nn = Some nn0 -> N2 E = Some n2 ->
  hmc_calls (trace (snd (opti_exp_body E nn mm N M (Some 0%N) walk_type
                           {| world := w; trace := [] |}))) = [] /\
  ret_randPoints r =
    repeat (Point_dim E (to_unsigned nn0)) (5 * N.to_nat n2).
Proof.
  intros Hr Hnn HN2.
  destruct (opti_exp_body_returned E _ _ _ _ _ _ _ Hr)
    as (nn0' & wl' & n2' & SP & rng0 & pre & cs & Hnn' & Hwl' & HN2' & Htr & Hlen
        & Hok & Hpts).
  assert (nn0' = nn0) by congruence. assert (n2' = n2) by congruence.
  assert (wl' = 0%N) by congruence. subst.
  rewrite Htr, hmc_calls_sampling by (right; reflexivity).
  change (N.to_nat 0) with O in *. rewrite Nat.mul_0_r in Hlen.
  destruct cs; [|discriminate]. split; [reflexivity|].
  rewrite Hpts. apply sample_points_none.
Qed.

Lemma zero_walk_length_samples_the_starting_point_witness :
  exists r,
    fst (opti_exp_body (Fixture.extern (Some 1%N)) (Some 2%Z) (Some 1%Z)
           None None (Some 0%N) None (@Build_MState Fixture.carriers O []))
      = inr r /\
    ret_randPoints r = repeat [0 # 1; 0 # 1] 5.
Proof.
  assert (Hr : { r | fst (opti_exp_body (Fixture.extern (Some 1%N)) (Some 2%Z)
                            (Some 1%Z) None None (Some 0%N) None
                            (@Build_MState Fixture.carriers O [])) = inr r }).
  { eexists. vm_compute. reflexivity. }
  destruct Hr as (r & Hr). exists r. split; [exact Hr|].
  exact (proj2 (@zero_walk_length_samples_the_starting_point Fixture.carriers _
                  (Fixture.extern (Some 1%N)) (Some 2%Z) (Some 1%Z) None None
                  None O r 2%Z 1%N Hr eq_refl eq_refl)).
Defined.

(** X6.  The first walker call starts from [Point(n)] of line 75 -- not
    from the point preprocessing left in [p] -- with the configuration as
    preprocessing left it; every later walker call finds [p], [var] and
    [settings2] exactly as the call before it left them. *)
Theorem walker_calls_thread_point_and_configuration
    (C : Carriers) (SNT : Scalar (NT C)) (E : Extern C)
    (nn mm : Nullable Z) (N M walk_length walk_type : Nullable BinNums.N)
    (w : World C) (nn0 : Z) (args pre : preprocess_refs C) :
  nn = Some nn0 ->
  In (Ev_preprocess args (inr pre))
     (trace (snd (opti_exp E nn mm N M walk_length walk_type w))) ->
  (forall k rest,
     hmc_calls (trace (snd (opti_exp E nn mm N M walk_length walk_type w)))
       = k :: rest ->
     hmc_p (call_in k) = Point_dim E (to_unsigned nn0) /\
     hmc_var (call_in k) = pre_var pre) /\
  (forall i k k',
     nth_error (hmc_calls (trace (snd (opti_exp E nn mm N M walk_length
                                         walk_type w)))) i = Some k ->
     nth_error (hmc_calls (trace (snd (opti_exp E nn mm N M walk_length
                                         walk_type w)))) (S i) = Some k' ->
     call_out k = inr (call_in k')).
Proof.
  intros Hnn. rewrite opti_exp_state.
  pose proof (opti_exp_body_shape E nn mm N M walk_length walk_type w) as Hs.
  cbv zeta in Hs.
  destruct Hs as [e0 Hres Htr | a e0 Hres Htr Hb
                 | a pre0 nn1 cdir cs o tail Htr Hb Hnn1 Hch Hu Hfail Hret Htail];
    rewrite Htr; intros Hin.
  - destruct Hin.
  - destruct Hin as [Heq | []]. discriminate.
  - apply preprocess_in_sampling in Hin; [ | exact Htail ].
    destruct Hin as [_ Heq]. injection Heq as <-.
    assert (nn1 = nn0) by congruence. subst nn1.
    rewrite hmc_calls_sampling by exact Htail. split.
    + intros k rest Hc. rewrite (chain_head Hch Hc). split; reflexivity.
    + intros i k k' Hk Hk'.
      destruct (chain_nth _ Hch Hk Hk') as (r' & Hout & Hin'). congruence.
Qed.

Lemma walker_calls_thread_point_and_configuration_witness :
  exists k k',
    nth_error (hmc_calls (trace (snd (Fixture.session None None)))) 0 = Some k /\
    nth_error (hmc_calls (trace (snd (Fixture.session None None)))) 1 = Some k' /\
    hmc_p (call_in k) = [0 # 1] /\
    hmc_p (call_in k') = [1 # 1] /\
    call_out k = inr (call_in k').
Proof.
  assert (Hp : { args : preprocess_refs Fixture.carriers &
               { pre | In (Ev_preprocess args (inr pre))
                          (trace (snd (Fixture.session None None))) } }).
  { eexists. eexists. vm_compute. left. reflexivity. }
  assert (H0 : { k | nth_error (hmc_calls (trace (snd (Fixture.session None None)))) 0
                     = Some k /\ hmc_p (call_in k) = [0 # 1] }).
  { eexists. split; [ vm_compute; reflexivity | reflexivity ]. }
  assert (H1 : { k | nth_error (hmc_calls (trace (snd (Fixture.session None None)))) 1
                     = Some k /\ hmc_p (call_in k) = [1 # 1] }).
  { eexists. split; [ vm_compute; reflexivity | reflexivity ]. }
  destruct Hp as (args & pre & Hin).
  destruct H0 as (k & Hk & Hp0). destruct H1 as (k' & Hk' & Hp1).
  destruct (@walker_calls_thread_point_and_configuration Fixture.carriers _
              (Fixture.extern (Some 1%N)) (Some 1%Z) (Some 1%Z) None None
              (Some 2%N) None O 1%Z args pre eq_refl Hin) as [_ Hnext].
  exists k, k'.
  exact (conj Hk (conj Hk' (conj Hp0 (conj Hp1 (Hnext 0%nat k k' Hk Hk'))))).
Defined.

(** X7.  Every walker call of a session is given the spectrahedron and
    the diameter as preprocessing left them, and any two are given the same
    direction [c]. *)
Theorem walker_calls_share_spectrahedron_diameter_direction
    (C : Carriers) (SNT : Scalar (NT C)) (E : Extern C)
    (nn mm : Nullable Z) (N M walk_length walk_type : Nullable BinNums.N)
    (w : World C) (args pre : preprocess_refs C) (k k' : hmc_call C) :
  In (Ev_preprocess args (inr pre))
     (trace (snd (opti_exp E nn mm N M walk_length walk_type w))) ->
  In k (hmc_calls (trace (snd (opti_exp E nn mm N M walk_length walk_type w)))) ->
  In k' (hmc_calls (trace (snd (opti_exp E nn mm N M walk_length walk_type w)))) ->
  call_SP k = pre_SP pre /\ call_diam k = pre_diam_spec pre /\
  call_c k = call_c k'.
Proof.
  rewrite opti_exp_state.
  pose proof (opti_exp_body_shape E nn mm N M walk_length walk_type w) as Hs.
  cbv zeta in Hs.
  destruct Hs as [e0 Hres Htr | a e0 Hres Htr Hb
                 | a pre0 nn1 cdir cs o tail Htr Hb Hnn1 Hch Hu Hfail Hret Htail];
    rewrite Htr; intros Hin Hk Hk'.
  - destruct Hin.
  - destruct Hk.
  - apply preprocess_in_sampling in Hin; [ | exact Htail ].
    destruct Hin as [_ Heq]. injection Heq as <-.
    rewrite hmc_calls_sampling in Hk, Hk' by exact Htail.
    rewrite Forall_forall in Hu.
    destruct (Hu k Hk) as (HSP & Hd & Hc & _).
    destruct (Hu k' Hk') as (_ & _ & Hc' & _).
    split; [exact HSP|]. split; [exact Hd|]. congruence.
Qed.

Lemma walker_calls_share_spectrahedron_diameter_direction_witness :
  exists k k',
    nth_error (hmc_calls (trace (snd (Fixture.session None None)))) 0 = Some k /\
    nth_error (hmc_calls (trace (snd (Fixture.session None None)))) 9 = Some k' /\
    call_diam k = Val (3 # 1) /\ call_c k = call_c k'.
Proof.
  assert (Hp : { args : preprocess_refs Fixture.carriers &
               { pre | In (Ev_preprocess args (inr pre))
                          (trace (snd (Fixture.session None None))) /\
                       pre_diam_spec pre = Val (3 # 1) } }).
  { eexists. eexists. split; [ vm_compute; left; reflexivity | reflexivity ]. }
  assert (H0 : { k | nth_error (hmc_calls (trace (snd (Fixture.session None None)))) 0
                     = Some k }).
  { eexists. vm_compute. reflexivity. }
  assert (H9 : { k | nth_error (hmc_calls (trace (snd (Fixture.session None None)))) 9
                     = Some k }).
  { eexists. vm_compute. reflexivity. }
  destruct Hp as (args & pre & Hin & Hd).
  destruct H0 as (k & Hk). destruct H9 as (k' & Hk').
  destruct (@walker_calls_share_spectrahedron_diameter_direction
              Fixture.carriers _ (Fixture.extern (Some 1%N)) (Some 1%Z) (Some 1%Z)
              None None (Some 2%N) None O args pre k k' Hin
              (nth_error_In _ _ Hk) (nth_error_In _ _ Hk'))
    as (_ & Hdiam & Hc).
  exists k, k'.
  refine (conj Hk (conj Hk' (conj _ Hc))). rewrite Hdiam. exact Hd.
Defined.

(** X8.  A walker call that throws is the last walker call of the
    session: every walker call before it returned, the session ends with
    its exception, and [hit_and_run_Boltzmann_spec] is not called. *)
Theorem failed_walk_ends_the_session
    (C : Carriers) (SNT : Scalar (NT C)) (E : Extern C)
    (nn mm : Nullable Z) (N M walk_length walk_type : Nullable BinNums.N)
    (w : World C) (k : hmc_call C) (e : exception) :
  In k (hmc_calls (trace (snd (opti_exp E nn mm N M walk_length walk_type w)))) ->
  call_out k = inl e ->
  fst (opti_exp E nn mm N M walk_length walk_type w) = inl e /\
  (exists before,
     hmc_calls (trace (snd (opti_exp E nn mm N M walk_length walk_type w)))
       = before ++ [k] /\
     Forall (@succeeded C) before) /\
  ~ In (Ev_hit_and_run C)
       (trace (snd (opti_exp E nn mm N M walk_length walk_type w))).
Proof.
  rewrite opti_exp_state, opti_exp_result.
  pose proof (opti_exp_body_outcome E nn mm N M walk_length walk_type w) as Ho.
  cbv zeta in Ho.
  destruct Ho as [e0 Hres Htr | nn0 SP rng0 e0 Hnn Hres Htr
                 | nn0 SP rng0 pre e0 Hnn Hres Htr
                 | nn0 wl SP rng0 pre cdir st0 e0 Hnn Hwl Htr0 Hloop Hres
                 | nn0 wl SP rng0 pre cdir st0 s1 st1 Hnn Hwl Htr0 Hloop Htr Hret].
  - rewrite Htr. intros [].
  - rewrite Htr. intros [].
  - rewrite Htr. intros [].
  - destruct (sampling_trace E nn0 pre cdir wl st0)
      as (cs & o & Htr1 & Hch & _ & Hfail & _).
    rewrite Hloop in Htr1, Hfail. cbn [fst snd] in Htr1, Hfail.
    rewrite Htr1, Htr0, hmc_calls_after_preprocess. intros Hin Hout.
    assert (Ho : o = inl e) by (eapply chain_threw; eassumption).
    specialize (Hfail e Ho). injection Hfail as ->.
    rewrite Hres. split; [reflexivity|].
    split; [eapply chain_failed_last; eassumption|].
    intros [Hd | Hd]; [discriminate|].
    apply in_map_iff in Hd. destruct Hd as (c & Hc & _). discriminate.
  - destruct (N2 E) as [n2|] eqn:HN2;
      [ | rewrite sampling_null in Hloop by exact HN2; discriminate ].
    destruct (sampling_samples E nn0 pre cdir wl st0 HN2 Hloop)
      as (cs & Htr1 & _ & Hok & _).
    rewrite Htr, Htr1, Htr0, hmc_calls_app, hmc_calls_after_preprocess.
    simpl. rewrite app_nil_r. intros Hin Hout.
    rewrite Forall_forall in Hok. destruct (Hok k Hin) as (r & Hr). congruence.
Qed.

Lemma failed_walk_ends_the_session_witness :
  fst (opti_exp (Faulty.extern 3) (Some 1%Z) (Some 1%Z) None None
         (Some 2%N) None O) = inl DimensionMismatch /\
  length (hmc_calls (trace (snd (opti_exp (Faulty.extern 3) (Some 1%Z) (Some 1%Z)
                                   None None (Some 2%N) None O)))) = 4%nat.
Proof.
  assert (Hk : { k | nth_error
                       (hmc_calls (trace (snd (opti_exp (Faulty.extern 3)
                          (Some 1%Z) (Some 1%Z) None None (Some 2%N) None O)))) 3
                     = Some k /\ call_out k = inl DimensionMismatch }).
  { eexists. split; [ vm_compute; reflexivity | reflexivity ]. }
  destruct Hk as (k & Hk & Hout).
  destruct (@failed_walk_ends_the_session Fixture.carriers _ (Faulty.extern 3)
              (Some 1%Z) (Some 1%Z) None None (Some 2%N) None O k
              DimensionMismatch (nth_error_In _ _ Hk) Hout)
    as (Hres & _ & _).
  split; [exact Hres|]. vm_compute. reflexivity.
Defined.

Lemma no_preprocess_among_walks (C : Carriers) (cs : list (hmc_call C)) tail a r :
  tail = [] \/ tail = [Ev_hit_and_run C] ->
  ~ In (Ev_preprocess a r) (map (@Ev_HMC C) cs ++ tail).
Proof.
  intros Ht Hin. apply in_app_or in Hin. destruct Hin as [Hin | Hin].
  - apply in_map_iff in Hin. destruct Hin as (k & Hk & _). discriminate.
  - destruct Ht as [-> | ->]; simpl in Hin;
      [ exact Hin | destruct Hin as [Hd | []]; discriminate ].
Qed.

(** X10.  Preprocessing is called at most once in a call of [opti_exp]
    and before anything else that is recorded, always on the arguments of
    lines 61-73: [p] is [Point(nn)], [round] is false, [round_value] is
    1.0, [settings.LMIatP] is the matrix A0 of the spectrahedron, [diam_spec]
    and [rad] are unassigned. *)
Theorem preprocessing_is_called_once_on_the_entry_arguments
    (C : Carriers) (SNT : Scalar (NT C)) (E : Extern C)
    (nn mm : Nullable Z) (N M walk_length walk_type : Nullable BinNums.N)
    (w : World C) (args : preprocess_refs C)
    (res : exception + preprocess_refs C) :
  In (Ev_preprocess args res)
     (trace (snd (opti_exp E nn mm N M walk_length walk_type w))) ->
  exists nn0 rest,
    nn = Some nn0 /\
    trace (snd (opti_exp E nn mm N M walk_length walk_type w)) =
      Ev_preprocess args res :: rest /\
    (forall a r, ~ In (Ev_preprocess a r) rest) /\
    pre_p args = Point_dim E (to_unsigned nn0) /\
    pre_round args = false /\
    pre_round_value args = Val (dec 1 0) /\
    LMIatP (pre_settings args) = getA0 E (getLMI E (pre_SP args)) /\
    pre_diam_spec args = Indet /\ pre_rad args = Indet.
Proof.
  rewrite opti_exp_state.
  pose proof (opti_exp_body_outcome E nn mm N M walk_length walk_type w) as Ho.
  cbv zeta in Ho.
  destruct Ho as [e0 Hres Htr | nn0 SP rng0 e0 Hnn Hres Htr
                 | nn0 SP rng0 pre e0 Hnn Hres Htr
                 | nn0 wl SP rng0 pre cdir st0 e0 Hnn Hwl Htr0 Hloop Hres
                 | nn0 wl SP rng0 pre cdir st0 s1 st1 Hnn Hwl Htr0 Hloop Htr Hret].
  - rewrite Htr. intros [].
  - rewrite Htr. intros [Heq | []]. injection Heq as <- <-.
    exists nn0, []. split; [exact Hnn|]. split; [reflexivity|].
    split; [intros a r []|]. repeat split.
  - rewrite Htr. intros [Heq | []]. injection Heq as <- <-.
    exists nn0, []. split; [exact Hnn|]. split; [reflexivity|].
    split; [intros a r []|]. repeat split.
  - destruct (sampling_trace E nn0 pre cdir wl st0) as (cs & o & Htr1 & _).
    rewrite Hloop in Htr1. cbn [snd] in Htr1. rewrite Htr1, Htr0.
    intros [Heq | Hin].
    + injection Heq as <- <-.
      exists nn0, (map (@Ev_HMC C) cs). split; [exact Hnn|].
      split; [reflexivity|]. split.
      * intros a r Hin.
        apply (@no_preprocess_among_walks C cs [] a r (or_introl eq_refl)).
        rewrite app_nil_r. exact Hin.
      * repeat split.
    + exfalso.
      apply (@no_preprocess_among_walks C cs [] args res (or_introl eq_refl)).
      rewrite app_nil_r. exact Hin.
  - destruct (sampling_trace E nn0 pre cdir wl st0) as (cs & o & Htr1 & _).
    rewrite Hloop in Htr1. cbn [snd] in Htr1. rewrite Htr, Htr1, Htr0.
    cbn [app]. intros [Heq | Hin].
    + injection Heq as <- <-.
      exists nn0, (map (@Ev_HMC C) cs ++ [Ev_hit_and_run C]).
      split; [exact Hnn|]. split; [reflexivity|]. split.
      * intros a r.
        apply no_preprocess_among_walks. right. reflexivity.
      * repeat split.
    + exfalso. revert Hin.
      apply no_preprocess_among_walks. right. reflexivity.
Qed.

Lemma preprocessing_is_called_once_on_the_entry_arguments_witness :
  exists args res rest,
    trace (snd (Fixture.session None None)) = Ev_preprocess args res :: rest /\
    pre_p args = [0 # 1] /\ pre_round args = false /\
    (forall a r, ~ In (Ev_preprocess a r) rest).
Proof.
  assert (Hp : { args : preprocess_refs Fixture.carriers &
               { res | In (Ev_preprocess args res)
                          (trace (snd (Fixture.session None None))) } }).
  { eexists. eexists. vm_compute. left. reflexivity. }
  destruct Hp as (args & res & Hin).
  destruct (@preprocessing_is_called_once_on_the_entry_arguments
              Fixture.carriers _ (Fixture.extern (Some 1%N)) (Some 1%Z) (Some 1%Z)
              None None (Some 2%N) None O args res Hin)
    as (nn0 & rest & Hnn & Htr & Hnone & Hp & Hround & _).
  exists args, res, rest. injection Hnn as <-.
  exact (conj Htr (conj Hp (conj Hround Hnone))).
Defined.

Lemma opti_exp_returns_Ratios_witness :
  fst (opti_exp (Fixture.extern (Some 3%N)) (Some 2%Z) (Some 1%Z) (Some 7%N)
         None (Some 1%N) None O) = inr (wrap (Fixture.extern (Some 3%N))
                                          (Ratios (Fixture.extern (Some 3%N)))).
Proof.
  assert (Hr : { r | fst (opti_exp (Fixture.extern (Some 3%N)) (Some 2%Z)
                            (Some 1%Z) (Some 7%N) None (Some 1%N) None O)
                     = inr r }).
  { eexists. vm_compute. reflexivity. }
  destruct Hr as (r & Hr). rewrite Hr. f_equal.
  exact (@opti_exp_returns_Ratios Fixture.carriers _ (Fixture.extern (Some 3%N))
           (Some 2%Z) (Some 1%Z) (Some 7%N) None (Some 1%N) None O r Hr).
Defined.
